(** * Navigation episode controller of iGibson (gibson2/envs/locomotor_env.py)

    A shallow embedding of [NavigateEnv], [NavigateRandomEnv] and
    [InteractiveNavigateEnv]: the observation assembly, the shaped reward,
    the termination test, the three-stage door task and the step / reset
    protocol.  Python floats are read as real numbers; a method that mutates
    [self] and may raise is a function from the environment to an outcome
    and the environment it leaves behind. *)

From Stdlib Require Import Reals Lra Lia ZArith List String Bool.
Import ListNotations.

Local Open Scope string_scope.
Local Open Scope list_scope.
Local Open Scope R_scope.

(** ** Numbers *)

Definition Rltb (x y : R) : bool := if Rlt_dec x y then true else false.
Definition Rleb (x y : R) : bool := if Rle_dec x y then true else false.
Definition Rgtb (x y : R) : bool := Rltb y x.
Definition Rgeb (x y : R) : bool := Rleb y x.

(** Python's [int(x)] on a float: truncation toward zero. *)
Definition py_int (x : R) : Z := if Rle_dec 0 x then Zfloor x else Zceil x.

(** [np.clip(x, lo, hi)] on a scalar. *)
Definition np_clip (x lo hi : R) : R := Rmin (Rmax x lo) hi.

Fixpoint Rsum (l : list R) : R :=
  match l with
  | [] => 0
  | x :: t => x + Rsum t
  end.

(** [a.mean()] of a one-dimensional array. *)
Definition np_mean (l : list R) : R := Rsum l / INR (List.length l).

(** Element-wise product of two arrays of one shape. *)
Definition np_mul (a b : list R) : list R :=
  map (fun xy => fst xy * snd xy) (combine a b).

(** ** Vectors *)

Record vec3 := V3 { vx : R; vy : R; vz : R }.

Definition vsub (a b : vec3) : vec3 :=
  V3 (vx a - vx b) (vy a - vy b) (vz a - vz b).

Definition vec3_list (v : vec3) : list R := [vx v; vy v; vz v].

(** Modelled from the spec: [l2_distance] of gibson2/utils/utils.py, which is
    not among the sources; the spec describes the potential as the scalar
    distance between the position of interest and the goal, that is the
    Euclidean norm of the difference. *)
Definition l2_distance (a b : vec3) : R :=
  sqrt ((vx a - vx b) * (vx a - vx b) + (vy a - vy b) * (vy a - vy b)
        + (vz a - vz b) * (vz a - vz b)).

(** ** Python values met in the contact list *)

(** One entry of [p.getContactPoints]: the fields the code indexes,
    [elem[0]] to [elem[4]]. *)
Record ContactPoint := Contact {
  contactFlag : Z;
  bodyUniqueIdA : Z;
  bodyUniqueIdB : Z;
  linkIndexA : Z;
  linkIndexB : Z
}.

Definition contact_eqb (c d : ContactPoint) : bool :=
  (contactFlag c =? contactFlag d)%Z && (bodyUniqueIdA c =? bodyUniqueIdA d)%Z
  && (bodyUniqueIdB c =? bodyUniqueIdB d)%Z && (linkIndexA c =? linkIndexA d)%Z
  && (linkIndexB c =? linkIndexB d)%Z.

Inductive pyval :=
| PyInt (z : Z)
| PyTuple (c : ContactPoint).

(** Python's [==] between an integer and a tuple is [False]. *)
Definition py_eq (a b : pyval) : bool :=
  match a, b with
  | PyInt x, PyInt y => (x =? y)%Z
  | PyTuple c, PyTuple d => contact_eqb c d
  | _, _ => false
  end.

(** Python's [x in l] on a list. *)
Definition py_in (x : pyval) (l : list pyval) : bool := existsb (py_eq x) l.

(** ** Dictionaries kept in insertion order *)

Fixpoint dict_get {V : Type} (k : string) (d : list (string * V)) : option V :=
  match d with
  | [] => None
  | (k', v) :: t => if String.eqb k k' then Some v else dict_get k t
  end.

Fixpoint dict_set {V : Type} (k : string) (v : V) (d : list (string * V))
  : list (string * V) :=
  match d with
  | [] => [(k, v)]
  | (k', v') :: t =>
      if String.eqb k k' then (k, v) :: t else (k', v') :: dict_set k v t
  end.

(** ['key' in self.output]. *)
Definition str_in (k : string) (l : list string) : bool :=
  existsb (String.eqb k) l.

(** ** The physics world, as far as the environment reads and writes it *)

Record World := {
  robot_position : vec3;                (* robots[0].get_position() *)
  robot_rpy : R * R * R;                (* robots[0].get_rpy() *)
  end_effector_position : vec3;         (* robots[0].get_end_effector_position() *)
  robot_calc_state : list R;            (* robots[0].calc_state() *)
  joint_speeds : list R;
  joint_torque : list R;
  robot_parts : list string;            (* keys of robots[0].parts *)
  contact_points : list ContactPoint;   (* p.getContactPoints(bodyA=robot) *)
  door_joint_position : R;              (* p.getJointState(door, 1)[0] *)
  door_joint_velocity : R;
  door_handle_position : vec3;          (* p.getLinkState(door, 2)[0] *)
  jr_end_effector_link_position : vec3; (* p.getLinkState(robot, 34)[0] *)
  constraints : list nat;               (* constraints alive in the engine *)
  next_constraint_id : nat;
  random_draws : nat                    (* draws taken from the generators *)
}.

(** [p.resetJointState(door, axis, targetValue, targetVelocity)]. *)
Definition resetJointState (value velocity : R) (w : World) : World :=
  {| robot_position := robot_position w; robot_rpy := robot_rpy w;
     end_effector_position := end_effector_position w;
     robot_calc_state := robot_calc_state w;
     joint_speeds := joint_speeds w; joint_torque := joint_torque w;
     robot_parts := robot_parts w; contact_points := contact_points w;
     door_joint_position := value; door_joint_velocity := velocity;
     door_handle_position := door_handle_position w;
     jr_end_effector_link_position := jr_end_effector_link_position w;
     constraints := constraints w;
     next_constraint_id := next_constraint_id w;
     random_draws := random_draws w |}.

Definition with_constraints (cs : list nat) (next : nat) (w : World) : World :=
  {| robot_position := robot_position w; robot_rpy := robot_rpy w;
     end_effector_position := end_effector_position w;
     robot_calc_state := robot_calc_state w;
     joint_speeds := joint_speeds w; joint_torque := joint_torque w;
     robot_parts := robot_parts w; contact_points := contact_points w;
     door_joint_position := door_joint_position w;
     door_joint_velocity := door_joint_velocity w;
     door_handle_position := door_handle_position w;
     jr_end_effector_link_position := jr_end_effector_link_position w;
     constraints := cs; next_constraint_id := next;
     random_draws := random_draws w |}.

(** One more draw taken from a random generator. *)
Definition consume_draw (w : World) : World :=
  {| robot_position := robot_position w; robot_rpy := robot_rpy w;
     end_effector_position := end_effector_position w;
     robot_calc_state := robot_calc_state w;
     joint_speeds := joint_speeds w; joint_torque := joint_torque w;
     robot_parts := robot_parts w; contact_points := contact_points w;
     door_joint_position := door_joint_position w;
     door_joint_velocity := door_joint_velocity w;
     door_handle_position := door_handle_position w;
     jr_end_effector_link_position := jr_end_effector_link_position w;
     constraints := constraints w;
     next_constraint_id := next_constraint_id w;
     random_draws := S (random_draws w) |}.

(** [p.createConstraint(...)] followed by [p.changeConstraint]: a fresh
    handle. *)
Definition createConstraint (w : World) : nat * World :=
  (next_constraint_id w,
   with_constraints (next_constraint_id w :: constraints w)
                    (S (next_constraint_id w)) w).

(** [p.removeConstraint(cid)]. *)
Definition removeConstraint (c : nat) (w : World) : World :=
  with_constraints (filter (fun x => negb (Nat.eqb x c)) (constraints w))
                   (next_constraint_id w) w.

(** ** Configuration, attributes and episode state *)

(** The configuration dictionary: one optional entry per key the environment
    looks up. *)
Record Config := {
  cfg_initial_pos : option vec3;
  cfg_initial_orn : option (R * R * R);
  cfg_target_pos : option vec3;
  cfg_target_orn : option (R * R * R);
  cfg_additional_states_dim : option Z;
  cfg_auxiliary_sensor_dim : option Z;
  cfg_normalize_observation : option bool;
  cfg_observation_normalizer : option (list (string * (list R * list R)));
  cfg_dist_tol : option R;
  cfg_max_step : option R;
  cfg_success_reward : option R;
  cfg_slack_reward : option R;
  cfg_potential_reward_weight : option R;
  cfg_electricity_reward_weight : option R;
  cfg_stall_torque_reward_weight : option R;
  cfg_collision_reward_weight : option R;
  cfg_collision_links : option (list Z);
  cfg_discount_factor : option R;
  cfg_output : option (list string);
  cfg_resolution : option Z;
  cfg_visual_object_at_initial_target_pos : option bool;
  cfg_task : option string;
  cfg_door_angle : option R
}.

(** [config.get(key, default)]. *)
Definition config_get {A : Type} (entry : option A) (default : A) : A :=
  match entry with
  | Some v => v
  | None => default
  end.

(** A step bound: a number, or [float('inf')]. *)
Inductive bound :=
| Fin (r : R)
| Inf.

Inductive EnvKind :=
| NavigateEnv
| NavigateRandomEnv
| InteractiveNavigateEnv.

(** Attributes set by the constructors. *)
Record Ctor := {
  automatic_reset : bool;
  action_timestep : R;
  physics_timestep : R;
  simulator_loop : nat;
  random_height : bool;
  door_body_id : Z;                     (* self.door.body_id *)
  door_angle : R
}.

(** Attributes set by [load]. *)
Record Settings := {
  initial_orn : R * R * R;
  target_orn : R * R * R;
  additional_states_dim : Z;
  auxiliary_sensor_dim : Z;
  normalize_observation : bool;
  observation_normalizer : list (string * (list R * list R));
  dist_tol : R;
  max_step : bound;
  success_reward : R;
  slack_reward : R;
  potential_reward_weight : R;
  electricity_reward_weight : R;
  stall_torque_reward_weight : R;
  collision_reward_weight : R;
  self_collision_links : list Z;        (* self.collision_links *)
  discount_factor : R;
  output : list string;
  sensor_dim : Z;
  observation_space : list (string * list Z);
  visual_object_at_initial_target_pos : bool
}.

(** Attributes that change while episodes run. *)
Record Episode := {
  initial_pos : vec3;
  target_pos : vec3;
  initial_potential : R;
  normalized_potential : R;
  current_step : nat;
  current_episode : nat;
  stage : nat;
  prev_stage : nat;
  cid : option nat
}.

Record Env := {
  kind : EnvKind;
  config : Config;
  ctor : Ctor;
  settings : Settings;
  episode : Episode;
  world : World;
  stdout : list string                  (* what [print] wrote, oldest first *)
}.

Definition stage_get_to_door_handle : nat := 0.
Definition stage_open_door : nat := 1.
Definition stage_get_to_target_pos : nat := 2.

(** ** Outcomes and the environment monad *)

Inductive exn :=
| TypeError
| AssertionError
| KeyError (key : string)
| NameError
| UnboundLocalError
| ValueError
| IndexError
| ZeroDivisionError.

(** What a call produces: a value, an exception, or nothing within the
    iterations granted to its [while] loops. *)
Inductive outcome (A : Type) :=
| Return (a : A)
| Raise (x : exn)
| Unfinished.

Arguments Return {A} a.
Arguments Raise {A} x.
Arguments Unfinished {A}.

Definition M (A : Type) : Type := Env -> outcome A * Env.

Definition ret {A : Type} (a : A) : M A := fun e => (Return a, e).

Definition raise {A : Type} (x : exn) : M A := fun e => (Raise x, e).

Definition bind {A B : Type} (m : M A) (f : A -> M B) : M B :=
  fun e =>
    match m e with
    | (Return a, e') => f a e'
    | (Raise x, e') => (Raise x, e')
    | (Unfinished, e') => (Unfinished, e')
    end.

Declare Scope env_scope.
Delimit Scope env_scope with env.
Notation "x <- m ;; k" := (bind m (fun x => k))
  (at level 61, m at next level, right associativity) : env_scope.
Notation "m ;; k" := (bind m (fun _ => k))
  (at level 61, right associativity) : env_scope.
Local Open Scope env_scope.

Definition get : M Env := fun e => (Return e, e).

Definition modify (f : Env -> Env) : M unit := fun e => (Return tt, f e).

(** [assert b]. *)
Definition assert_ (b : bool) : M unit :=
  if b then ret tt else raise AssertionError.

(** [self.config[key]]. *)
Definition config_item {A : Type} (entry : Config -> option A) (key : string)
  : M A :=
  fun e =>
    match entry (config e) with
    | Some v => (Return v, e)
    | None => (Raise (KeyError key), e)
    end.

Definition lift_option {A : Type} (x : exn) (o : option A) : M A :=
  match o with
  | Some a => ret a
  | None => raise x
  end.

(** Attribute updates. *)
Definition set_episode (ep : Episode) (e : Env) : Env :=
  {| kind := kind e; config := config e; ctor := ctor e;
     settings := settings e; episode := ep; world := world e;
     stdout := stdout e |}.

Definition set_world (w : World) (e : Env) : Env :=
  {| kind := kind e; config := config e; ctor := ctor e;
     settings := settings e; episode := episode e; world := w;
     stdout := stdout e |}.

Definition set_settings (s : Settings) (e : Env) : Env :=
  {| kind := kind e; config := config e; ctor := ctor e;
     settings := s; episode := episode e; world := world e;
     stdout := stdout e |}.

Definition print (line : string) : M unit :=
  modify (fun e =>
    {| kind := kind e; config := config e; ctor := ctor e;
       settings := settings e; episode := episode e; world := world e;
       stdout := stdout e ++ [line] |}).

Definition with_initial_pos (x : vec3) (ep : Episode) : Episode :=
  {| initial_pos := x; target_pos := target_pos ep;
     initial_potential := initial_potential ep;
     normalized_potential := normalized_potential ep;
     current_step := current_step ep; current_episode := current_episode ep;
     stage := stage ep; prev_stage := prev_stage ep; cid := cid ep |}.

Definition with_target_pos (x : vec3) (ep : Episode) : Episode :=
  {| initial_pos := initial_pos ep; target_pos := x;
     initial_potential := initial_potential ep;
     normalized_potential := normalized_potential ep;
     current_step := current_step ep; current_episode := current_episode ep;
     stage := stage ep; prev_stage := prev_stage ep; cid := cid ep |}.

Definition with_initial_potential (x : R) (ep : Episode) : Episode :=
  {| initial_pos := initial_pos ep; target_pos := target_pos ep;
     initial_potential := x;
     normalized_potential := normalized_potential ep;
     current_step := current_step ep; current_episode := current_episode ep;
     stage := stage ep; prev_stage := prev_stage ep; cid := cid ep |}.

Definition with_normalized_potential (x : R) (ep : Episode) : Episode :=
  {| initial_pos := initial_pos ep; target_pos := target_pos ep;
     initial_potential := initial_potential ep;
     normalized_potential := x;
     current_step := current_step ep; current_episode := current_episode ep;
     stage := stage ep; prev_stage := prev_stage ep; cid := cid ep |}.

Definition with_current_step (n : nat) (ep : Episode) : Episode :=
  {| initial_pos := initial_pos ep; target_pos := target_pos ep;
     initial_potential := initial_potential ep;
     normalized_potential := normalized_potential ep;
     current_step := n; current_episode := current_episode ep;
     stage := stage ep; prev_stage := prev_stage ep; cid := cid ep |}.

Definition with_current_episode (n : nat) (ep : Episode) : Episode :=
  {| initial_pos := initial_pos ep; target_pos := target_pos ep;
     initial_potential := initial_potential ep;
     normalized_potential := normalized_potential ep;
     current_step := current_step ep; current_episode := n;
     stage := stage ep; prev_stage := prev_stage ep; cid := cid ep |}.

Definition with_stage (s : nat) (ep : Episode) : Episode :=
  {| initial_pos := initial_pos ep; target_pos := target_pos ep;
     initial_potential := initial_potential ep;
     normalized_potential := normalized_potential ep;
     current_step := current_step ep; current_episode := current_episode ep;
     stage := s; prev_stage := prev_stage ep; cid := cid ep |}.

Definition with_prev_stage (s : nat) (ep : Episode) : Episode :=
  {| initial_pos := initial_pos ep; target_pos := target_pos ep;
     initial_potential := initial_potential ep;
     normalized_potential := normalized_potential ep;
     current_step := current_step ep; current_episode := current_episode ep;
     stage := stage ep; prev_stage := s; cid := cid ep |}.

Definition with_cid (c : option nat) (ep : Episode) : Episode :=
  {| initial_pos := initial_pos ep; target_pos := target_pos ep;
     initial_potential := initial_potential ep;
     normalized_potential := normalized_potential ep;
     current_step := current_step ep; current_episode := current_episode ep;
     stage := stage ep; prev_stage := prev_stage ep; cid := c |}.

Definition update_episode (f : Episode -> Episode) : M unit :=
  modify (fun e => set_episode (f (episode e)) e).

Definition update_world (f : World -> World) : M unit :=
  modify (fun e => set_world (f (world e)) e).

(** ** Collaborators outside this file

    The physics engine, the robot, the scene, the renderer and the helpers of
    gibson2.utils are used through these operations only. *)

Class Collaborators := {
  simulator_step : World -> World;
  apply_action : list R -> World -> World;
  robot_specific_reset : World -> World;
  set_position : vec3 -> World -> World;
  (* [set_orientation(orn=quatToXYZW(euler2quat(r, p, y), 'wxyz'))] *)
  set_orientation : R * R * R -> World -> World;
  (* [np.random.uniform(lo, hi)]: the value of the next draw *)
  random_uniform : R -> R -> World -> R;
  (* [scene.get_random_point()]: the floor and the point of the next draw *)
  get_random_point : World -> Z * vec3;
  get_random_point_floor : Z -> bool -> World -> vec3;
  rotate_vector_3d : vec3 -> R -> R -> R -> vec3;
  (* [simulator.renderer.render_robot_cameras(modes)], sliced as the caller
     slices it and flattened *)
  render_robot_cameras : string -> World -> list R;
  (* the image completion network *)
  completion_net : list R -> list R;
  (* [BaseEnv.load]: scene and robot brought into the simulator *)
  base_env_load : Config -> World -> outcome World
}.

(** ** Observations and episode metadata *)

Inductive payload :=
| PArr (a : list R)
| PBool (b : bool).

Definition observation := list (string * payload).

Inductive infoval :=
| IBool (b : bool)
| IInt (n : nat)
| IObs (s : observation).

Definition info := list (string * infoval).

(** [l[a:b]] and [dst[a:b] = src]. *)
Definition slice {A : Type} (a b : nat) (l : list A) : list A :=
  firstn (b - a) (skipn a l).

Definition assign_slice {A : Type} (a b : nat) (src dst : list A) : list A :=
  firstn a dst ++ src ++ skipn b dst.

(** ** wrap_to_pi *)

(** The arithmetic [wrap_to_pi] applies to one entry:
    [x - np.pi * 2 * np.floor((x + np.pi) / (np.pi * 2))]. *)
Definition wrap_angle (x : R) : R :=
  x - PI * 2 * IZR (Zfloor ((x + PI) / (PI * 2))).

(** [states[indices] = ...; return states]: the entries at [indices] are
    replaced, each computed from the old array; an index past the end is an
    [IndexError] ([None]). *)
Definition wrap_to_pi (states : list R) (indices : list nat)
  : option (list R) :=
  if forallb (fun i => (i <? List.length states)%nat) indices
  then Some (map (fun ix => if existsb (Nat.eqb (fst ix)) indices
                            then wrap_angle (snd ix) else snd ix)
                 (combine (seq 0 (List.length states)) states))
  else None.

(** Two arrays under numpy's broadcasting, one dimension: equal lengths, or
    one of them a single element. *)
Definition broadcast2 (f : R -> R -> R) (a b : list R) : option (list R) :=
  if (List.length a =? List.length b)%nat
  then Some (map (fun xy => f (fst xy) (snd xy)) (combine a b))
  else match a, b with
       | [x], _ => Some (map (f x) b)
       | _, [y] => Some (map (fun x => f x y) a)
       | _, _ => None
       end.

Definition option_bind {A B : Type} (o : option A) (f : A -> option B)
  : option B :=
  match o with
  | Some a => f a
  | None => None
  end.

(** [(np.clip(v, obs_min, obs_max) - obs_avg) / obs_mag]. *)
Definition normalize_array (v obs_min obs_max : list R) : option (list R) :=
  option_bind (broadcast2 (fun x y => (x + y) / 2) obs_max obs_min) (fun obs_avg =>
  option_bind (broadcast2 (fun x y => (x - y) / 2) obs_max obs_min) (fun obs_mag =>
  option_bind (broadcast2 Rmax v obs_min) (fun lo =>
  option_bind (broadcast2 Rmin lo obs_max) (fun clipped =>
  option_bind (broadcast2 Rminus clipped obs_avg) (fun centred =>
  broadcast2 Rdiv centred obs_mag))))).

Definition payload_array (v : payload) : list R :=
  match v with
  | PArr a => a
  | PBool true => [1]
  | PBool false => [0]
  end.

Section Environment.

Context {C : Collaborators}.

(** ** NavigateEnv *)

Definition NavigateEnv_get_additional_states : M (list R) :=
  e <- get ;;
  let relative_position :=
    vsub (target_pos (episode e)) (robot_position (world e)) in
  let '(r, p, y) := robot_rpy (world e) in
  let additional_states :=
    vec3_list (rotate_vector_3d relative_position r p y) in
  task <- config_item cfg_task "task" ;;
  let additional_states :=
    if String.eqb task "reaching"
    then
      let end_effector_pos :=
        vsub (end_effector_position (world e)) (robot_position (world e)) in
      let end_effector_pos := rotate_vector_3d end_effector_pos r p y in
      additional_states ++ vec3_list end_effector_pos
    else additional_states in
  assert_ (Z.of_nat (List.length additional_states)
           =? additional_states_dim (settings e))%Z ;;
  ret additional_states.

(** [raise np.array([])]: an array is not an exception, so the statement
    raises [TypeError]. *)
Definition NavigateEnv_get_auxiliary_sensor : M (list R) :=
  raise TypeError.

(** ** InteractiveNavigateEnv: the state vector and the auxiliary sensor *)

Definition InteractiveNavigateEnv_get_additional_states : M (list R) :=
  e <- get ;;
  let w := world e in
  let robot_position2 := firstn 2 (vec3_list (robot_position w)) in
  let end_effector_pos := vsub (end_effector_position w) (robot_position w) in
  let '(r, p, yaw) := robot_rpy w in
  let end_effector_pos := rotate_vector_3d end_effector_pos r p yaw in
  let door_angle := door_joint_position w in
  let additional_states :=
    robot_position2 ++ vec3_list end_effector_pos ++ [yaw; door_angle] in
  additional_states <-
    lift_option IndexError (wrap_to_pi additional_states [5; 6]%nat) ;;
  assert_ (Z.of_nat (List.length additional_states)
           =? additional_states_dim (settings e))%Z ;;
  ret additional_states.

Definition InteractiveNavigateEnv_get_auxiliary_sensor : M (list R) :=
  e <- get ;;
  let w := world e in
  (if (auxiliary_sensor_dim (settings e) <? 0)%Z
   then raise ValueError else ret tt) ;;
  let auxiliary_sensor :=
    repeat 0 (Z.to_nat (auxiliary_sensor_dim (settings e))) in
  let robot_state := robot_calc_state w in
  assert_ (auxiliary_sensor_dim (settings e) =? 42)%Z ;;
  assert_ (List.length robot_state =? 46)%nat ;;
  let auxiliary_sensor :=
    assign_slice 0 6 (slice 0 6 robot_state) auxiliary_sensor in
  let auxiliary_sensor :=
    assign_slice 6 12 (slice 7 13 robot_state) auxiliary_sensor in
  let auxiliary_sensor :=
    assign_slice 12 27 (slice 19 34 robot_state) auxiliary_sensor in
  let auxiliary_sensor :=
    assign_slice 27 30 (slice 43 46 robot_state) auxiliary_sensor in
  let '(r, p, yaw) := robot_rpy w in
  let cos_yaw := cos yaw in
  let sin_yaw := sin yaw in
  let has_door_handle_in_hand :=
    if (stage (episode e) =? stage_open_door)%nat then 1 else -1 in
  let door_pos := V3 0 0 (-0.02) in
  let target_pos := target_pos (episode e) in
  let robot_pos := robot_position w in
  let door_pos_local := rotate_vector_3d (vsub door_pos robot_pos) r p yaw in
  let target_pos_local :=
    rotate_vector_3d (vsub target_pos robot_pos) r p yaw in
  let auxiliary_sensor :=
    assign_slice 30 33 [cos_yaw; sin_yaw; has_door_handle_in_hand]
                 auxiliary_sensor in
  let auxiliary_sensor :=
    assign_slice 33 36 (vec3_list target_pos) auxiliary_sensor in
  let auxiliary_sensor :=
    assign_slice 36 39 (vec3_list door_pos_local) auxiliary_sensor in
  let auxiliary_sensor :=
    assign_slice 39 42 (vec3_list target_pos_local) auxiliary_sensor in
  lift_option IndexError
    (wrap_to_pi auxiliary_sensor [12; 15; 18; 21; 24]%nat).

(** Method lookup on [self]. *)
Definition get_additional_states : M (list R) :=
  fun e =>
    match kind e with
    | InteractiveNavigateEnv => InteractiveNavigateEnv_get_additional_states e
    | _ => NavigateEnv_get_additional_states e
    end.

Definition get_auxiliary_sensor : M (list R) :=
  fun e =>
    match kind e with
    | InteractiveNavigateEnv => InteractiveNavigateEnv_get_auxiliary_sensor e
    | _ => NavigateEnv_get_auxiliary_sensor e
    end.

(** [if key in self.output: state[key] = value]. *)
Definition channel (key : string) (value : M payload) (state : observation)
  : M observation :=
  e <- get ;;
  if str_in key (output (settings e))
  then v <- value ;; ret (dict_set key v state)
  else ret state.

Definition NavigateEnv_get_state (collision_links : list pyval)
  : M observation :=
  sensor_state <- get_additional_states ;;
  auxiliary_sensor <- get_auxiliary_sensor ;;
  e <- get ;;
  let w := world e in
  let state : observation := [] in
  state <- channel "sensor" (ret (PArr sensor_state)) state ;;
  state <- channel "auxiliary_sensor" (ret (PArr auxiliary_sensor)) state ;;
  state <- channel "pointgoal" (ret (PArr (firstn 2 sensor_state))) state ;;
  state <- channel "rgb" (ret (PArr (render_robot_cameras "rgb" w))) state ;;
  state <- channel "depth"
             (ret (PArr (map Ropp (render_robot_cameras "3d" w)))) state ;;
  state <- channel "normal"
             (ret (PArr (render_robot_cameras "normal" w))) state ;;
  state <- channel "seg" (ret (PArr (render_robot_cameras "seg" w))) state ;;
  state <- channel "rgb_filled"
             (rgb <- lift_option (KeyError "rgb") (dict_get "rgb" state) ;;
              ret (PArr (completion_net
                           (map (fun x => x * 255) (payload_array rgb)))))
             state ;;
  state <- channel "bump"
             (ret (PBool (py_in (PyInt (-1)) collision_links))) state ;;
  state <- channel "pointgoal" (ret (PArr (firstn 2 sensor_state))) state ;;
  (* the body of the scan branch calls an undefined global name *)
  state <- channel "scan"
             (assert_ (str_in "scan_link" (robot_parts w)) ;; raise NameError)
             state ;;
  ret state.

(** The loop [for key in state] of the normalisation. *)
Fixpoint normalize_channels
  (normalizer : list (string * (list R * list R)))
  (keys : list string) (state : observation) : M observation :=
  match keys with
  | [] => ret state
  | key :: rest =>
      bounds <- lift_option (KeyError key) (dict_get key normalizer) ;;
      value <- lift_option (KeyError key) (dict_get key state) ;;
      scaled <- lift_option ValueError
                  (normalize_array (payload_array value)
                                   (fst bounds) (snd bounds)) ;;
      normalize_channels normalizer rest (dict_set key (PArr scaled) state)
  end.

(** The override passes no contacts on: [super().get_state()]. *)
Definition InteractiveNavigateEnv_get_state (collision_links : list pyval)
  : M observation :=
  state <- NavigateEnv_get_state [] ;;
  e <- get ;;
  if normalize_observation (settings e)
  then normalize_channels (observation_normalizer (settings e))
                          (map fst state) state
  else ret state.

Definition get_state (collision_links : list pyval) : M observation :=
  fun e =>
    match kind e with
    | InteractiveNavigateEnv => InteractiveNavigateEnv_get_state collision_links e
    | _ => NavigateEnv_get_state collision_links e
    end.

(** [run_simulation]: the contact tuples of every sub-tick, in order. *)
Fixpoint simulation_ticks (n : nat) (collision_links : list ContactPoint)
  (w : World) : list ContactPoint * World :=
  match n with
  | O => (collision_links, w)
  | S n' =>
      let w' := simulator_step w in
      simulation_ticks n' (collision_links ++ contact_points w') w'
  end.

Definition run_simulation : M (list ContactPoint) :=
  e <- get ;;
  let '(collision_links, w) :=
    simulation_ticks (simulator_loop (ctor e)) [] (world e) in
  modify (set_world w) ;;
  ret collision_links.

(** [get_position_of_interest]: falls off the end, returning [None], for any
    other task. *)
Definition get_position_of_interest : M (option vec3) :=
  task <- config_item cfg_task "task" ;;
  e <- get ;;
  if String.eqb task "pointgoal"
  then ret (Some (robot_position (world e)))
  else if String.eqb task "reaching"
       then ret (Some (end_effector_position (world e)))
       else ret None.

(** [l2_distance(a, b)] where [b] may be [None]. *)
Definition py_l2_distance (a : vec3) (b : option vec3) : M R :=
  match b with
  | Some v => ret (l2_distance a v)
  | None => raise TypeError
  end.

Definition NavigateEnv_get_potential : M R :=
  e <- get ;;
  poi <- get_position_of_interest ;;
  py_l2_distance (target_pos (episode e)) poi.

Definition InteractiveNavigateEnv_get_potential : M R :=
  e <- get ;;
  let door_angle := door_joint_position (world e) in
  let door_handle_pos := door_handle_position (world e) in
  if (stage (episode e) =? stage_get_to_door_handle)%nat
  then ret (l2_distance door_handle_pos (end_effector_position (world e)))
  else if (stage (episode e) =? stage_open_door)%nat
       then ret (Rabs (door_angle + PI))
       else if (stage (episode e) =? stage_get_to_target_pos)%nat
            then ret (l2_distance (target_pos (episode e))
                                  (robot_position (world e)))
            else raise UnboundLocalError.

Definition get_potential : M R :=
  fun e =>
    match kind e with
    | InteractiveNavigateEnv => InteractiveNavigateEnv_get_potential e
    | _ => NavigateEnv_get_potential e
    end.

(** [float(len(collision_link_ids & self.collision_links) != 0)]. *)
Definition collision_indicator (collision_link_ids penalized : list Z) : R :=
  if existsb (fun i => existsb (Z.eqb i) penalized) collision_link_ids
  then 1 else 0.

Definition NavigateEnv_get_reward (collision_links : list ContactPoint)
  : M R :=
  e <- get ;;
  let s := settings e in
  let reward := slack_reward s in
  potential <- get_potential ;;
  let new_normalized_potential := potential / initial_potential (episode e) in
  let potential_reward :=
    normalized_potential (episode e) - new_normalized_potential in
  let reward := reward + potential_reward * potential_reward_weight s in
  update_episode (with_normalized_potential new_normalized_potential) ;;
  let electricity_reward := 0 in
  let reward := reward + electricity_reward * electricity_reward_weight s in
  let stall_torque_reward := 0 in
  let reward := reward + stall_torque_reward * stall_torque_reward_weight s in
  let collision_link_ids := map linkIndexA collision_links in
  let collision_reward :=
    collision_indicator collision_link_ids (self_collision_links s) in
  let reward := reward + collision_reward * collision_reward_weight s in
  poi <- get_position_of_interest ;;
  dist <- py_l2_distance (target_pos (episode e)) poi ;;
  let reward :=
    if Rltb dist (dist_tol s) then reward + success_reward s else reward in
  ret reward.

Definition door_handle_link_id : Z := 2%Z.

Definition InteractiveNavigateEnv_get_reward
  (collision_links : list ContactPoint) : M R :=
  e <- get ;;
  let s := settings e in
  let w := world e in
  let reward := 0 in
  reward <-
    (if negb (stage (episode e) =? prev_stage (episode e))%nat
     then
       potential <- get_potential ;;
       update_episode (with_initial_potential potential) ;;
       update_episode (with_normalized_potential 1) ;;
       ret (reward + success_reward s / 2)
     else
       potential <- get_potential ;;
       let new_normalized_potential :=
         potential / initial_potential (episode e) in
       let potential_reward :=
         normalized_potential (episode e) - new_normalized_potential in
       let reward := reward + potential_reward * potential_reward_weight s in
       update_episode (with_normalized_potential new_normalized_potential) ;;
       ret reward) ;;
  let electricity_reward :=
    np_mean (map Rabs (np_mul (joint_speeds w) (joint_torque w))) in
  let reward :=
    reward + np_clip (electricity_reward * electricity_reward_weight s)
                     (-0.005) 0 in
  let stall_torque_reward :=
    np_mean (map (fun x => x * x) (joint_torque w)) in
  let reward :=
    reward + np_clip (stall_torque_reward * stall_torque_reward_weight s)
                     (-0.005) 0 in
  let collision_link_ids :=
    map linkIndexA
        (filter (fun elem => negb ((bodyUniqueIdB elem =? door_body_id (ctor e))%Z
                                   && (linkIndexB elem =? door_handle_link_id)%Z))
                collision_links) in
  let collision_reward :=
    collision_indicator collision_link_ids (self_collision_links s) in
  let reward := reward + collision_reward * collision_reward_weight s in
  poi <- get_position_of_interest ;;
  dist <- py_l2_distance (target_pos (episode e)) poi ;;
  let reward :=
    if Rltb dist (dist_tol s) then reward + success_reward s else reward in
  let reward :=
    if Rgtb (vz (robot_position w)) 0.1
    then reward - success_reward s else reward in
  ret reward.

Definition get_reward (collision_links : list ContactPoint) : M R :=
  fun e =>
    match kind e with
    | InteractiveNavigateEnv => InteractiveNavigateEnv_get_reward collision_links e
    | _ => NavigateEnv_get_reward collision_links e
    end.

(** [self.current_step >= self.max_step]. *)
Definition reached (n : nat) (b : bound) : bool :=
  match b with
  | Fin r => Rgeb (INR n) r
  | Inf => false
  end.

Definition get_termination : M (bool * info) :=
  update_episode (fun ep => with_current_step (S (current_step ep)) ep) ;;
  e <- get ;;
  let episode_length : info -> info :=
    dict_set "episode_length" (IInt (current_step (episode e))) in
  poi <- get_position_of_interest ;;
  dist <- py_l2_distance (target_pos (episode e)) poi ;;
  if Rltb dist (dist_tol (settings e))
  then ret (true, episode_length (dict_set "success" (IBool true) []))
  else if Rgtb (vz (robot_position (world e))) 0.1
       then print "death" ;;
            ret (true, episode_length (dict_set "success" (IBool false) []))
       else if reached (current_step (episode e)) (max_step (settings e))
            then ret (true,
                      episode_length (dict_set "success" (IBool false) []))
            else ret (false, []).

(** ** Placement of the robot and the target *)

(** The burst of sub-ticks of a placement loop, collecting [item[3]] of every
    contact. *)
Fixpoint placement_ticks (n : nat) (collision_links : list Z) (w : World)
  : list Z * World :=
  match n with
  | O => (collision_links, w)
  | S n' =>
      let w' := simulator_step w in
      placement_ticks n'
        (collision_links ++ map linkIndexA (contact_points w')) w'
  end.

Definition out_of_iterations {A : Type} : M A := fun e => (Unfinished, e).

Definition NavigateEnv_reset_initial_and_target_pos : M unit :=
  e <- get ;;
  update_world (set_position (initial_pos (episode e))) ;;
  update_world (set_orientation (initial_orn (settings e))).

(** [while -1 in collision_links] of [NavigateRandomEnv]; the body runs at
    least once, and [fuel] bounds the number of rounds. *)
Fixpoint NavigateRandomEnv_place_start (fuel : nat) : M Z :=
  match fuel with
  | O => out_of_iterations
  | S fuel' =>
      e <- get ;;
      let '(floor, pos) := get_random_point (world e) in
      update_world consume_draw ;;
      update_world (set_position (V3 (vx pos) (vy pos) (vz pos + 0.1))) ;;
      e <- get ;;
      let yaw := random_uniform 0 (PI * 2) (world e) in
      update_world consume_draw ;;
      update_world (set_orientation (0, 0, yaw)) ;;
      e <- get ;;
      let '(collision_links, w) :=
        placement_ticks (simulator_loop (ctor e)) [] (world e) in
      modify (set_world w) ;;
      update_episode (with_initial_pos pos) ;;
      if py_in (PyInt (-1)) (map PyInt collision_links)
      then NavigateRandomEnv_place_start fuel'
      else ret floor
  end.

(** [while dist < 1.0]. *)
Fixpoint NavigateRandomEnv_place_target (fuel : nat) (floor : Z) : M unit :=
  match fuel with
  | O => out_of_iterations
  | S fuel' =>
      e <- get ;;
      let target :=
        get_random_point_floor floor (random_height (ctor e)) (world e) in
      update_world consume_draw ;;
      update_episode (with_target_pos target) ;;
      let dist := l2_distance (initial_pos (episode e)) target in
      if Rltb dist 1
      then NavigateRandomEnv_place_target fuel' floor
      else ret tt
  end.

Definition NavigateRandomEnv_reset_initial_and_target_pos (fuel : nat)
  : M unit :=
  floor <- NavigateRandomEnv_place_start fuel ;;
  NavigateRandomEnv_place_target fuel floor.

Fixpoint InteractiveNavigateEnv_place_start (fuel : nat) : M unit :=
  match fuel with
  | O => out_of_iterations
  | S fuel' =>
      let pos := V3 0 0 0 in
      update_world (set_position (V3 (vx pos) (vy pos) (vz pos + 0.1))) ;;
      e <- get ;;
      let yaw := random_uniform 0 (PI * 2) (world e) in
      update_world consume_draw ;;
      update_world (set_orientation (0, 0, yaw)) ;;
      e <- get ;;
      let '(collision_links, w) :=
        placement_ticks (simulator_loop (ctor e)) [] (world e) in
      modify (set_world w) ;;
      update_episode (with_initial_pos pos) ;;
      if py_in (PyInt (-1)) (map PyInt collision_links)
      then InteractiveNavigateEnv_place_start fuel'
      else ret tt
  end.

Definition InteractiveNavigateEnv_reset_initial_and_target_pos (fuel : nat)
  : M unit :=
  InteractiveNavigateEnv_place_start fuel ;;
  e <- get ;;
  (if Req_dec_T (physics_timestep (ctor e)) 0
   then raise ZeroDivisionError else ret tt) ;;
  update_world
    (Nat.iter (Z.to_nat (py_int (0.5 / physics_timestep (ctor e))))
              simulator_step) ;;
  update_episode (with_target_pos (V3 (-100) (-100) 0)).

Definition reset_initial_and_target_pos (fuel : nat) : M unit :=
  fun e =>
    match kind e with
    | NavigateEnv => NavigateEnv_reset_initial_and_target_pos e
    | NavigateRandomEnv => NavigateRandomEnv_reset_initial_and_target_pos fuel e
    | InteractiveNavigateEnv =>
        InteractiveNavigateEnv_reset_initial_and_target_pos fuel e
    end.

(** ** reset *)

(** The visual markers that [reset] moves are not read back by anything
    here. *)
Definition NavigateEnv_reset (fuel : nat) : M observation :=
  update_world robot_specific_reset ;;
  reset_initial_and_target_pos fuel ;;
  potential <- get_potential ;;
  update_episode (with_initial_potential potential) ;;
  update_episode (with_normalized_potential 1) ;;
  update_episode (with_current_step 0) ;;
  get_state [].

Definition reset_interactive_objects : M unit :=
  update_world (resetJointState 0 0) ;;
  e <- get ;;
  match cid (episode e) with
  | Some c =>
      update_world (removeConstraint c) ;;
      update_episode (with_cid None)
  | None => ret tt
  end.

Definition InteractiveNavigateEnv_reset (fuel : nat) : M observation :=
  reset_interactive_objects ;;
  update_episode (with_stage 0) ;;
  update_episode (fun ep => with_prev_stage (stage ep) ep) ;;
  NavigateEnv_reset fuel.

Definition reset (fuel : nat) : M observation :=
  fun e =>
    match kind e with
    | InteractiveNavigateEnv => InteractiveNavigateEnv_reset fuel e
    | _ => NavigateEnv_reset fuel e
    end.

(** ** step *)

Definition step_result : Type := observation * R * bool * info.

Definition NavigateEnv_step (fuel : nat) (action : list R) : M step_result :=
  update_world (apply_action action) ;;
  collision_links <- run_simulation ;;
  state <- get_state (map PyTuple collision_links) ;;
  reward <- get_reward collision_links ;;
  termination <- get_termination ;;
  let '(done, info) := termination in
  e <- get ;;
  if done && automatic_reset (ctor e)
  then
    let info := dict_set "last_observation" (IObs state) info in
    state <- reset fuel ;;
    ret (state, reward, done, info)
  else ret (state, reward, done, info).

(** The first part of [InteractiveNavigateEnv.step]: the stage is recorded
    as the previous stage, then the two stage tests run one after the other.
    [np.linalg.norm] of a difference is the Euclidean distance. *)
Definition stage_transitions : M unit :=
  e <- get ;;
  let dist :=
    l2_distance (door_handle_position (world e))
                (jr_end_effector_link_position (world e)) in
  update_episode (fun ep => with_prev_stage (stage ep) ep) ;;
  e <- get ;;
  (if (stage (episode e) =? stage_get_to_door_handle)%nat && Rltb dist 0.2
   then
     assert_ (match cid (episode e) with None => true | Some _ => false end) ;;
     let '(c, w) := createConstraint (world e) in
     modify (set_world w) ;;
     update_episode (with_cid (Some c)) ;;
     update_episode (with_stage stage_open_door) ;;
     print "stage open_door"
   else ret tt) ;;
  e <- get ;;
  (if (stage (episode e) =? stage_open_door)%nat
      && Rltb (door_joint_position (world e)) (door_angle (ctor e))
   then
     match cid (episode e) with
     | None => raise AssertionError
     | Some c =>
         update_world (removeConstraint c) ;;
         update_episode (with_cid None) ;;
         update_episode (with_stage stage_get_to_target_pos) ;;
         print "stage get to target pos"
     end
   else ret tt).

(** [InteractiveNavigateEnv.step]: the stage tests, then
    [super().step(action)]. *)
Definition InteractiveNavigateEnv_step (fuel : nat) (action : list R)
  : M step_result :=
  stage_transitions ;;
  NavigateEnv_step fuel action.

Definition step (fuel : nat) (action : list R) : M step_result :=
  fun e =>
    match kind e with
    | InteractiveNavigateEnv => InteractiveNavigateEnv_step fuel action e
    | _ => NavigateEnv_step fuel action e
    end.

(** ** load *)

(** [gym.spaces.Box(..., shape=shape)]: a negative extent is refused. *)
Definition box (shape : list Z) : M (list Z) :=
  if existsb (fun d => (d <? 0)%Z) shape then raise ValueError else ret shape.

Definition space (key : string) (output : list string) (shape : M (list Z))
  (spaces : list (string * list Z)) : M (list (string * list Z)) :=
  if str_in key output
  then sh <- shape ;; ret (dict_set key sh spaces)
  else ret spaces.

(** The attributes [load] assigns before it reads [config['output']]. *)
Definition loaded_before_output (c : Config) (old : Settings) : Settings :=
  {| initial_orn := config_get (cfg_initial_orn c) (0, 0, 0);
     target_orn := config_get (cfg_target_orn c) (0, 0, 0);
     additional_states_dim := config_get (cfg_additional_states_dim c) 0%Z;
     auxiliary_sensor_dim := config_get (cfg_auxiliary_sensor_dim c) 0%Z;
     normalize_observation :=
       config_get (cfg_normalize_observation c) false;
     observation_normalizer := config_get (cfg_observation_normalizer c) [];
     dist_tol := config_get (cfg_dist_tol c) 0.2;
     max_step := config_get (option_map Fin (cfg_max_step c)) Inf;
     success_reward := config_get (cfg_success_reward c) 10;
     slack_reward := config_get (cfg_slack_reward c) (-0.01);
     potential_reward_weight :=
       config_get (cfg_potential_reward_weight c) 10;
     electricity_reward_weight :=
       config_get (cfg_electricity_reward_weight c) 0;
     stall_torque_reward_weight :=
       config_get (cfg_stall_torque_reward_weight c) 0;
     collision_reward_weight :=
       config_get (cfg_collision_reward_weight c) 0;
     self_collision_links := config_get (cfg_collision_links c) [(-1)%Z];
     discount_factor := config_get (cfg_discount_factor c) 1;
     output := output old;
     sensor_dim := sensor_dim old;
     observation_space := observation_space old;
     visual_object_at_initial_target_pos :=
       visual_object_at_initial_target_pos old |}.

Definition loaded_after_output (out : list string)
  (spaces : list (string * list Z)) (visual : bool) (s : Settings)
  : Settings :=
  {| initial_orn := initial_orn s; target_orn := target_orn s;
     additional_states_dim := additional_states_dim s;
     auxiliary_sensor_dim := auxiliary_sensor_dim s;
     normalize_observation := normalize_observation s;
     observation_normalizer := observation_normalizer s;
     dist_tol := dist_tol s; max_step := max_step s;
     success_reward := success_reward s; slack_reward := slack_reward s;
     potential_reward_weight := potential_reward_weight s;
     electricity_reward_weight := electricity_reward_weight s;
     stall_torque_reward_weight := stall_torque_reward_weight s;
     collision_reward_weight := collision_reward_weight s;
     self_collision_links := self_collision_links s;
     discount_factor := discount_factor s;
     output := out;
     sensor_dim := additional_states_dim s;
     observation_space := spaces;
     visual_object_at_initial_target_pos := visual |}.

(** [NavigateEnv.load].  The completion network and the visual markers it
    creates are not read back by anything here. *)
Definition load : M unit :=
  e <- get ;;
  let c := config e in
  w <- (fun e => (base_env_load c (world e), e)) ;;
  modify (set_world w) ;;
  update_episode (with_initial_pos (config_get (cfg_initial_pos c) (V3 0 0 0))) ;;
  update_episode (with_target_pos (config_get (cfg_target_pos c) (V3 5 5 0))) ;;
  modify (fun e => set_settings (loaded_before_output c (settings e)) e) ;;
  out <- config_item cfg_output "output" ;;
  modify (fun e =>
    set_settings
      (loaded_after_output out (observation_space (settings e))
         (visual_object_at_initial_target_pos (settings e)) (settings e)) e) ;;
  e <- get ;;
  let s := settings e in
  let spaces : list (string * list Z) := [] in
  spaces <- space "sensor" out (box [additional_states_dim s]) spaces ;;
  spaces <- space "auxiliary_sensor" out
              (box [auxiliary_sensor_dim s]) spaces ;;
  spaces <- space "pointgoal" out (box [2%Z]) spaces ;;
  spaces <- space "rgb" out
              (res <- config_item cfg_resolution "resolution" ;;
               box [res; res; 3%Z]) spaces ;;
  spaces <- space "depth" out
              (res <- config_item cfg_resolution "resolution" ;;
               box [res; res; 1%Z]) spaces ;;
  modify (set_settings
            (loaded_after_output out spaces
               (visual_object_at_initial_target_pos s) s)) ;;
  update_episode (with_current_episode 0) ;;
  modify (set_settings
            (loaded_after_output out spaces
               (config_get (cfg_visual_object_at_initial_target_pos c) false)
               s)).

End Environment.

(** ** A test double for the collaborators, and sample environments

    Physics that never moves anything: a tick is the identity, poses are set
    as asked, every draw is the lower end of its range or a fixed point, and
    rotations are by the identity matrix. *)

Definition place_at (pos : vec3) (w : World) : World :=
  {| robot_position := pos; robot_rpy := robot_rpy w;
     end_effector_position := end_effector_position w;
     robot_calc_state := robot_calc_state w;
     joint_speeds := joint_speeds w; joint_torque := joint_torque w;
     robot_parts := robot_parts w; contact_points := contact_points w;
     door_joint_position := door_joint_position w;
     door_joint_velocity := door_joint_velocity w;
     door_handle_position := door_handle_position w;
     jr_end_effector_link_position := jr_end_effector_link_position w;
     constraints := constraints w;
     next_constraint_id := next_constraint_id w;
     random_draws := random_draws w |}.

Definition turn_to (rpy : R * R * R) (w : World) : World :=
  {| robot_position := robot_position w; robot_rpy := rpy;
     end_effector_position := end_effector_position w;
     robot_calc_state := robot_calc_state w;
     joint_speeds := joint_speeds w; joint_torque := joint_torque w;
     robot_parts := robot_parts w; contact_points := contact_points w;
     door_joint_position := door_joint_position w;
     door_joint_velocity := door_joint_velocity w;
     door_handle_position := door_handle_position w;
     jr_end_effector_link_position := jr_end_effector_link_position w;
     constraints := constraints w;
     next_constraint_id := next_constraint_id w;
     random_draws := random_draws w |}.

Definition still_world : Collaborators :=
  {| simulator_step := fun w => w;
     apply_action := fun _ w => w;
     robot_specific_reset := fun w => w;
     set_position := place_at;
     set_orientation := turn_to;
     random_uniform := fun lo _ _ => lo;
     get_random_point := fun _ => (0%Z, V3 0 0 0);
     get_random_point_floor := fun _ _ _ => V3 2 0 0;
     rotate_vector_3d := fun v _ _ _ => v;
     render_robot_cameras := fun _ _ => [];
     completion_net := fun img => img;
     base_env_load := fun _ w => Return w |}.

(** ** The reward terms as the specification names them *)

Definition slack_term (e : Env) : R := slack_reward (settings e).

(** [PotentialTracker.update(potential) * weight_potential]. *)
Definition shaping_term (e : Env) (potential : R) : R :=
  (normalized_potential (episode e) - potential / initial_potential (episode e))
  * potential_reward_weight (settings e).

(** Half the success bonus, awarded on a stage transition. *)
Definition milestone_bonus (e : Env) : R := success_reward (settings e) / 2.

(** Energy and stall-torque terms of the base environment, whose readings are
    the constant [0.0]. *)
Definition energy_term (e : Env) : R :=
  0 * electricity_reward_weight (settings e).

Definition stall_torque_term (e : Env) : R :=
  0 * stall_torque_reward_weight (settings e).

(** The same terms in the multi-stage environment: measured, weighted and
    clipped to [[-0.005, 0]]. *)
Definition clipped_energy_term (e : Env) : R :=
  np_clip (np_mean (map Rabs (np_mul (joint_speeds (world e))
                                     (joint_torque (world e))))
           * electricity_reward_weight (settings e)) (-0.005) 0.

Definition clipped_stall_torque_term (e : Env) : R :=
  np_clip (np_mean (map (fun x => x * x) (joint_torque (world e)))
           * stall_torque_reward_weight (settings e)) (-0.005) 0.

Definition collision_term (e : Env) (collision_link_ids : list Z) : R :=
  collision_indicator collision_link_ids (self_collision_links (settings e))
  * collision_reward_weight (settings e).

(** The link ids that count in the multi-stage environment: contacts with the
    door handle are left out. *)
Definition penalized_contacts (e : Env) (collision_links : list ContactPoint)
  : list Z :=
  map linkIndexA
      (filter (fun elem =>
                 negb ((bodyUniqueIdB elem =? door_body_id (ctor e))%Z
                       && (linkIndexB elem =? door_handle_link_id)%Z))
              collision_links).

Definition success_bonus (e : Env) (dist : R) : R :=
  if Rltb dist (dist_tol (settings e)) then success_reward (settings e) else 0.

Definition failure_penalty (e : Env) : R :=
  if Rgtb (vz (robot_position (world e))) 0.1
  then success_reward (settings e) else 0.

(** The per-step scalar as the specification composes it, for a variant with
    a fatal failure condition ([with_failure]) or without. *)
Definition spec_reward (with_failure : bool) (e : Env) (potential dist : R)
  (energy stall : R) (collision_link_ids : list Z) : R :=
  slack_term e + shaping_term e potential + energy + stall
  + collision_term e collision_link_ids + success_bonus e dist
  - (if with_failure then failure_penalty e else 0).

(** The potential of the current stage of the door task. *)
Definition stage_potential (e : Env) : R :=
  if (stage (episode e) =? stage_get_to_door_handle)%nat
  then l2_distance (door_handle_position (world e))
                   (end_effector_position (world e))
  else if (stage (episode e) =? stage_open_door)%nat
       then Rabs (door_joint_position (world e) + PI)
       else l2_distance (target_pos (episode e)) (robot_position (world e)).

(** ** Runs of step calls *)

Section Runs.

Context {C : Collaborators}.

(** The environment after a sequence of [step] calls. *)
Fixpoint run_steps (fuel : nat) (actions : list (list R)) (e : Env) : Env :=
  match actions with
  | [] => e
  | action :: rest => run_steps fuel rest (snd (step fuel action e))
  end.

End Runs.

(** What a step call within an episode must leave alone: the constructor's
    attributes and, unless the environment resets itself on termination, the
    stage. *)
Definition stage_within_episode (e : Env) : Ctor * option nat :=
  if automatic_reset (ctor e)
  then (ctor e, None)
  else (ctor e, Some (stage (episode e))).

(** The collaborators never move the door joint by themselves. *)
Definition leaves_door_joint (f : World -> World) : Prop :=
  forall w, door_joint_position (f w) = door_joint_position w.

Definition door_left_alone (C : Collaborators) : Prop :=
  leaves_door_joint simulator_step
  /\ leaves_door_joint robot_specific_reset
  /\ (forall pos, leaves_door_joint (set_position pos))
  /\ (forall orn, leaves_door_joint (set_orientation orn)).

(** Sample data for evaluating the environment. *)

Definition origin : vec3 := V3 0 0 0.

(** A contact of the robot's base link (link id -1) with body 7. *)
Definition base_contact : ContactPoint := Contact 0 0 7 (-1) 0.

Definition sample_world (pos : vec3) (door : R)
  (contacts : list ContactPoint) : World :=
  {| robot_position := pos; robot_rpy := (0, 0, 0);
     end_effector_position := pos;
     robot_calc_state := repeat 0 46;
     joint_speeds := [0; 0]; joint_torque := [0; 0];
     robot_parts := []; contact_points := contacts;
     door_joint_position := door; door_joint_velocity := 0;
     door_handle_position := pos;
     jr_end_effector_link_position := pos;
     constraints := []; next_constraint_id := 0; random_draws := 0 |}.

Definition sample_config (task : string) (out : list string)
  (dim : option Z) : Config :=
  {| cfg_initial_pos := None; cfg_initial_orn := None;
     cfg_target_pos := None; cfg_target_orn := None;
     cfg_additional_states_dim := dim;
     cfg_auxiliary_sensor_dim := Some 42%Z;
     cfg_normalize_observation := None;
     cfg_observation_normalizer := None;
     cfg_dist_tol := None; cfg_max_step := None;
     cfg_success_reward := None; cfg_slack_reward := None;
     cfg_potential_reward_weight := None;
     cfg_electricity_reward_weight := None;
     cfg_stall_torque_reward_weight := None;
     cfg_collision_reward_weight := None;
     cfg_collision_links := None; cfg_discount_factor := None;
     cfg_output := Some out; cfg_resolution := None;
     cfg_visual_object_at_initial_target_pos := None;
     cfg_task := Some task; cfg_door_angle := None |}.

(** The constructor's attributes: ten actions a second over forty physics
    ticks, [door_angle] being [-(degrees / 180.0) * np.pi]. *)
Definition sample_ctor (degrees : R) : Ctor :=
  {| automatic_reset := false; action_timestep := 0.1;
     physics_timestep := 0.025; simulator_loop := 4;
     random_height := false; door_body_id := 1%Z;
     door_angle := - (degrees / 180) * PI |}.

(** The attributes [load] assigns by default, with the given dimension of the
    state vector, outputs and shaping weight. *)
Definition sample_settings (dim : Z) (out : list string) (weight : R)
  : Settings :=
  {| initial_orn := (0, 0, 0); target_orn := (0, 0, 0);
     additional_states_dim := dim; auxiliary_sensor_dim := 42%Z;
     normalize_observation := false; observation_normalizer := [];
     dist_tol := 0.2; max_step := Inf;
     success_reward := 10; slack_reward := -0.01;
     potential_reward_weight := weight;
     electricity_reward_weight := 0; stall_torque_reward_weight := 0;
     collision_reward_weight := 0; self_collision_links := [(-1)%Z];
     discount_factor := 1; output := out; sensor_dim := dim;
     observation_space := []; visual_object_at_initial_target_pos := false |}.

Definition sample_episode (target : vec3) (baseline normalized : R)
  (current previous : nat) (handle : option nat) : Episode :=
  {| initial_pos := origin; target_pos := target;
     initial_potential := baseline; normalized_potential := normalized;
     current_step := 0; current_episode := 0;
     stage := current; prev_stage := previous; cid := handle |}.

Definition sample_env (k : EnvKind) (cfg : Config) (c : Ctor) (s : Settings)
  (ep : Episode) (w : World) : Env :=
  {| kind := k; config := cfg; ctor := c; settings := s; episode := ep;
     world := w; stdout := [] |}.

(** A point-goal robot of the base class, standing on its target. *)
Definition pointgoal_env (k : EnvKind) (weight : R) (height : R) : Env :=
  sample_env k (sample_config "pointgoal" ["sensor"] (Some 3%Z))
    (sample_ctor 90) (sample_settings 3 ["sensor"] weight)
    (sample_episode (V3 0 0 height) 2 1 0 0 None)
    (sample_world (V3 0 0 height) 0 []).

(** A robot of the multi-stage class at the given stages, its end effector on
    the door handle, the door joint at [door] radians. *)
Definition door_env (degrees door : R) (current previous : nat)
  (handle : option nat) (out : list string)
  (contacts : list ContactPoint) : Env :=
  sample_env InteractiveNavigateEnv
    (sample_config "pointgoal" out (Some 7%Z))
    (sample_ctor degrees) (sample_settings 7 out 10)
    (sample_episode (V3 (-100) (-100) 0) 2 1 current previous handle)
    (sample_world origin door contacts).

(** A configuration that declares four state entries where the base class
    assembles three, before [load]. *)
Definition mismatched_env : Env :=
  sample_env NavigateEnv (sample_config "pointgoal" ["sensor"] (Some 4%Z))
    (sample_ctor 90) (sample_settings 0 [] 10)
    (sample_episode origin 1 1 0 0 None) (sample_world origin 0 []).

(** ** The constructors *)

(** [NavigateEnv.__init__], after [BaseEnv.__init__]: the attributes it
    assigns, with [simulator_loop = int(action_timestep / simulator.timestep)]
    where the simulator's time step has just been set to [physics_timestep].
    [simulator_loop] is only ever the argument of [range], so a negative
    count is kept as no iteration at all. *)
Definition NavigateEnv_init (automatic_reset_arg : bool)
  (action_timestep_arg physics_timestep_arg : R) (old : Ctor) : outcome Ctor :=
  if Req_dec_T physics_timestep_arg 0
  then Raise ZeroDivisionError
  else Return {| automatic_reset := automatic_reset_arg;
                 action_timestep := action_timestep_arg;
                 physics_timestep := physics_timestep_arg;
                 simulator_loop :=
                   Z.to_nat (py_int (action_timestep_arg
                                     / physics_timestep_arg));
                 random_height := random_height old;
                 door_body_id := door_body_id old;
                 door_angle := door_angle old |}.

(** What [InteractiveNavigateEnv.__init__] adds, the door being loaded as
    body [door]: the opening angle in radians, the first stage and no
    constraint. *)
Definition InteractiveNavigateEnv_init (door : Z) (e : Env) : Env :=
  let degrees := config_get (cfg_door_angle (config e)) 90 in
  {| kind := kind e; config := config e;
     ctor := {| automatic_reset := automatic_reset (ctor e);
                action_timestep := action_timestep (ctor e);
                physics_timestep := physics_timestep (ctor e);
                simulator_loop := simulator_loop (ctor e);
                random_height := random_height (ctor e);
                door_body_id := door;
                door_angle := - (degrees / 180) * PI |};
     settings := settings e;
     episode := with_cid None
                  (with_prev_stage 0 (with_stage 0 (episode e)));
     world := world e; stdout := stdout e |}.

(** ** reload *)





(** ** Devices for the parallel environments (train_eval_p2p_nav_ppo.py) *)

(** [np.linspace(0, stop, num=num, dtype=np.int, endpoint=False)]: the
    multiples of [stop / num], truncated. *)
Definition linspace_int (stop num : nat) : list Z :=
  map (fun k => py_int (INR k * (INR stop / INR num))) (seq 0 num).

(** [l[i]] on a Python list: a negative index counts from the end. *)
Definition py_item {A : Type} (l : list A) (i : Z) : option A :=
  if (i <? 0)%Z
  then if (i <? - Z.of_nat (List.length l))%Z
       then None
       else nth_error l (Z.to_nat (Z.of_nat (List.length l) + i))
  else nth_error l (Z.to_nat i).

Definition lift_outcome {A : Type} (o : option A) : outcome A :=
  match o with
  | Some a => Return a
  | None => Raise IndexError
  end.

Definition outcome_bind {A B : Type} (o : outcome A) (f : A -> outcome B)
  : outcome B :=
  match o with
  | Return a => f a
  | Raise x => Raise x
  | Unfinished => Unfinished
  end.

(** [gpu[gpu_ids[env_id]]]. *)
Definition device_of (gpu gpu_ids : list Z) (env_id : nat) : outcome Z :=
  outcome_bind (lift_outcome (nth_error gpu_ids env_id)) (fun i =>
  lift_outcome (py_item gpu i)).

(** The list comprehension over [range(2, num_parallel_environments + 1)]. *)
Fixpoint headless_devices (gpu gpu_ids : list Z) (env_ids : list nat)
  : outcome (list (string * Z)) :=
  match env_ids with
  | [] => Return []
  | env_id :: rest =>
      outcome_bind (device_of gpu gpu_ids env_id) (fun d =>
      outcome_bind (headless_devices gpu gpu_ids rest) (fun ds =>
      Return (("headless", d) :: ds)))
  end.

(** The environments [train_eval] builds from the parsed [gpu] list: the mode
    and device of the evaluation environment, then those of the training
    environments. *)
Definition assign_devices (gpu : list Z) (env_mode : string)
  (num_parallel_environments : nat)
  : outcome ((string * Z) * list (string * Z)) :=
  let gpu_ids := linspace_int (List.length gpu) (num_parallel_environments + 1) in
  outcome_bind (device_of gpu gpu_ids 0) (fun d0 =>
  outcome_bind (device_of gpu gpu_ids 1) (fun d1 =>
  outcome_bind (headless_devices gpu gpu_ids
                  (seq 2 (num_parallel_environments + 1 - 2))) (fun ds =>
  Return (("headless", d0), (env_mode, d1) :: ds)))).

(** ** set_subgoal *)

Section Subgoal.

Context {C : Collaborators}.

(** [InteractiveNavigateEnv.set_subgoal]: a normalised state vector is
    mapped back with the bounds of the [sensor] channel and two visual
    markers are placed.  The result is what the two [set_position] calls
    receive: the position and yaw of the base marker and the position of the
    end-effector marker. *)
Definition set_subgoal (ideal_next_state : list R) : M (vec3 * R * vec3) :=
  e <- get ;;
  bounds <- lift_option (KeyError "sensor")
              (dict_get "sensor" (observation_normalizer (settings e))) ;;
  obs_avg <- lift_option ValueError
               (broadcast2 (fun x y => (x + y) / 2) (snd bounds) (fst bounds)) ;;
  obs_mag <- lift_option ValueError
               (broadcast2 (fun x y => (x - y) / 2) (snd bounds) (fst bounds)) ;;
  scaled <- lift_option ValueError
              (broadcast2 Rmult ideal_next_state obs_mag) ;;
  ideal_next_state <- lift_option ValueError
                        (broadcast2 Rplus scaled obs_avg) ;;
  xy <- match firstn 2 ideal_next_state with
        | [x; y] => ret (x, y)
        | [x] => ret (x, x)
        | _ => raise ValueError
        end ;;
  let base_pos := V3 (fst xy) (snd xy) 0.4 in
  yaw <- lift_option IndexError (nth_error ideal_next_state 5) ;;
  let end_effector_pos :=
    V3 (nth 2 ideal_next_state 0) (nth 3 ideal_next_state 0)
       (nth 4 ideal_next_state 0) in
  let end_effector_pos := rotate_vector_3d end_effector_pos 0 0 (- yaw) in
  ret (base_pos, yaw,
       V3 (vx base_pos + vx end_effector_pos - 0.4)
          (vy base_pos + vy end_effector_pos - 0.4)
          (vz base_pos + vz end_effector_pos - 0.4)).

End Subgoal.

(** ** Predicates used in the statements *)

(** A contact of the robot with the door handle, the one
    [InteractiveNavigateEnv.get_reward] leaves out. *)
Definition is_handle_contact (e : Env) (elem : ContactPoint) : bool :=
  (bodyUniqueIdB elem =? door_body_id (ctor e))%Z
  && (linkIndexB elem =? door_handle_link_id)%Z.

(** Some contact is on a link whose collisions are penalized. *)
Definition touches_penalized (e : Env) (collision_links : list ContactPoint)
  : Prop :=
  exists elem, In elem collision_links
               /\ In (linkIndexA elem) (self_collision_links (settings e)).

(** The constraint handle is held exactly while the door is being opened. *)
Definition handle_consistent (e : Env) : Prop :=
  (stage (episode e) = stage_open_door -> cid (episode e) <> None)
  /\ (stage (episode e) <> stage_open_door -> cid (episode e) = None).

(** The class, the stage and the constraint handle of an environment. *)
Definition handle_state (e : Env) : EnvKind * nat * option nat :=
  (kind e, stage (episode e), cid (episode e)).

(** The stage and the handle are [p], or what a reset leaves. *)
Definition handle_as (p : nat * option nat) (e : Env) : Prop :=
  kind e = InteractiveNavigateEnv
  /\ ((stage (episode e), cid (episode e)) = p
      \/ (stage (episode e), cid (episode e)) = (0%nat, None)).


(** ** The channels of an observation *)

(** [if key in self.output: state[key] = v], for a value that is at hand. *)
Definition put (key : string) (out : list string) (v : payload)
  (state : observation) : observation :=
  if str_in key out then dict_set key v state else state.

Section Channels.

Context {C : Collaborators}.

(** What [NavigateEnv.get_state] stores under [key], the state vector being
    [sensor_state] and the auxiliary reading [auxiliary_sensor]. *)
Definition channel_value (w : World) (collision_links : list pyval)
  (sensor_state auxiliary_sensor : list R) (key : string) : option payload :=
  if String.eqb key "sensor" then Some (PArr sensor_state)
  else if String.eqb key "auxiliary_sensor" then Some (PArr auxiliary_sensor)
  else if String.eqb key "pointgoal" then Some (PArr (firstn 2 sensor_state))
  else if String.eqb key "rgb"
       then Some (PArr (render_robot_cameras "rgb" w))
  else if String.eqb key "depth"
       then Some (PArr (map Ropp (render_robot_cameras "3d" w)))
  else if String.eqb key "normal"
       then Some (PArr (render_robot_cameras "normal" w))
  else if String.eqb key "seg"
       then Some (PArr (render_robot_cameras "seg" w))
  else if String.eqb key "rgb_filled"
       then Some (PArr (completion_net
                          (map (fun x => x * 255)
                               (render_robot_cameras "rgb" w))))
  else if String.eqb key "bump"
       then Some (PBool (py_in (PyInt (-1)) collision_links))
  else None.

End Channels.

(** The class of an environment and the attributes [load] has set. *)
Definition observing (e : Env) : EnvKind * Settings := (kind e, settings e).

(** The normaliser has bounds for the channel [key], of the length of its
    value [v], every lower bound below its upper bound. *)
Definition bounded_by (normalizer : list (string * (list R * list R)))
  (key : string) (v : payload) : Prop :=
  exists lo hi,
    dict_get key normalizer = Some (lo, hi)
    /\ List.length lo = List.length (payload_array v)
    /\ List.length hi = List.length (payload_array v)
    /\ forall i, (i < List.length (payload_array v))%nat ->
         nth i lo 0 < nth i hi 0.

(** The step limit and the step counter. *)
Definition deadline (e : Env) : bound * nat :=
  (max_step (settings e), current_step (episode e)).

(** ** Further sample data *)


(** The default attributes with normalisation switched on, the seven
    entries of the state vector bounded by -1 and 1. *)
Definition normalized_settings : Settings :=
  {| initial_orn := (0, 0, 0); target_orn := (0, 0, 0);
     additional_states_dim := 7%Z; auxiliary_sensor_dim := 42%Z;
     normalize_observation := true;
     observation_normalizer := [("sensor", (repeat (-1) 7, repeat 1 7))];
     dist_tol := 0.2; max_step := Inf;
     success_reward := 10; slack_reward := -0.01;
     potential_reward_weight := 10;
     electricity_reward_weight := 0; stall_torque_reward_weight := 0;
     collision_reward_weight := 0; self_collision_links := [(-1)%Z];
     discount_factor := 1; output := ["sensor"]; sensor_dim := 7%Z;
     observation_space := []; visual_object_at_initial_target_pos := false |}.

Definition normalized_env : Env :=
  sample_env InteractiveNavigateEnv
    (sample_config "pointgoal" ["sensor"] (Some 7%Z))
    (sample_ctor 90) normalized_settings
    (sample_episode (V3 (-100) (-100) 0) 2 1 0 0 None)
    (sample_world origin 0 []).

(** The default attributes with a step limit, only the bump channel being
    observed. *)
Definition limited_settings (limit : bound) : Settings :=
  {| initial_orn := (0, 0, 0); target_orn := (0, 0, 0);
     additional_states_dim := 7%Z; auxiliary_sensor_dim := 42%Z;
     normalize_observation := false; observation_normalizer := [];
     dist_tol := 0.2; max_step := limit;
     success_reward := 10; slack_reward := -0.01;
     potential_reward_weight := 10;
     electricity_reward_weight := 0; stall_torque_reward_weight := 0;
     collision_reward_weight := 0; self_collision_links := [(-1)%Z];
     discount_factor := 1; output := ["bump"]; sensor_dim := 7%Z;
     observation_space := []; visual_object_at_initial_target_pos := false |}.

(** A robot of the multi-stage class in its last stage, far from the
    target, with a step limit. *)
Definition limited_env (limit : bound) : Env :=
  sample_env InteractiveNavigateEnv
    (sample_config "pointgoal" ["bump"] (Some 7%Z))
    (sample_ctor 90) (limited_settings limit)
    (sample_episode (V3 (-100) (-100) 0) 2 1 2 2 None)
    (sample_world origin 0 []).

(** A contact of the robot's base link with the handle (link 2) of the
    door (body 1). *)
Definition handle_contact : ContactPoint := Contact 0 0 1 (-1) 2.

(** One entry of the normalisation of [InteractiveNavigateEnv.get_state]. *)
Definition normalize_entry (x lo hi : R) : R :=
  (Rmin (Rmax x lo) hi - (hi + lo) / 2) / ((hi - lo) / 2).

(** [m] leaves the part [proj] of the environment as it found it, whatever
    it produces. *)
Definition keeps {A X : Type} (proj : Env -> X) (m : M A) : Prop :=
  forall e, proj (snd (m e)) = proj e.

(** [m] produces a value or an exception: it has no unbounded loop. *)
Definition finishes {A : Type} (m : M A) : Prop :=
  forall e, fst (m e) <> Unfinished.

(** * Properties *)

(** ** Comparisons *)

Lemma Rltb_true (x y : R) : Rltb x y = true <-> x < y.
Proof.
  unfold Rltb. destruct (Rlt_dec x y); split; intros; congruence || lra.
Qed.

Lemma Rltb_false (x y : R) : Rltb x y = false <-> y <= x.
Proof.
  unfold Rltb. destruct (Rlt_dec x y); split; intros; congruence || lra.
Qed.

Lemma Rleb_true (x y : R) : Rleb x y = true <-> x <= y.
Proof.
  unfold Rleb. destruct (Rle_dec x y); split; intros; congruence || lra.
Qed.

Lemma Rleb_false (x y : R) : Rleb x y = false <-> y < x.
Proof.
  unfold Rleb. destruct (Rle_dec x y); split; intros; congruence || lra.
Qed.

(** ** wrap_to_pi *)

Lemma wrap_angle_range (x : R) : - PI <= wrap_angle x < PI.
Proof.
  unfold wrap_angle.
  pose proof PI_RGT_0 as Hpi.
  pose proof (Zfloor_bound ((x + PI) / (PI * 2))) as [Hlo Hhi].
  set (k := IZR (Zfloor ((x + PI) / (PI * 2)))) in *.
  assert (Hx : (x + PI) / (PI * 2) * (PI * 2) = x + PI) by (field; lra).
  assert (H1 : k * (PI * 2) <= x + PI).
  { rewrite <- Hx. apply Rmult_le_compat_r; lra. }
  assert (H2 : x + PI < (k + 1) * (PI * 2)).
  { rewrite <- Hx at 1. apply Rmult_lt_compat_r; lra. }
  lra.
Qed.

Lemma wrap_angle_PI : wrap_angle PI = - PI.
Proof.
  unfold wrap_angle.
  pose proof PI_RGT_0 as Hpi.
  replace ((PI + PI) / (PI * 2)) with (IZR 1) by (field; lra).
  rewrite ZfloorZ. lra.
Qed.

Lemma nth_map_indexed (f : nat * R -> R) (l : list R) :
  forall s i, (i < List.length l)%nat ->
    nth i (map f (combine (seq s (List.length l)) l)) 0
    = f ((s + i)%nat, nth i l 0).
Proof.
  induction l as [|x l IH]; intros s i Hi; simpl in Hi; [lia|].
  destruct i as [|i]; simpl.
  - now rewrite Nat.add_0_r.
  - rewrite IH by lia. now rewrite Nat.add_succ_r.
Qed.

Lemma existsb_eqb_In (i : nat) (l : list nat) :
  existsb (Nat.eqb i) l = true <-> In i l.
Proof.
  rewrite existsb_exists. split.
  - intros [j [Hj Heq]]. apply Nat.eqb_eq in Heq. now subst.
  - intros Hi. exists i. split; [assumption | apply Nat.eqb_refl].
Qed.

(** ** Frame rules of the environment monad *)

Section Frames.

Context {X : Type} (proj : Env -> X).

Lemma keeps_ret {A : Type} (a : A) : keeps proj (ret a).
Proof. intro e. reflexivity. Qed.

Lemma keeps_raise {A : Type} (x : exn) : keeps proj (@raise A x).
Proof. intro e. reflexivity. Qed.

Lemma keeps_get : keeps proj get.
Proof. intro e. reflexivity. Qed.

Lemma keeps_out_of_iterations {A : Type} : keeps proj (@out_of_iterations A).
Proof. intro e. reflexivity. Qed.

Lemma keeps_modify (f : Env -> Env) :
  (forall e, proj (f e) = proj e) -> keeps proj (modify f).
Proof. intros H e. apply H. Qed.

Lemma keeps_bind {A B : Type} (m : M A) (f : A -> M B) :
  keeps proj m -> (forall a, keeps proj (f a)) -> keeps proj (bind m f).
Proof.
  intros Hm Hf e. unfold bind.
  specialize (Hm e). destruct (m e) as [[a | x |] e']; simpl in *.
  - rewrite <- Hm. apply Hf.
  - exact Hm.
  - exact Hm.
Qed.

Lemma keeps_assert (b : bool) : keeps proj (assert_ b).
Proof. intro e. destruct b; reflexivity. Qed.

Lemma keeps_config_item {A : Type} (entry : Config -> option A) (key : string) :
  keeps proj (config_item entry key).
Proof. intro e. unfold config_item. destruct (entry (config e)); reflexivity. Qed.

Lemma keeps_lift_option {A : Type} (x : exn) (o : option A) :
  keeps proj (lift_option x o).
Proof. intro e. destruct o; reflexivity. Qed.

End Frames.

Lemma finishes_ret {A : Type} (a : A) : finishes (ret a).
Proof. intro e. discriminate. Qed.

Lemma finishes_raise {A : Type} (x : exn) : finishes (@raise A x).
Proof. intro e. discriminate. Qed.

Lemma finishes_get : finishes get.
Proof. intro e. discriminate. Qed.

Lemma finishes_modify (f : Env -> Env) : finishes (modify f).
Proof. intro e. discriminate. Qed.

Lemma finishes_bind {A B : Type} (m : M A) (f : A -> M B) :
  finishes m -> (forall a, finishes (f a)) -> finishes (bind m f).
Proof.
  intros Hm Hf e. unfold bind.
  specialize (Hm e). destruct (m e) as [[a | x |] e']; simpl in *.
  - apply Hf.
  - discriminate.
  - congruence.
Qed.

Lemma finishes_assert (b : bool) : finishes (assert_ b).
Proof. intro e. destruct b; discriminate. Qed.

Lemma finishes_config_item {A : Type} (entry : Config -> option A)
  (key : string) : finishes (config_item entry key).
Proof.
  intro e. unfold config_item. destruct (entry (config e)); discriminate.
Qed.

Lemma finishes_lift_option {A : Type} (x : exn) (o : option A) :
  finishes (lift_option x o).
Proof. intro e. destruct o; discriminate. Qed.

(** One syntax-directed step on a [keeps] or [finishes] goal. *)
Ltac frame_step :=
  lazymatch goal with
  | |- keeps _ (bind _ _) => apply keeps_bind; [ | intro ]
  | |- keeps _ (ret _) => apply keeps_ret
  | |- keeps _ (raise _) => apply keeps_raise
  | |- keeps _ get => apply keeps_get
  | |- keeps _ out_of_iterations => apply keeps_out_of_iterations
  | |- keeps _ (assert_ _) => apply keeps_assert
  | |- keeps _ (config_item _ _) => apply keeps_config_item
  | |- keeps _ (lift_option _ _) => apply keeps_lift_option
  | |- keeps _ (modify _) => apply keeps_modify; intro; reflexivity
  | |- keeps _ (update_world _) => unfold update_world
  | |- keeps _ (update_episode _) => unfold update_episode
  | |- keeps _ (print _) => unfold print
  | |- keeps _ (if ?b then _ else _) => destruct b
  | |- keeps _ (match ?x with _ => _ end) => destruct x
  | |- finishes (bind _ _) => apply finishes_bind; [ | intro ]
  | |- finishes (ret _) => apply finishes_ret
  | |- finishes (raise _) => apply finishes_raise
  | |- finishes get => apply finishes_get
  | |- finishes (assert_ _) => apply finishes_assert
  | |- finishes (config_item _ _) => apply finishes_config_item
  | |- finishes (lift_option _ _) => apply finishes_lift_option
  | |- finishes (modify _) => apply finishes_modify
  | |- finishes (update_world _) => unfold update_world
  | |- finishes (update_episode _) => unfold update_episode
  | |- finishes (print _) => unfold print
  | |- finishes (if ?b then _ else _) => destruct b
  | |- finishes (match ?x with _ => _ end) => destruct x
  end.

Lemma keeps_of_reads {A X : Type} (proj : Env -> X) (m : M A) :
  keeps (fun e => e) m -> keeps proj m.
Proof. intros H e. now rewrite (H e). Qed.

Create HintDb frames.

#[local] Hint Resolve keeps_ret keeps_raise keeps_get keeps_assert
  keeps_config_item keeps_lift_option keeps_out_of_iterations
  finishes_ret finishes_raise finishes_get finishes_assert
  finishes_config_item finishes_lift_option finishes_modify : frames.

Ltac frame :=
  repeat (lazy zeta;
          first [ frame_step
                | solve [auto with frames]
                | solve [apply keeps_of_reads; auto with frames] ]).

Section Properties.

Context {C : Collaborators}.

(** ** Methods that only read *)

Lemma get_position_of_interest_reads :
  keeps (fun e => e) get_position_of_interest.
Proof. unfold get_position_of_interest. frame. Qed.

Lemma py_l2_distance_reads (a : vec3) (b : option vec3) :
  keeps (fun e => e) (py_l2_distance a b).
Proof. unfold py_l2_distance. frame. Qed.

#[local] Hint Resolve get_position_of_interest_reads py_l2_distance_reads : frames.

Lemma NavigateEnv_get_potential_reads :
  keeps (fun e => e) NavigateEnv_get_potential.
Proof. unfold NavigateEnv_get_potential. frame. Qed.

Lemma InteractiveNavigateEnv_get_potential_reads :
  keeps (fun e => e) InteractiveNavigateEnv_get_potential.
Proof. unfold InteractiveNavigateEnv_get_potential. frame. Qed.

Lemma get_potential_reads : keeps (fun e => e) get_potential.
Proof.
  intro e. unfold get_potential.
  destruct (kind e);
    first [ apply NavigateEnv_get_potential_reads
          | apply InteractiveNavigateEnv_get_potential_reads ].
Qed.

Lemma NavigateEnv_get_additional_states_reads :
  keeps (fun e => e) NavigateEnv_get_additional_states.
Proof. unfold NavigateEnv_get_additional_states. frame. Qed.

Lemma InteractiveNavigateEnv_get_additional_states_reads :
  keeps (fun e => e) InteractiveNavigateEnv_get_additional_states.
Proof. unfold InteractiveNavigateEnv_get_additional_states. frame. Qed.

Lemma get_additional_states_reads : keeps (fun e => e) get_additional_states.
Proof.
  intro e. unfold get_additional_states.
  destruct (kind e);
    first [ apply NavigateEnv_get_additional_states_reads
          | apply InteractiveNavigateEnv_get_additional_states_reads ].
Qed.

Lemma InteractiveNavigateEnv_get_auxiliary_sensor_reads :
  keeps (fun e => e) InteractiveNavigateEnv_get_auxiliary_sensor.
Proof. unfold InteractiveNavigateEnv_get_auxiliary_sensor. frame. Qed.

Lemma get_auxiliary_sensor_reads : keeps (fun e => e) get_auxiliary_sensor.
Proof.
  intro e. unfold get_auxiliary_sensor.
  destruct (kind e);
    first [ reflexivity
          | apply InteractiveNavigateEnv_get_auxiliary_sensor_reads ].
Qed.

#[local] Hint Resolve get_potential_reads get_additional_states_reads
  get_auxiliary_sensor_reads : frames.

Lemma channel_reads (key : string) (value : M payload) (state : observation) :
  keeps (fun e => e) value -> keeps (fun e => e) (channel key value state).
Proof. intro H. unfold channel. frame. Qed.

Lemma NavigateEnv_get_state_reads (collision_links : list pyval) :
  keeps (fun e => e) (NavigateEnv_get_state collision_links).
Proof.
  unfold NavigateEnv_get_state.
  repeat (lazy zeta;
          first [ frame_step | apply channel_reads | solve [auto with frames] ]).
Qed.

Lemma normalize_channels_reads normalizer keys :
  forall state, keeps (fun e => e) (normalize_channels normalizer keys state).
Proof.
  induction keys as [|key rest IH]; intro state; simpl; frame.
Qed.

Lemma InteractiveNavigateEnv_get_state_reads (collision_links : list pyval) :
  keeps (fun e => e) (InteractiveNavigateEnv_get_state collision_links).
Proof.
  unfold InteractiveNavigateEnv_get_state.
  apply keeps_bind; [apply NavigateEnv_get_state_reads | intro state].
  frame; apply normalize_channels_reads.
Qed.

Lemma get_state_reads (collision_links : list pyval) :
  keeps (fun e => e) (get_state collision_links).
Proof.
  intro e. unfold get_state.
  destruct (kind e);
    first [ apply NavigateEnv_get_state_reads
          | apply InteractiveNavigateEnv_get_state_reads ].
Qed.

#[local] Hint Resolve get_state_reads : frames.

(** ** Methods without loops come to an end *)

Lemma get_position_of_interest_finishes : finishes get_position_of_interest.
Proof. unfold get_position_of_interest. frame. Qed.

Lemma py_l2_distance_finishes (a : vec3) (b : option vec3) :
  finishes (py_l2_distance a b).
Proof. unfold py_l2_distance. frame. Qed.

#[local] Hint Resolve get_position_of_interest_finishes
  py_l2_distance_finishes : frames.

Lemma NavigateEnv_get_potential_finishes : finishes NavigateEnv_get_potential.
Proof. unfold NavigateEnv_get_potential. frame. Qed.

Lemma InteractiveNavigateEnv_get_potential_finishes :
  finishes InteractiveNavigateEnv_get_potential.
Proof. unfold InteractiveNavigateEnv_get_potential. frame. Qed.

Lemma get_potential_finishes : finishes get_potential.
Proof.
  intro e. unfold get_potential.
  destruct (kind e);
    first [ apply NavigateEnv_get_potential_finishes
          | apply InteractiveNavigateEnv_get_potential_finishes ].
Qed.

Lemma NavigateEnv_get_additional_states_finishes :
  finishes NavigateEnv_get_additional_states.
Proof. unfold NavigateEnv_get_additional_states. frame. Qed.

Lemma InteractiveNavigateEnv_get_additional_states_finishes :
  finishes InteractiveNavigateEnv_get_additional_states.
Proof. unfold InteractiveNavigateEnv_get_additional_states. frame. Qed.

Lemma get_additional_states_finishes : finishes get_additional_states.
Proof.
  intro e. unfold get_additional_states.
  destruct (kind e);
    first [ apply NavigateEnv_get_additional_states_finishes
          | apply InteractiveNavigateEnv_get_additional_states_finishes ].
Qed.

#[local] Hint Resolve get_potential_finishes
  get_additional_states_finishes : frames.

(** ** Placement: what it leaves alone *)

Section Placement.

Context {X : Type} (proj : Env -> X).

(** [proj] looks at neither the world nor the two positions. *)
Hypothesis proj_world : forall w e, proj (set_world w e) = proj e.
Hypothesis proj_initial_pos :
  forall v e, proj (set_episode (with_initial_pos v (episode e)) e) = proj e.
Hypothesis proj_target_pos :
  forall v e, proj (set_episode (with_target_pos v (episode e)) e) = proj e.

Lemma keeps_update_world (f : World -> World) : keeps proj (update_world f).
Proof. intro e. apply proj_world. Qed.

Lemma keeps_set_world (w : World) : keeps proj (modify (set_world w)).
Proof. intro e. apply proj_world. Qed.

Lemma keeps_initial_pos (v : vec3) :
  keeps proj (update_episode (with_initial_pos v)).
Proof. intro e. apply proj_initial_pos. Qed.

Lemma keeps_target_pos (v : vec3) :
  keeps proj (update_episode (with_target_pos v)).
Proof. intro e. apply proj_target_pos. Qed.

Ltac placement :=
  repeat (lazy zeta;
          first [ apply keeps_update_world | apply keeps_set_world
                | apply keeps_initial_pos | apply keeps_target_pos
                | frame_step | solve [auto with frames] ]).

Lemma NavigateRandomEnv_place_start_keeps (fuel : nat) :
  keeps proj (NavigateRandomEnv_place_start fuel).
Proof. induction fuel as [|n IH]; simpl; placement. Qed.

Lemma NavigateRandomEnv_place_target_keeps (fuel : nat) (floor : Z) :
  keeps proj (NavigateRandomEnv_place_target fuel floor).
Proof. induction fuel as [|n IH]; simpl; placement. Qed.

Lemma InteractiveNavigateEnv_place_start_keeps (fuel : nat) :
  keeps proj (InteractiveNavigateEnv_place_start fuel).
Proof. induction fuel as [|n IH]; simpl; placement. Qed.

Lemma reset_initial_and_target_pos_keeps (fuel : nat) :
  keeps proj (reset_initial_and_target_pos fuel).
Proof.
  intro e. unfold reset_initial_and_target_pos. destruct (kind e).
  - revert e. change (keeps proj NavigateEnv_reset_initial_and_target_pos).
    unfold NavigateEnv_reset_initial_and_target_pos. placement.
  - revert e.
    change (keeps proj (NavigateRandomEnv_reset_initial_and_target_pos fuel)).
    unfold NavigateRandomEnv_reset_initial_and_target_pos.
    apply keeps_bind; [apply NavigateRandomEnv_place_start_keeps | intro].
    apply NavigateRandomEnv_place_target_keeps.
  - revert e.
    change (keeps proj
              (InteractiveNavigateEnv_reset_initial_and_target_pos fuel)).
    unfold InteractiveNavigateEnv_reset_initial_and_target_pos.
    apply keeps_bind; [apply InteractiveNavigateEnv_place_start_keeps | intro].
    placement.
Qed.

End Placement.

(** ** The base environment never observes *)

Lemma base_get_auxiliary_sensor (e : Env) :
  kind e <> InteractiveNavigateEnv ->
  get_auxiliary_sensor e = (Raise TypeError, e).
Proof.
  intro K. unfold get_auxiliary_sensor.
  destruct (kind e); [reflexivity | reflexivity | congruence].
Qed.

Lemma base_get_state_raises (collision_links : list pyval) (e : Env) :
  kind e <> InteractiveNavigateEnv ->
  exists x, get_state collision_links e = (Raise x, e).
Proof.
  intro K.
  assert (H : get_state collision_links e
              = NavigateEnv_get_state collision_links e).
  { unfold get_state. destruct (kind e); [reflexivity | reflexivity | congruence]. }
  rewrite H. unfold NavigateEnv_get_state, bind at 1.
  pose proof (get_additional_states_reads e) as Hr.
  pose proof (get_additional_states_finishes e) as Hf.
  destruct (get_additional_states e) as [[a | x |] e']; simpl in Hr, Hf; subst e'.
  - unfold bind at 1. rewrite (base_get_auxiliary_sensor e K).
    eexists; reflexivity.
  - eexists; reflexivity.
  - congruence.
Qed.

Lemma run_simulation_keeps_kind : keeps kind run_simulation.
Proof. unfold run_simulation. frame. Qed.

Lemma run_simulation_returns (e : Env) :
  exists collision_links e', run_simulation e = (Return collision_links, e')
                             /\ kind e' = kind e.
Proof.
  unfold run_simulation, bind, get, modify, ret.
  destruct (simulation_ticks (simulator_loop (ctor e)) [] (world e))
    as [collision_links w].
  do 2 eexists. split; reflexivity.
Qed.

Lemma base_step_raises (fuel : nat) (action : list R) (e : Env) :
  kind e <> InteractiveNavigateEnv ->
  exists x, fst (step fuel action e) = Raise x.
Proof.
  intro K.
  assert (H : step fuel action e = NavigateEnv_step fuel action e).
  { unfold step. destruct (kind e); [reflexivity | reflexivity | congruence]. }
  rewrite H. unfold NavigateEnv_step.
  unfold bind at 1. unfold update_world, modify.
  set (e1 := set_world (apply_action action (world e)) e).
  unfold bind at 1.
  destruct (run_simulation_returns e1) as [cl [e2 [Hrun K2]]].
  rewrite Hrun.
  unfold bind at 1.
  destruct (base_get_state_raises (map PyTuple cl) e2) as [x Hx].
  { rewrite K2. exact K. }
  rewrite Hx. exists x. reflexivity.
Qed.

Lemma base_reset_raises (fuel : nat) (e : Env) :
  kind e <> InteractiveNavigateEnv ->
  (exists x, fst (reset fuel e) = Raise x)
  \/ (kind e = NavigateRandomEnv /\ fst (reset fuel e) = Unfinished).
Proof.
  intro K.
  assert (H : reset fuel e = NavigateEnv_reset fuel e).
  { unfold reset. destruct (kind e); [reflexivity | reflexivity | congruence]. }
  rewrite H. clear H.
  generalize (eq_refl (NavigateEnv_reset fuel e)).
  generalize (NavigateEnv_reset fuel e) at 1 3 4 as r.
  intro r. unfold NavigateEnv_reset.
  unfold bind at 1. unfold update_world at 1, modify.
  set (e1 := set_world (robot_specific_reset (world e)) e).
  unfold bind at 1.
  pose proof (reset_initial_and_target_pos_keeps kind
                (fun _ _ => eq_refl) (fun _ _ => eq_refl) (fun _ _ => eq_refl)
                fuel e1) as K2.
  destruct (reset_initial_and_target_pos fuel e1) as [[[] | x |] e2] eqn:Hplace;
    simpl in K2.
  - unfold bind at 1.
    pose proof (get_potential_reads e2) as Hr.
    pose proof (get_potential_finishes e2) as Hf.
    destruct (get_potential e2) as [[p | x |] e3]; simpl in Hr, Hf; subst e3.
    + unfold bind at 1. unfold update_episode at 1, modify.
      unfold bind at 1. unfold update_episode at 1, modify.
      unfold bind at 1. unfold update_episode at 1, modify.
      match goal with
      | |- context [get_state [] ?e'] =>
          destruct (base_get_state_raises [] e') as [x Hx];
          [ simpl; rewrite K2; exact K | rewrite Hx ]
      end.
      intros ->. left. exists x. reflexivity.
    + intros ->. left. eexists; reflexivity.
    + congruence.
  - intros ->. left. eexists; reflexivity.
  - intros ->. destruct (kind e) eqn:Ke.
    + exfalso. unfold reset_initial_and_target_pos in Hplace.
      change (kind e1) with (kind e) in Hplace. rewrite Ke in Hplace.
      discriminate Hplace.
    + right. split; reflexivity.
    + congruence.
Qed.

(** C1.  In [NavigateEnv] and [NavigateRandomEnv], which inherit
    [get_auxiliary_sensor] with its [raise np.array([])], every call of
    [get_state] raises; so does every call of [step]; [reset] never returns
    an observation: it raises, unless the random placement is still looking
    for a pose. *)
Theorem base_environment_never_observes
  (e : Env) (collision_links : list pyval) (fuel : nat) (action : list R) :
  kind e <> InteractiveNavigateEnv ->
  (exists x, fst (get_state collision_links e) = Raise x)
  /\ (exists x, fst (step fuel action e) = Raise x)
  /\ ((exists x, fst (reset fuel e) = Raise x)
      \/ (kind e = NavigateRandomEnv /\ fst (reset fuel e) = Unfinished))
  /\ (forall s, fst (reset fuel e) <> Return s).
Proof.
  intro K. repeat split.
  - destruct (base_get_state_raises collision_links e K) as [x Hx].
    exists x. now rewrite Hx.
  - apply base_step_raises, K.
  - apply base_reset_raises, K.
  - intros s Hs.
    destruct (base_reset_raises fuel e K) as [[x Hx] | [_ Hx]]; congruence.
Qed.

(** ** wrap_to_pi *)

(** C7, as the code has it.  [wrap_to_pi] succeeds when the indices are
    within the array, keeps its length, leaves the other entries alone, and
    moves each selected entry by a whole multiple of 2 pi into the interval
    that is closed at - pi and open at pi. *)
Theorem wrap_to_pi_half_open (states : list R) (indices : list nat) :
  (forall i, In i indices -> (i < List.length states)%nat) ->
  exists out,
    wrap_to_pi states indices = Some out
    /\ List.length out = List.length states
    /\ forall i, (i < List.length states)%nat ->
         (In i indices ->
          (exists k : Z, nth i out 0 = nth i states 0 - PI * 2 * IZR k)
          /\ - PI <= nth i out 0 < PI)
         /\ (~ In i indices -> nth i out 0 = nth i states 0).
Proof.
  intro Hin. unfold wrap_to_pi.
  assert (Hall : forallb (fun i => (i <? List.length states)%nat) indices = true).
  { apply forallb_forall. intros i Hi. apply Nat.ltb_lt, Hin, Hi. }
  rewrite Hall. eexists. split; [reflexivity|]. split.
  - rewrite length_map, length_combine, length_seq. apply Nat.min_id.
  - intros i Hi. rewrite nth_map_indexed by assumption. simpl.
    split; intro Hsel.
    + apply existsb_eqb_In in Hsel. rewrite Hsel. split.
      * eexists. reflexivity.
      * apply wrap_angle_range.
    + destruct (existsb (Nat.eqb i) indices) eqn:E; [|reflexivity].
      apply existsb_eqb_In in E. contradiction.
Qed.

(** ** Termination *)

Lemma get_position_of_interest_value (e : Env) :
  get_position_of_interest e = (fst (get_position_of_interest e), e).
Proof.
  pose proof (get_position_of_interest_reads e) as H.
  destruct (get_position_of_interest e) as [o e']. simpl in *. now subst.
Qed.

Lemma get_position_of_interest_episode (ep : Episode) (e : Env) :
  fst (get_position_of_interest (set_episode ep e))
  = fst (get_position_of_interest e).
Proof.
  unfold get_position_of_interest, bind, config_item, get. simpl.
  destruct (cfg_task (config e)) as [task|]; [|reflexivity].
  destruct (String.eqb task "pointgoal"); [reflexivity|].
  destruct (String.eqb task "reaching"); reflexivity.
Qed.

Lemma get_termination_value (e : Env) (poi : vec3) :
  fst (get_position_of_interest e) = Return (Some poi) ->
  let e1 :=
    set_episode (with_current_step (S (current_step (episode e))) (episode e))
                e in
  let dist := l2_distance (target_pos (episode e)) poi in
  let metadata (b : bool) : info :=
    [("success", IBool b);
     ("episode_length", IInt (S (current_step (episode e))))] in
  get_termination e
  = if Rltb dist (dist_tol (settings e))
    then (Return (true, metadata true), e1)
    else if Rgtb (vz (robot_position (world e))) 0.1
         then (Return (true, metadata false), snd (print "death" e1))
         else if reached (S (current_step (episode e))) (max_step (settings e))
              then (Return (true, metadata false), e1)
              else (Return (false, []), e1).
Proof.
  intros Hpoi e1 dist metadata. unfold get_termination.
  unfold bind at 1. unfold update_episode at 1, modify. fold e1.
  unfold bind at 1. unfold get at 1.
  unfold bind at 1.
  rewrite (get_position_of_interest_value e1).
  unfold e1 at 1. rewrite get_position_of_interest_episode, Hpoi.
  unfold bind at 1. unfold py_l2_distance, ret at 1.
  change (target_pos (episode e1)) with (target_pos (episode e)).
  change (settings e1) with (settings e).
  change (world e1) with (world e).
  change (current_step (episode e1)) with (S (current_step (episode e))).
  fold dist.
  destruct (Rltb dist (dist_tol (settings e))); [reflexivity|].
  destruct (Rgtb (vz (robot_position (world e))) 0.1); [reflexivity|].
  destruct (reached (S (current_step (episode e))) (max_step (settings e)));
    reflexivity.
Qed.

(** C2.  [get_termination] counts the step and then tests success, fatal and
    timeout in that order, the first that holds deciding: success yields
    done with [success = True] also when the robot is above the safety
    height; fatal and timeout yield done with [success = False], fatal alone
    printing [death]; otherwise the step is not terminal and the metadata is
    empty.  On termination the metadata holds the success flag and the
    episode length. *)
Theorem get_termination_priority (e : Env) (poi : vec3) :
  fst (get_position_of_interest e) = Return (Some poi) ->
  let n := S (current_step (episode e)) in
  let dist := l2_distance (target_pos (episode e)) poi in
  let success := dist < dist_tol (settings e) in
  let fatal := vz (robot_position (world e)) > 0.1 in
  let timeout := reached n (max_step (settings e)) = true in
  let metadata (b : bool) : info :=
    [("success", IBool b); ("episode_length", IInt n)] in
  let e' := snd (get_termination e) in
  current_step (episode e') = n
  /\ (success ->
      fst (get_termination e) = Return (true, metadata true)
      /\ stdout e' = stdout e)
  /\ (~ success -> fatal ->
      fst (get_termination e) = Return (true, metadata false)
      /\ stdout e' = stdout e ++ ["death"])
  /\ (~ success -> ~ fatal -> timeout ->
      fst (get_termination e) = Return (true, metadata false)
      /\ stdout e' = stdout e)
  /\ (~ success -> ~ fatal -> ~ timeout ->
      fst (get_termination e) = Return (false, [])
      /\ stdout e' = stdout e).
Proof.
  intros Hpoi n dist success fatal timeout metadata e'.
  subst e'. rewrite (get_termination_value e poi Hpoi).
  fold n dist. unfold Rgtb.
  destruct (Rltb dist (dist_tol (settings e))) eqn:Hs;
    [ apply Rltb_true in Hs | apply Rltb_false in Hs ].
  { repeat split; intros; try reflexivity;
      unfold success in *; exfalso; lra. }
  destruct (Rltb 0.1 (vz (robot_position (world e)))) eqn:Hf;
    [ apply Rltb_true in Hf | apply Rltb_false in Hf ].
  { repeat split; intros; try reflexivity;
      unfold success, fatal in *; exfalso; lra. }
  destruct (reached n (max_step (settings e))) eqn:Ht.
  { repeat split; intros; try reflexivity;
      unfold success, fatal, timeout in *; exfalso; try lra; congruence. }
  repeat split; intros; try reflexivity;
    unfold success, fatal, timeout in *; exfalso; try lra; congruence.
Qed.

(** ** The reward, term by term *)

Lemma NavigateEnv_get_potential_value (e : Env) (poi : vec3) :
  fst (get_position_of_interest e) = Return (Some poi) ->
  NavigateEnv_get_potential e
  = (Return (l2_distance (target_pos (episode e)) poi), e).
Proof.
  intro Hpoi. unfold NavigateEnv_get_potential.
  unfold bind at 1. unfold get at 1. unfold bind at 1.
  rewrite (get_position_of_interest_value e), Hpoi. reflexivity.
Qed.

Lemma InteractiveNavigateEnv_get_potential_value (e : Env) :
  (stage (episode e) <= 2)%nat ->
  InteractiveNavigateEnv_get_potential e = (Return (stage_potential e), e).
Proof.
  intro Hstage. unfold InteractiveNavigateEnv_get_potential, stage_potential.
  unfold bind, get.
  unfold stage_get_to_door_handle, stage_open_door, stage_get_to_target_pos.
  destruct (stage (episode e)) as [|[|[|n]]]; simpl; try reflexivity. lia.
Qed.

Lemma NavigateEnv_get_reward_value
  (e : Env) (collision_links : list ContactPoint) (poi : vec3) :
  kind e <> InteractiveNavigateEnv ->
  fst (get_position_of_interest e) = Return (Some poi) ->
  let dist := l2_distance (target_pos (episode e)) poi in
  get_reward collision_links e
  = (Return (slack_term e + shaping_term e dist + energy_term e
             + stall_torque_term e
             + collision_term e (map linkIndexA collision_links)
             + success_bonus e dist),
     set_episode
       (with_normalized_potential (dist / initial_potential (episode e))
                                  (episode e)) e).
Proof.
  intros K Hpoi dist.
  assert (H : get_reward collision_links e
              = NavigateEnv_get_reward collision_links e).
  { unfold get_reward. destruct (kind e); [reflexivity | reflexivity | congruence]. }
  assert (Hpot : get_potential e = (Return dist, e)).
  { unfold get_potential.
    destruct (kind e);
      [ apply NavigateEnv_get_potential_value, Hpoi
      | apply NavigateEnv_get_potential_value, Hpoi | congruence ]. }
  rewrite H. unfold NavigateEnv_get_reward.
  unfold bind at 1. unfold get at 1. unfold bind at 1. rewrite Hpot.
  unfold bind at 1. unfold update_episode at 1, modify.
  set (e1 := set_episode _ e).
  unfold bind at 1.
  rewrite (get_position_of_interest_value e1).
  unfold e1 at 1. rewrite get_position_of_interest_episode, Hpoi.
  unfold bind at 1. unfold py_l2_distance, ret. fold dist.
  f_equal. f_equal.
  unfold slack_term, shaping_term, energy_term, stall_torque_term,
    collision_term, success_bonus.
  destruct (Rltb dist (dist_tol (settings e))); ring.
Qed.

Lemma InteractiveNavigateEnv_get_reward_value
  (e : Env) (collision_links : list ContactPoint) (poi : vec3) :
  kind e = InteractiveNavigateEnv ->
  (stage (episode e) <= 2)%nat ->
  fst (get_position_of_interest e) = Return (Some poi) ->
  let dist := l2_distance (target_pos (episode e)) poi in
  let potential := stage_potential e in
  let transition := negb (stage (episode e) =? prev_stage (episode e))%nat in
  get_reward collision_links e
  = (Return ((if transition then milestone_bonus e
              else shaping_term e potential)
             + clipped_energy_term e + clipped_stall_torque_term e
             + collision_term e (penalized_contacts e collision_links)
             + success_bonus e dist - failure_penalty e),
     set_episode
       (if transition
        then with_normalized_potential 1
               (with_initial_potential potential (episode e))
        else with_normalized_potential
               (potential / initial_potential (episode e)) (episode e)) e).
Proof.
  intros K Hstage Hpoi dist potential transition.
  assert (H : get_reward collision_links e
              = InteractiveNavigateEnv_get_reward collision_links e).
  { unfold get_reward. now rewrite K. }
  assert (Hpot : get_potential e = (Return potential, e)).
  { unfold get_potential. rewrite K.
    apply InteractiveNavigateEnv_get_potential_value, Hstage. }
  rewrite H. unfold InteractiveNavigateEnv_get_reward.
  unfold bind at 1. unfold get at 1. fold transition.
  unfold bind at 1.
  destruct transition.
  - unfold bind at 1. rewrite Hpot.
    unfold bind at 1. unfold update_episode at 1, modify.
    unfold bind at 1. unfold update_episode at 1, modify.
    unfold ret at 1.
    set (e1 := set_episode _ (set_episode _ e)).
    unfold bind at 1.
    rewrite (get_position_of_interest_value e1).
    unfold e1 at 1. rewrite !get_position_of_interest_episode, Hpoi.
    unfold bind at 1. unfold py_l2_distance, ret. fold dist.
    f_equal. f_equal.
    unfold milestone_bonus, clipped_energy_term, clipped_stall_torque_term,
      collision_term, penalized_contacts, success_bonus, failure_penalty.
    destruct (Rltb dist (dist_tol (settings e)));
      destruct (Rgtb (vz (robot_position (world e))) 0.1); ring.
  - unfold bind at 1. rewrite Hpot.
    unfold bind at 1. unfold update_episode at 1, modify.
    unfold ret at 1.
    set (e1 := set_episode _ e).
    unfold bind at 1.
    rewrite (get_position_of_interest_value e1).
    unfold e1 at 1. rewrite get_position_of_interest_episode, Hpoi.
    unfold bind at 1. unfold py_l2_distance, ret. fold dist.
    f_equal. f_equal.
    unfold shaping_term, clipped_energy_term, clipped_stall_torque_term,
      collision_term, penalized_contacts, success_bonus, failure_penalty.
    destruct (Rltb dist (dist_tol (settings e)));
      destruct (Rgtb (vz (robot_position (world e))) 0.1); ring.
Qed.

Lemma stage_transitions_record_previous (e : Env) :
  prev_stage (episode (snd (stage_transitions e))) = stage (episode e).
Proof.
  unfold stage_transitions.
  unfold bind, get, update_episode, modify, assert_, print, raise, ret,
    stage_get_to_door_handle, stage_open_door, stage_get_to_target_pos.
  simpl.
  repeat match goal with
         | |- context [if ?b then _ else _] => destruct b; simpl
         | |- context [match cid (episode e) with _ => _ end] =>
             destruct (cid (episode e)); simpl
         end;
    reflexivity.
Qed.

(** C3.  In the multi-stage environment, a step call records the stage it
    starts with as the previous stage before its stage tests, so at reward
    time the two differ exactly when a transition occurred; and when
    [get_reward] runs with the stage different from the previous stage, it
    sets [initial_potential] to the potential of the new stage and
    [normalized_potential] to 1, and the reward is half the success reward
    plus the energy, stall-torque, collision, success and failure terms: no
    shaping term. *)
Theorem stage_transition_rebaselines
  (e : Env) (collision_links : list ContactPoint) (poi : vec3) :
  kind e = InteractiveNavigateEnv ->
  stage (episode e) <> prev_stage (episode e) ->
  (stage (episode e) <= 2)%nat ->
  fst (get_position_of_interest e) = Return (Some poi) ->
  let e' := snd (get_reward collision_links e) in
  let dist := l2_distance (target_pos (episode e)) poi in
  fst (get_potential e) = Return (stage_potential e)
  /\ initial_potential (episode e') = stage_potential e
  /\ normalized_potential (episode e') = 1
  /\ fst (get_reward collision_links e)
     = Return (success_reward (settings e) / 2
               + clipped_energy_term e + clipped_stall_torque_term e
               + collision_term e (penalized_contacts e collision_links)
               + success_bonus e dist - failure_penalty e)
  /\ (forall e0,
        prev_stage (episode (snd (stage_transitions e0)))
        = stage (episode e0)).
Proof.
  intros K Hne Hstage Hpoi e' dist. subst e'.
  rewrite (InteractiveNavigateEnv_get_reward_value e collision_links poi
             K Hstage Hpoi).
  apply Nat.eqb_neq in Hne. rewrite Hne. simpl.
  split; [|split; [reflexivity|split; [reflexivity|split; [reflexivity|]]]].
  - unfold get_potential. rewrite K.
    now rewrite InteractiveNavigateEnv_get_potential_value.
  - apply stage_transitions_record_previous.
Qed.

(** C8, as the code has it.  With a positive shaping weight and a positive
    baseline, when no stage transition occurred and the potential is
    strictly below the one the previous step recorded, the shaping term of
    [get_reward] is strictly positive.  In the base environment the
    potential is the distance from the position of interest to the goal; in
    the multi-stage environment it is the potential of the current stage. *)
Theorem shaping_term_positive
  (e : Env) (collision_links : list ContactPoint) (poi : vec3)
  (previous : R) :
  fst (get_position_of_interest e) = Return (Some poi) ->
  (kind e = InteractiveNavigateEnv ->
   stage (episode e) = prev_stage (episode e)
   /\ (stage (episode e) <= 2)%nat) ->
  0 < potential_reward_weight (settings e) ->
  0 < initial_potential (episode e) ->
  normalized_potential (episode e) = previous / initial_potential (episode e) ->
  let dist := l2_distance (target_pos (episode e)) poi in
  let potential :=
    match kind e with
    | InteractiveNavigateEnv => stage_potential e
    | _ => dist
    end in
  potential < previous ->
  fst (get_potential e) = Return potential
  /\ 0 < shaping_term e potential
  /\ exists rest,
       fst (get_reward collision_links e)
       = Return (shaping_term e potential + rest)
       /\ rest
          = match kind e with
            | InteractiveNavigateEnv =>
                clipped_energy_term e + clipped_stall_torque_term e
                + collision_term e (penalized_contacts e collision_links)
                + success_bonus e dist - failure_penalty e
            | _ =>
                slack_term e + energy_term e + stall_torque_term e
                + collision_term e (map linkIndexA collision_links)
                + success_bonus e dist
            end.
Proof.
  intros Hpoi Hstage Hw Hip Hnp dist potential Hless.
  assert (Hpos : 0 < shaping_term e potential).
  { unfold shaping_term. rewrite Hnp.
    apply Rmult_lt_0_compat; [|assumption].
    unfold Rdiv. rewrite <- Rmult_minus_distr_r.
    apply Rmult_lt_0_compat; [lra | now apply Rinv_0_lt_compat]. }
  destruct (kind e) eqn:K.
  - split; [|split; [assumption|]].
    + unfold get_potential. rewrite K.
      now rewrite (NavigateEnv_get_potential_value e poi Hpoi).
    + eexists. split; [|reflexivity].
      rewrite (NavigateEnv_get_reward_value e collision_links poi);
        [| congruence | assumption ].
      simpl. f_equal. fold dist. subst potential. ring.
  - split; [|split; [assumption|]].
    + unfold get_potential. rewrite K.
      now rewrite (NavigateEnv_get_potential_value e poi Hpoi).
    + eexists. split; [|reflexivity].
      rewrite (NavigateEnv_get_reward_value e collision_links poi);
        [| congruence | assumption ].
      simpl. f_equal. fold dist. subst potential. ring.
  - destruct (Hstage eq_refl) as [Heq Hle].
    split; [|split; [assumption|]].
    + unfold get_potential. rewrite K.
      now rewrite InteractiveNavigateEnv_get_potential_value.
    + eexists. split; [|reflexivity].
      rewrite (InteractiveNavigateEnv_get_reward_value e collision_links poi
                 K Hle Hpoi).
      apply Nat.eqb_eq in Heq. rewrite Heq. simpl. f_equal.
      fold dist. subst potential. ring.
Qed.

(** C9, as the code has it.  In the base environment the reward is the sum
    the specification gives: slack, shaping, energy, stall torque, collision
    and success bonus.  In the multi-stage environment the reward has no
    slack term: it is the shaping term (on a stage transition, half the
    success reward instead), the clipped energy and stall-torque terms, the
    collision term over the contacts that are not with the door handle, the
    success bonus and the failure penalty. *)
Theorem reward_composition
  (e : Env) (collision_links : list ContactPoint) (poi : vec3) :
  fst (get_position_of_interest e) = Return (Some poi) ->
  let dist := l2_distance (target_pos (episode e)) poi in
  (kind e <> InteractiveNavigateEnv ->
   fst (get_reward collision_links e)
   = Return (spec_reward false e dist dist (energy_term e)
               (stall_torque_term e) (map linkIndexA collision_links)))
  /\ (kind e = InteractiveNavigateEnv ->
      (stage (episode e) <= 2)%nat ->
      let ids := penalized_contacts e collision_links in
      let composed :=
        spec_reward true e (stage_potential e) dist (clipped_energy_term e)
          (clipped_stall_torque_term e) ids in
      (stage (episode e) = prev_stage (episode e) ->
       fst (get_reward collision_links e)
       = Return (shaping_term e (stage_potential e)
                 + clipped_energy_term e + clipped_stall_torque_term e
                 + collision_term e ids + success_bonus e dist
                 - failure_penalty e)
       /\ fst (get_reward collision_links e)
          = Return (composed - slack_term e))
      /\ (stage (episode e) <> prev_stage (episode e) ->
          fst (get_reward collision_links e)
          = Return (composed - slack_term e
                    - shaping_term e (stage_potential e)
                    + milestone_bonus e))).
Proof.
  intros Hpoi dist. split.
  - intro K.
    rewrite (NavigateEnv_get_reward_value e collision_links poi K Hpoi).
    simpl. f_equal. unfold spec_reward. fold dist. ring.
  - intros K Hstage ids composed.
    rewrite (InteractiveNavigateEnv_get_reward_value e collision_links poi
               K Hstage Hpoi).
    fold dist ids. split.
    + intro Heq. apply Nat.eqb_eq in Heq. rewrite Heq. simpl.
      split; f_equal. unfold composed, spec_reward. ring.
    + intro Hne. apply Nat.eqb_neq in Hne. rewrite Hne. simpl.
      f_equal. unfold composed, spec_reward. ring.
Qed.

(** ** The stage machine *)

Lemma keeps_bind_get {X B : Type} (proj : Env -> X) (f : Env -> M B) :
  (forall e, proj (snd (f e e)) = proj e) -> keeps proj (bind get f).
Proof. intros H e. apply H. Qed.

Lemma reset_keeps_ctor (fuel : nat) : keeps ctor (reset fuel).
Proof.
  assert (Hplace : keeps ctor (reset_initial_and_target_pos fuel)).
  { apply reset_initial_and_target_pos_keeps; reflexivity. }
  assert (Hbase : keeps ctor (NavigateEnv_reset fuel)).
  { unfold NavigateEnv_reset. frame. }
  intro e. unfold reset. destruct (kind e); try apply Hbase.
  revert e. change (keeps ctor (InteractiveNavigateEnv_reset fuel)).
  unfold InteractiveNavigateEnv_reset, reset_interactive_objects. frame.
Qed.

Lemma get_reward_keeps_stage (collision_links : list ContactPoint) :
  keeps stage_within_episode (get_reward collision_links).
Proof.
  intro e. unfold get_reward. destruct (kind e).
  - revert e.
    change (keeps stage_within_episode (NavigateEnv_get_reward collision_links)).
    unfold NavigateEnv_get_reward. frame.
  - revert e.
    change (keeps stage_within_episode (NavigateEnv_get_reward collision_links)).
    unfold NavigateEnv_get_reward. frame.
  - revert e.
    change (keeps stage_within_episode
              (InteractiveNavigateEnv_get_reward collision_links)).
    unfold InteractiveNavigateEnv_get_reward. frame.
Qed.

Lemma get_termination_keeps_stage : keeps stage_within_episode get_termination.
Proof. unfold get_termination. frame. Qed.

Lemma run_simulation_keeps_stage : keeps stage_within_episode run_simulation.
Proof. unfold run_simulation. frame. Qed.

Lemma NavigateEnv_step_keeps_stage (fuel : nat) (action : list R) :
  keeps stage_within_episode (NavigateEnv_step fuel action).
Proof.
  unfold NavigateEnv_step.
  apply keeps_bind; [frame | intros _].
  apply keeps_bind; [apply run_simulation_keeps_stage | intro collision_links].
  apply keeps_bind; [frame | intro state].
  apply keeps_bind; [apply get_reward_keeps_stage | intro reward].
  apply keeps_bind; [apply get_termination_keeps_stage | intros [done info]].
  apply keeps_bind_get. intro e.
  destruct done; simpl; [|reflexivity].
  destruct (automatic_reset (ctor e)) eqn:A; [|reflexivity].
  assert (H : keeps ctor
                (state0 <- reset fuel ;;
                 ret (state0, reward, true,
                      dict_set "last_observation" (IObs state) info))).
  { apply keeps_bind; [apply reset_keeps_ctor | intro; apply keeps_ret]. }
  specialize (H e). unfold stage_within_episode. rewrite H, A. reflexivity.
Qed.

Lemma within_episode (e e' : Env) :
  stage_within_episode e' = stage_within_episode e ->
  automatic_reset (ctor e) = false ->
  ctor e' = ctor e /\ stage (episode e') = stage (episode e).
Proof.
  unfold stage_within_episode. intros H A. rewrite A in H.
  destruct (automatic_reset (ctor e')) eqn:A'.
  - inversion H.
  - injection H as Hc Hs. split; assumption.
Qed.

Lemma step_stage (fuel : nat) (action : list R) (e : Env) :
  automatic_reset (ctor e) = false ->
  let e' := snd (step fuel action e) in
  ctor e' = ctor e
  /\ (stage (episode e') = stage (episode e)
      \/ (stage (episode e) = 0 /\ stage (episode e') = 1)
      \/ (stage (episode e) = 1 /\ stage (episode e') = 2)
      \/ (stage (episode e) = 0 /\ stage (episode e') = 2))%nat.
Proof.
  intros A e'. subst e'. unfold step. destruct (kind e).
  - destruct (within_episode _ _ (NavigateEnv_step_keeps_stage fuel action e) A)
      as [Hc Hs]. split; [assumption | left; assumption].
  - destruct (within_episode _ _ (NavigateEnv_step_keeps_stage fuel action e) A)
      as [Hc Hs]. split; [assumption | left; assumption].
  - unfold InteractiveNavigateEnv_step, stage_transitions.
    unfold bind, get, update_episode, modify, assert_, print, raise, ret,
      stage_get_to_door_handle, stage_open_door, stage_get_to_target_pos.
    simpl.
    remember (stage (episode e)) as s eqn:S.
    destruct s as [|[|n]]; simpl;
      repeat match goal with
             | |- context [stage (episode e)] => rewrite <- S; simpl
             | |- context [if ?b then _ else _] => destruct b; simpl
             | |- context [match cid (episode e) with _ => _ end] =>
                 destruct (cid (episode e)); simpl
             end;
      try match goal with
          | |- context [NavigateEnv_step fuel action ?e1] =>
              destruct (within_episode _ _
                          (NavigateEnv_step_keeps_stage fuel action e1) A)
                as [Hc Hs]; rewrite Hc, Hs; simpl
          end;
      auto 6.
Qed.

(** Both stage tests can hold in one call: the end effector is at the handle
    while the door is already past the opening angle. *)
Lemma InteractiveNavigateEnv_step_two_stages
  (fuel : nat) (action : list R) (e : Env) :
  kind e = InteractiveNavigateEnv ->
  automatic_reset (ctor e) = false ->
  stage (episode e) = stage_get_to_door_handle ->
  cid (episode e) = None ->
  l2_distance (door_handle_position (world e))
              (jr_end_effector_link_position (world e)) < 0.2 ->
  door_joint_position (world e) < door_angle (ctor e) ->
  stage (episode (snd (step fuel action e))) = stage_get_to_target_pos.
Proof.
  intros K A S Hcid Hdist Hdoor.
  apply Rltb_true in Hdist. apply Rltb_true in Hdoor.
  unfold step. rewrite K. unfold InteractiveNavigateEnv_step, stage_transitions.
  unfold bind, get, update_episode, modify, assert_, print, raise, ret,
    stage_get_to_door_handle, stage_open_door, stage_get_to_target_pos in *.
  simpl. rewrite S, Hdist, Hcid. simpl. rewrite Hdoor. simpl.
  match goal with
  | |- context [NavigateEnv_step fuel action ?e1] =>
      destruct (within_episode _ _
                  (NavigateEnv_step_keeps_stage fuel action e1) A)
        as [_ Hs]; rewrite Hs
  end.
  reflexivity.
Qed.

Lemma run_steps_stage (fuel : nat) (actions : list (list R)) :
  forall e, automatic_reset (ctor e) = false ->
    (stage (episode e) <= stage (episode (run_steps fuel actions e))
     <= Nat.max (stage (episode e)) 2)%nat.
Proof.
  induction actions as [|action rest IH]; intros e A; simpl.
  - lia.
  - destruct (step_stage fuel action e A) as [Hc Hs].
    assert (A' : automatic_reset (ctor (snd (step fuel action e))) = false)
      by now rewrite Hc.
    specialize (IH _ A'). lia.
Qed.

(** C6, as the code has it.  Within an episode (no automatic reset), a step
    call leaves the stage where it is or moves it forward: from 0 to 1, from
    1 to 2, or, when both tests hold in the same call, from 0 through 1 to
    2.  Over any sequence of step calls the stage never decreases and never
    goes past the last stage it could reach. *)
Theorem stage_never_decreases
  (fuel : nat) (e : Env) (action : list R) (actions : list (list R)) :
  automatic_reset (ctor e) = false ->
  let s := stage (episode e) in
  let s' := stage (episode (snd (step fuel action e))) in
  (s' = s \/ (s = 0 /\ s' = 1) \/ (s = 1 /\ s' = 2) \/ (s = 0 /\ s' = 2))%nat
  /\ (s' <= s + 2)%nat
  /\ (s <= stage (episode (run_steps fuel actions e)) <= Nat.max s 2)%nat.
Proof.
  intros A s s'.
  destruct (step_stage fuel action e A) as [_ Hs]. fold s s' in Hs.
  split; [exact Hs|]. split; [lia|].
  apply run_steps_stage, A.
Qed.

(** ** reset *)

Lemma InteractiveNavigateEnv_place_start_never_raises (fuel : nat) :
  forall e x, fst (InteractiveNavigateEnv_place_start fuel e) <> Raise x.
Proof.
  induction fuel as [|n IH]; intros e x; simpl.
  - discriminate.
  - unfold bind, update_world, update_episode, modify, get, ret. simpl.
    destruct (placement_ticks _ _ _) as [links w]. simpl.
    destruct (py_in _ _).
    + apply IH.
    + discriminate.
Qed.

Lemma placement_ticks_door (n : nat) :
  leaves_door_joint simulator_step ->
  forall links w,
    door_joint_position (snd (placement_ticks n links w))
    = door_joint_position w.
Proof.
  intro Hstep. induction n as [|n IH]; intros links w; simpl.
  - reflexivity.
  - rewrite IH. apply Hstep.
Qed.

Lemma settle_ticks_door (n : nat) :
  leaves_door_joint simulator_step ->
  forall w, door_joint_position (Nat.iter n simulator_step w)
            = door_joint_position w.
Proof.
  intros Hstep w. induction n as [|n IH]; simpl.
  - reflexivity.
  - rewrite Hstep. exact IH.
Qed.

Lemma InteractiveNavigateEnv_place_start_door (fuel : nat) :
  door_left_alone C ->
  forall e,
    door_joint_position
      (world (snd (InteractiveNavigateEnv_place_start fuel e)))
    = door_joint_position (world e).
Proof.
  intros [Hstep [_ [Hpos Horn]]].
  induction fuel as [|n IH]; intro e; simpl.
  - reflexivity.
  - unfold bind, update_world, update_episode, modify, get, ret. simpl.
    match goal with
    | |- context [placement_ticks ?k ?l ?w0] =>
        pose proof (placement_ticks_door k Hstep l w0) as Hticks;
        destruct (placement_ticks k l w0) as [links w]
    end.
    simpl in *.
    destruct (py_in _ _).
    + rewrite IH. simpl. rewrite Hticks, Horn. simpl. apply Hpos.
    + simpl. rewrite Hticks, Horn. simpl. apply Hpos.
Qed.

Lemma InteractiveNavigateEnv_placement_raises (fuel : nat) (e : Env) (x : exn) :
  fst (InteractiveNavigateEnv_reset_initial_and_target_pos fuel e) = Raise x ->
  physics_timestep (ctor e) = 0.
Proof.
  unfold InteractiveNavigateEnv_reset_initial_and_target_pos.
  unfold bind at 1.
  pose proof (InteractiveNavigateEnv_place_start_never_raises fuel e) as Hnr.
  pose proof (InteractiveNavigateEnv_place_start_keeps ctor
                (fun _ _ => eq_refl) (fun _ _ => eq_refl) fuel e) as Hctor.
  destruct (InteractiveNavigateEnv_place_start fuel e) as [[[] | y |] e1];
    simpl in Hnr, Hctor.
  - unfold bind, get, update_world, update_episode, modify, raise, ret.
    rewrite <- Hctor.
    destruct (Req_dec_T (physics_timestep (ctor e1)) 0); simpl.
    + intros _. assumption.
    + discriminate.
  - intros _. exfalso. now apply (Hnr y).
  - discriminate.
Qed.

Lemma InteractiveNavigateEnv_placement_unfinished (fuel : nat) (e : Env) :
  fst (InteractiveNavigateEnv_reset_initial_and_target_pos fuel e) = Unfinished ->
  fst (InteractiveNavigateEnv_place_start fuel e) = Unfinished.
Proof.
  unfold InteractiveNavigateEnv_reset_initial_and_target_pos.
  unfold bind at 1.
  destruct (InteractiveNavigateEnv_place_start fuel e) as [[[] | y |] e1].
  - unfold bind, get, update_world, update_episode, modify, raise, ret.
    destruct (Req_dec_T (physics_timestep (ctor e1)) 0); discriminate.
  - discriminate.
  - reflexivity.
Qed.

Lemma InteractiveNavigateEnv_placement_door (fuel : nat) (e : Env) :
  door_left_alone C ->
  door_joint_position
    (world (snd (InteractiveNavigateEnv_reset_initial_and_target_pos fuel e)))
  = door_joint_position (world e).
Proof.
  intro Hdoor.
  pose proof (InteractiveNavigateEnv_place_start_door fuel Hdoor e) as Hstart.
  destruct Hdoor as [Hstep _].
  unfold InteractiveNavigateEnv_reset_initial_and_target_pos.
  unfold bind at 1.
  destruct (InteractiveNavigateEnv_place_start fuel e) as [[[] | y |] e1];
    simpl in Hstart; try exact Hstart.
  unfold bind, get, update_world, update_episode, modify, raise, ret.
  destruct (Req_dec_T (physics_timestep (ctor e1)) 0); simpl.
  - exact Hstart.
  - now rewrite settle_ticks_door.
Qed.

Lemma reset_interactive_objects_value (e : Env) :
  exists w,
    reset_interactive_objects e
    = (Return tt, set_episode (with_cid None (episode e)) (set_world w e))
    /\ door_joint_position w = 0 /\ door_joint_velocity w = 0.
Proof.
  unfold reset_interactive_objects, bind, update_world, update_episode,
    modify, get, ret. simpl.
  destruct (cid (episode e)) as [c|] eqn:Hc; simpl.
  - eexists. split; [reflexivity|]. split; reflexivity.
  - exists (resetJointState 0 0 (world e)). split; [|split; reflexivity].
    f_equal. unfold set_episode, set_world. simpl. f_equal.
    destruct (episode e); simpl in *. now subst.
Qed.

(** What [NavigateEnv.reset] does to an environment of the multi-stage class
    that is at the first stage. *)
Lemma InteractiveNavigateEnv_base_reset (fuel : nat) (e : Env) :
  kind e = InteractiveNavigateEnv ->
  stage (episode e) = 0%nat ->
  let r := NavigateEnv_reset fuel e in
  (fst r <> Unfinished -> physics_timestep (ctor e) <> 0 ->
   stage (episode (snd r)) = 0%nat
   /\ prev_stage (episode (snd r)) = prev_stage (episode e)
   /\ cid (episode (snd r)) = cid (episode e)
   /\ normalized_potential (episode (snd r)) = 1
   /\ current_step (episode (snd r)) = 0%nat)
  /\ (door_left_alone C ->
      door_joint_position (world (snd r)) = door_joint_position (world e)).
Proof.
  intros K S r. subst r.
  destruct (NavigateEnv_reset fuel e) as [o e'] eqn:Hr.
  unfold NavigateEnv_reset in Hr.
  unfold bind at 1 in Hr. unfold update_world at 1, modify in Hr.
  set (e1 := set_world (robot_specific_reset (world e)) e) in Hr.
  unfold bind at 1 in Hr.
  pose proof (reset_initial_and_target_pos_keeps
                (fun e => (kind e, stage (episode e), prev_stage (episode e),
                           cid (episode e)))
                (fun _ _ => eq_refl) (fun _ _ => eq_refl) (fun _ _ => eq_refl)
                fuel e1) as Hcore.
  assert (Hplace : reset_initial_and_target_pos fuel e1
                   = InteractiveNavigateEnv_reset_initial_and_target_pos
                       fuel e1).
  { unfold reset_initial_and_target_pos.
    change (kind e1) with (kind e). now rewrite K. }
  pose proof (InteractiveNavigateEnv_placement_raises fuel e1) as Hraise.
  assert (Hdoor : door_left_alone C ->
                  door_joint_position
                    (world (snd (reset_initial_and_target_pos fuel e1)))
                  = door_joint_position (world e)).
  { intro Hd. rewrite Hplace.
    rewrite (InteractiveNavigateEnv_placement_door fuel e1 Hd).
    destruct Hd as [_ [Hreset _]]. apply Hreset. }
  rewrite <- Hplace in Hraise. clear Hplace.
  destruct (reset_initial_and_target_pos fuel e1) as [[[] | x |] e2];
    simpl in Hcore, Hraise, Hdoor.
  - injection Hcore as Hk Hs Hp Hc.
    assert (Hpot : get_potential e2 = (Return (stage_potential e2), e2)).
    { unfold get_potential. rewrite Hk, K.
      apply InteractiveNavigateEnv_get_potential_value. rewrite Hs, S. lia. }
    unfold bind at 1 in Hr. rewrite Hpot in Hr.
    unfold bind at 1 in Hr. unfold update_episode at 1, modify in Hr.
    unfold bind at 1 in Hr. unfold update_episode at 1, modify in Hr.
    unfold bind at 1 in Hr. unfold update_episode at 1, modify in Hr.
    match type of Hr with
    | get_state [] ?e3 = _ =>
        pose proof (get_state_reads [] e3) as Hread; rewrite Hr in Hread
    end.
    simpl in Hread. subst e'. simpl.
    split; [intros _ _; repeat split; congruence | assumption].
  - injection Hr as <- <-. simpl. split; [|assumption].
    intros _ Hx. exfalso. apply Hx. now apply (Hraise x).
  - injection Hr as <- <-. simpl. split; [|assumption].
    intros Hx. now exfalso.
Qed.

(** C10.  After a [reset] call of the multi-stage environment that came to
    an end (the physics time step being non-zero), whatever the episode
    before it: the stage and the previous stage
    are the first stage, [normalized_potential] is 1, the step counter is 0
    and the constraint handle is [None].  [reset] begins by setting the door
    joint and its velocity to zero, and the joint is still at zero when
    [reset] ends if the physics ticks of the placement leave it alone. *)
Theorem reset_restores_start_state (fuel : nat) (e : Env) :
  kind e = InteractiveNavigateEnv ->
  fst (reset fuel e) <> Unfinished ->
  physics_timestep (ctor e) <> 0 ->
  let e' := snd (reset fuel e) in
  stage (episode e') = stage_get_to_door_handle
  /\ prev_stage (episode e') = stage_get_to_door_handle
  /\ normalized_potential (episode e') = 1
  /\ current_step (episode e') = 0%nat
  /\ cid (episode e') = None
  /\ door_joint_position (world (snd (reset_interactive_objects e))) = 0
  /\ door_joint_velocity (world (snd (reset_interactive_objects e))) = 0
  /\ (door_left_alone C -> door_joint_position (world e') = 0).
Proof.
  intros K. unfold reset. rewrite K.
  destruct (reset_interactive_objects_value e) as [w [Hrio [Hpos Hvel]]].
  set (e3 := set_episode
               (with_prev_stage 0
                  (with_stage 0 (with_cid None (episode e))))
               (set_world w e)).
  assert (Heq : InteractiveNavigateEnv_reset fuel e = NavigateEnv_reset fuel e3).
  { unfold InteractiveNavigateEnv_reset. unfold bind at 1. rewrite Hrio.
    reflexivity. }
  rewrite Heq, Hrio. simpl snd.
  intros Hfin Hzero.
  destruct (InteractiveNavigateEnv_base_reset fuel e3 K eq_refl)
    as [Hpost Hdoor].
  destruct (Hpost Hfin Hzero) as [Hs [Hp [Hc [Hn Hstep]]]].
  unfold stage_get_to_door_handle.
  repeat split; try assumption.
  intro Hd. rewrite (Hdoor Hd). exact Hpos.
Qed.

(** ** The dimension of the state vector *)

Lemma assert_value (b : bool) (e : Env) :
  assert_ b e = (if b then Return tt else Raise AssertionError, e).
Proof. destruct b; reflexivity. Qed.

Lemma wrap_to_pi_length (states : list R) (indices : list nat) (out : list R) :
  wrap_to_pi states indices = Some out ->
  List.length out = List.length states.
Proof.
  unfold wrap_to_pi.
  destruct (forallb _ indices); [|discriminate].
  intro H. injection H as <-.
  rewrite length_map, length_combine, length_seq. apply Nat.min_id.
Qed.

(** The seven entries the multi-stage class assembles. *)
Lemma InteractiveNavigateEnv_wrapped_states (a b c d f g h : R) :
  exists out, wrap_to_pi [a; b; c; d; f; g; h] [5; 6]%nat = Some out
              /\ List.length out = 7%nat.
Proof. eexists. split; reflexivity. Qed.

Lemma get_additional_states_length (e : Env) (v : list R) :
  fst (get_additional_states e) = Return v ->
  Z.of_nat (List.length v) = additional_states_dim (settings e).
Proof.
  unfold get_additional_states.
  destruct (kind e).
  1, 2: unfold NavigateEnv_get_additional_states, bind, get, config_item, ret;
    destruct (robot_rpy (world e)) as [[r p] y];
    destruct (cfg_task (config e)) as [task|]; cbv beta iota; [|discriminate];
    rewrite assert_value;
    match goal with
    | |- context [(?a =? ?b)%Z] => destruct (Z.eqb_spec a b) as [Heq | Hne]
    end; cbn [fst]; [|discriminate];
    intro H; injection H as <-; exact Heq.
  unfold InteractiveNavigateEnv_get_additional_states, bind, get, lift_option,
    ret.
  destruct (robot_rpy (world e)) as [[r p] yaw].
  destruct (wrap_to_pi _ _) as [a|]; [|discriminate].
  rewrite assert_value.
  match goal with
  | |- context [(?a =? ?b)%Z] => destruct (Z.eqb_spec a b) as [Heq | Hne]
  end; cbn [fst]; [|discriminate].
  intro H; injection H as <-; exact Heq.
Qed.

Lemma InteractiveNavigateEnv_dimension_mismatch (e : Env) :
  kind e = InteractiveNavigateEnv ->
  additional_states_dim (settings e) <> 7%Z ->
  fst (get_additional_states e) = Raise AssertionError.
Proof.
  intros K Hne. unfold get_additional_states. rewrite K.
  unfold InteractiveNavigateEnv_get_additional_states, bind, get, lift_option,
    ret.
  destruct (robot_rpy (world e)) as [[r p] yaw].
  cbn [firstn vec3_list app].
  match goal with
  | |- context [wrap_to_pi [?a; ?b; ?c; ?d; ?f; ?g; ?h] _] =>
      destruct (InteractiveNavigateEnv_wrapped_states a b c d f g h)
        as [out [Hout Hlen]]
  end.
  rewrite Hout, assert_value, Hlen.
  destruct (Z.eqb_spec (Z.of_nat 7) (additional_states_dim (settings e)));
    cbn [fst]; [|reflexivity].
  exfalso. apply Hne. symmetry. assumption.
Qed.

Lemma NavigateEnv_dimension_mismatch (e : Env) (task : string) :
  kind e <> InteractiveNavigateEnv ->
  cfg_task (config e) = Some task ->
  additional_states_dim (settings e)
  <> (if String.eqb task "reaching" then 6%Z else 3%Z) ->
  fst (get_additional_states e) = Raise AssertionError.
Proof.
  intros K Htask Hne.
  assert (H : get_additional_states e = NavigateEnv_get_additional_states e).
  { unfold get_additional_states.
    destruct (kind e); [reflexivity | reflexivity | congruence]. }
  rewrite H.
  unfold NavigateEnv_get_additional_states, bind, get, config_item, ret.
  destruct (robot_rpy (world e)) as [[r p] y]. rewrite Htask. cbv beta iota.
  rewrite assert_value.
  destruct (String.eqb task "reaching"); cbn [List.length app vec3_list];
    match goal with
    | |- context [(?a =? ?b)%Z] => destruct (Z.eqb_spec a b) as [Heq | _]
    end; cbn [fst];
    solve [reflexivity | exfalso; apply Hne; now rewrite <- Heq].
Qed.

Lemma load_value (e : Env) (out : list string) (w : World) :
  cfg_output (config e) = Some out ->
  base_env_load (config e) (world e) = Return w ->
  str_in "rgb" out = false ->
  str_in "depth" out = false ->
  (0 <= config_get (cfg_additional_states_dim (config e)) 0)%Z ->
  (0 <= config_get (cfg_auxiliary_sensor_dim (config e)) 0)%Z ->
  fst (load e) = Return tt
  /\ kind (snd (load e)) = kind e
  /\ config (snd (load e)) = config e
  /\ additional_states_dim (settings (snd (load e)))
     = config_get (cfg_additional_states_dim (config e)) 0%Z.
Proof.
  intros Hout Hload Hrgb Hdepth Hdim Haux.
  unfold load, bind, get, modify, update_episode, config_item, space, box,
    ret, raise.
  simpl. rewrite Hload, Hout, Hrgb, Hdepth. simpl.
  apply Z.ltb_ge in Hdim. apply Z.ltb_ge in Haux. rewrite Hdim, Haux. simpl.
  destruct (str_in "sensor" out); destruct (str_in "auxiliary_sensor" out);
    destruct (str_in "pointgoal" out); simpl; repeat split; reflexivity.
Qed.

(** C5, as the code has it.  [load] only records the configured
    [additional_states_dim]: with an output list and non-negative
    dimensions it succeeds whatever that dimension is.  The check is the
    assertion of [get_additional_states], reached from [reset] and [step]:
    whenever a state vector is returned its length is the configured
    dimension, and a configuration whose dimension differs from the length
    the class assembles (7 in the multi-stage class, 6 for the reaching task
    and 3 otherwise in the base class) gets an [AssertionError] there. *)
Theorem state_vector_dimension (e : Env) (out : list string) (w : World) :
  cfg_output (config e) = Some out ->
  base_env_load (config e) (world e) = Return w ->
  str_in "rgb" out = false ->
  str_in "depth" out = false ->
  (0 <= config_get (cfg_additional_states_dim (config e)) 0)%Z ->
  (0 <= config_get (cfg_auxiliary_sensor_dim (config e)) 0)%Z ->
  let e' := snd (load e) in
  let dim := config_get (cfg_additional_states_dim (config e)) 0%Z in
  fst (load e) = Return tt
  /\ additional_states_dim (settings e') = dim
  /\ (forall v, fst (get_additional_states e') = Return v ->
               Z.of_nat (List.length v) = dim)
  /\ (kind e = InteractiveNavigateEnv -> dim <> 7%Z ->
      fst (get_additional_states e') = Raise AssertionError)
  /\ (kind e <> InteractiveNavigateEnv ->
      forall task, cfg_task (config e) = Some task ->
        dim <> (if String.eqb task "reaching" then 6%Z else 3%Z) ->
        fst (get_additional_states e') = Raise AssertionError).
Proof.
  intros Hout Hload Hrgb Hdepth Hdim Haux e' dim.
  destruct (load_value e out w Hout Hload Hrgb Hdepth Hdim Haux)
    as [Hret [Hkind [Hconfig Hset]]].
  fold e' in Hkind, Hconfig, Hset. fold dim in Hset.
  split; [assumption|]. split; [assumption|]. split; [|split].
  - intros v Hv. rewrite <- Hset. now apply get_additional_states_length.
  - intros K Hne. apply InteractiveNavigateEnv_dimension_mismatch.
    + now rewrite Hkind.
    + now rewrite Hset.
  - intros K task Htask Hne.
    apply (NavigateEnv_dimension_mismatch e' task).
    + now rewrite Hkind.
    + now rewrite Hconfig.
    + now rewrite Hset.
Qed.

(** ** Observations come to an end; contacts never reach the bump channel *)

Lemma get_auxiliary_sensor_finishes : finishes get_auxiliary_sensor.
Proof.
  intro e. unfold get_auxiliary_sensor. destruct (kind e); try discriminate.
  revert e. change (finishes InteractiveNavigateEnv_get_auxiliary_sensor).
  unfold InteractiveNavigateEnv_get_auxiliary_sensor. frame.
Qed.

Lemma channel_finishes (key : string) (value : M payload) (state : observation) :
  finishes value -> finishes (channel key value state).
Proof. intro H. unfold channel. frame. Qed.

Lemma NavigateEnv_get_state_finishes (collision_links : list pyval) :
  finishes (NavigateEnv_get_state collision_links).
Proof.
  pose proof get_auxiliary_sensor_finishes.
  unfold NavigateEnv_get_state.
  repeat (lazy zeta;
          first [ frame_step | apply channel_finishes
                | solve [auto with frames] ]).
Qed.

Lemma normalize_channels_finishes normalizer keys :
  forall state, finishes (normalize_channels normalizer keys state).
Proof. induction keys as [|key rest IH]; intro state; simpl; frame. Qed.

Lemma get_state_finishes (collision_links : list pyval) :
  finishes (get_state collision_links).
Proof.
  intro e. unfold get_state.
  destruct (kind e); try apply NavigateEnv_get_state_finishes.
  revert e.
  change (finishes (InteractiveNavigateEnv_get_state collision_links)).
  unfold InteractiveNavigateEnv_get_state.
  apply finishes_bind; [apply NavigateEnv_get_state_finishes | intro state].
  frame; apply normalize_channels_finishes.
Qed.

Lemma contact_tuple_is_no_link_id (z : Z) (collision_links : list ContactPoint) :
  py_in (PyInt z) (map PyTuple collision_links) = false.
Proof. induction collision_links as [|c l IH]; simpl; [reflexivity | exact IH]. Qed.

End Properties.

(** * The properties at sample environments *)

Lemma base_environment_never_observes_witness :
  kind (pointgoal_env NavigateEnv 10 0) <> InteractiveNavigateEnv
  /\ exists x,
       fst (get_state (C := still_world) [] (pointgoal_env NavigateEnv 10 0))
       = Raise x.
Proof.
  assert (K : kind (pointgoal_env NavigateEnv 10 0) <> InteractiveNavigateEnv)
    by discriminate.
  split; [exact K|].
  exact (proj1 (base_environment_never_observes (C := still_world)
                  (pointgoal_env NavigateEnv 10 0) [] 1%nat [] K)).
Defined.

Lemma sample_position_of_interest (k : EnvKind) (weight height : R) :
  fst (get_position_of_interest (pointgoal_env k weight height))
  = Return (Some (V3 0 0 height)).
Proof. reflexivity. Defined.

Lemma sample_distance (v : vec3) : l2_distance v v = 0.
Proof.
  unfold l2_distance.
  replace ((vx v - vx v) * (vx v - vx v) + (vy v - vy v) * (vy v - vy v)
           + (vz v - vz v) * (vz v - vz v)) with 0 by ring.
  apply sqrt_0.
Defined.

(** A robot on its target and 0.5 above the ground: success and fatal hold
    together, and the step ends as a success. *)
Lemma get_termination_priority_witness :
  fst (get_position_of_interest (pointgoal_env NavigateEnv 10 0.5))
  = Return (Some (V3 0 0 0.5))
  /\ vz (robot_position (world (pointgoal_env NavigateEnv 10 0.5))) > 0.1
  /\ fst (get_termination (pointgoal_env NavigateEnv 10 0.5))
     = Return (true, [("success", IBool true); ("episode_length", IInt 1)]).
Proof.
  split; [reflexivity|]. split; [simpl; lra|].
  refine (proj1 (proj1 (proj2 (get_termination_priority
                   (pointgoal_env NavigateEnv 10 0.5) (V3 0 0 0.5)
                   (sample_position_of_interest NavigateEnv 10 0.5))) _)).
  simpl target_pos. rewrite sample_distance. simpl. lra.
Defined.

(** Half the way through the door task, with the handle in hand, a stage
    transition has just occurred. *)
Lemma stage_transition_rebaselines_witness :
  let e := door_env 90 0 1 0 (Some 0%nat) ["sensor"] [] in
  kind e = InteractiveNavigateEnv
  /\ stage (episode e) <> prev_stage (episode e)
  /\ (stage (episode e) <= 2)%nat
  /\ fst (get_position_of_interest e) = Return (Some origin)
  /\ normalized_potential (episode (snd (get_reward [] e))) = 1.
Proof.
  intro e.
  assert (K : kind e = InteractiveNavigateEnv) by reflexivity.
  assert (Hne : stage (episode e) <> prev_stage (episode e)) by discriminate.
  assert (Hle : (stage (episode e) <= 2)%nat) by (simpl; lia).
  assert (Hpoi : fst (get_position_of_interest e) = Return (Some origin))
    by reflexivity.
  do 4 (split; [assumption|]).
  exact (proj1 (proj2 (proj2 (stage_transition_rebaselines e [] origin
                                K Hne Hle Hpoi)))).
Defined.

Lemma state_vector_dimension_witness :
  let e := pointgoal_env NavigateEnv 10 0 in
  cfg_output (config e) = Some ["sensor"]
  /\ base_env_load (Collaborators := still_world) (config e) (world e)
     = Return (world e)
  /\ str_in "rgb" ["sensor"] = false
  /\ str_in "depth" ["sensor"] = false
  /\ (0 <= config_get (cfg_additional_states_dim (config e)) 0)%Z
  /\ (0 <= config_get (cfg_auxiliary_sensor_dim (config e)) 0)%Z
  /\ fst (load (C := still_world) e) = Return tt.
Proof.
  intro e.
  assert (Hdim : (0 <= config_get (cfg_additional_states_dim (config e)) 0)%Z)
    by (simpl; lia).
  assert (Haux : (0 <= config_get (cfg_auxiliary_sensor_dim (config e)) 0)%Z)
    by (simpl; lia).
  do 4 (split; [reflexivity|]). do 2 (split; [assumption|]).
  exact (proj1 (state_vector_dimension (C := still_world) e ["sensor"]
                  (world e) eq_refl eq_refl eq_refl eq_refl Hdim Haux)).
Defined.

Lemma stage_never_decreases_witness :
  let e := door_env 90 0 0 0 None ["sensor"] [] in
  automatic_reset (ctor e) = false
  /\ (stage (episode (snd (step (C := still_world) 1 [] e)))
      <= stage (episode e) + 2)%nat.
Proof.
  intro e. split; [reflexivity|].
  exact (proj1 (proj2 (stage_never_decreases (C := still_world) 1 e [] []
                         eq_refl))).
Defined.

Lemma wrap_to_pi_half_open_witness :
  (forall i, In i [0%nat] -> (i < List.length [PI])%nat)
  /\ exists out, wrap_to_pi [PI] [0%nat] = Some out
                 /\ List.length out = 1%nat.
Proof.
  assert (H : forall i, In i [0%nat] -> (i < List.length [PI])%nat).
  { intros i [<- | []]. simpl. lia. }
  split; [exact H|].
  destruct (wrap_to_pi_half_open [PI] [0%nat] H) as [out [Hout [Hlen _]]].
  exists out. split; assumption.
Defined.

(** A robot that was 2 away from its target a step ago, the baseline, and
    now stands on it. *)
Lemma shaping_term_positive_witness :
  let e := pointgoal_env NavigateEnv 10 0 in
  fst (get_position_of_interest e) = Return (Some origin)
  /\ 0 < potential_reward_weight (settings e)
  /\ 0 < initial_potential (episode e)
  /\ normalized_potential (episode e) = 2 / initial_potential (episode e)
  /\ l2_distance (target_pos (episode e)) origin < 2
  /\ 0 < shaping_term e (l2_distance (target_pos (episode e)) origin).
Proof.
  intro e.
  assert (Hpoi : fst (get_position_of_interest e) = Return (Some origin))
    by reflexivity.
  assert (Hstage : kind e = InteractiveNavigateEnv ->
                   stage (episode e) = prev_stage (episode e)
                   /\ (stage (episode e) <= 2)%nat) by discriminate.
  assert (Hw : 0 < potential_reward_weight (settings e)) by (simpl; lra).
  assert (Hip : 0 < initial_potential (episode e)) by (simpl; lra).
  assert (Hnp : normalized_potential (episode e)
                = 2 / initial_potential (episode e)) by (simpl; lra).
  assert (Hless : l2_distance (target_pos (episode e)) origin < 2).
  { simpl target_pos. fold origin. rewrite sample_distance. lra. }
  do 5 (split; [assumption|]).
  exact (proj1 (proj2 (shaping_term_positive e [] origin 2
                         Hpoi Hstage Hw Hip Hnp Hless))).
Defined.

Lemma reward_composition_witness :
  let e := pointgoal_env NavigateEnv 10 0 in
  fst (get_position_of_interest e) = Return (Some origin)
  /\ kind e <> InteractiveNavigateEnv
  /\ fst (get_reward [] e)
     = Return (spec_reward false e
                 (l2_distance (target_pos (episode e)) origin)
                 (l2_distance (target_pos (episode e)) origin)
                 (energy_term e) (stall_torque_term e) []).
Proof.
  intro e.
  assert (Hpoi : fst (get_position_of_interest e) = Return (Some origin))
    by reflexivity.
  assert (K : kind e <> InteractiveNavigateEnv) by discriminate.
  do 2 (split; [assumption|]).
  exact (proj1 (reward_composition e [] origin Hpoi) K).
Defined.

Lemma sample_reset_finishes :
  fst (reset (C := still_world) 1
         (door_env 90 (-1) 1 1 (Some 0%nat) ["sensor"] []))
  <> Unfinished.
Proof.
  unfold reset. simpl kind. cbv iota.
  unfold InteractiveNavigateEnv_reset, NavigateEnv_reset.
  unfold reset_interactive_objects, reset_initial_and_target_pos.
  unfold bind, update_world, update_episode, modify, get, ret. simpl.
  match goal with
  | |- context [InteractiveNavigateEnv_reset_initial_and_target_pos 1 ?e0] =>
      destruct (InteractiveNavigateEnv_reset_initial_and_target_pos 1 e0)
        as [[[] | x |] e1] eqn:Hplace
  end.
  - pose proof (get_potential_finishes e1) as Hpot.
    destruct (get_potential e1) as [[p | x |] e2]; simpl in Hpot.
    + apply get_state_finishes.
    + discriminate.
    + congruence.
  - discriminate.
  - apply (f_equal fst) in Hplace. simpl fst in Hplace.
    apply (InteractiveNavigateEnv_placement_unfinished (C := still_world))
      in Hplace.
    discriminate Hplace.
Defined.

(** A reset in the middle of an episode: stage 1, the handle in hand, the
    door ajar. *)
Lemma reset_restores_start_state_witness :
  let e := door_env 90 (-1) 1 1 (Some 0%nat) ["sensor"] [] in
  kind e = InteractiveNavigateEnv
  /\ fst (reset (C := still_world) 1 e) <> Unfinished
  /\ physics_timestep (ctor e) <> 0
  /\ stage (episode (snd (reset (C := still_world) 1 e))) = 0%nat.
Proof.
  intro e.
  assert (Hts : physics_timestep (ctor e) <> 0) by (simpl; lra).
  split; [reflexivity|]. split; [exact sample_reset_finishes|].
  split; [assumption|].
  exact (proj1 (reset_restores_start_state (C := still_world) 1 e
                  eq_refl sample_reset_finishes Hts)).
Defined.

(** * Where the code departs from the specification *)

(** C4.  A step of the multi-stage environment in which the base link
    (link id -1) touches something: [run_simulation] collects the contact,
    the test [-1 in collision_links] on the contact tuples is false, the
    override of [get_state] hands no contacts on, and the bump channel of the
    observation is [False]. *)
Theorem bump_misses_base_contact :
  let e := door_env 90 0 0 0 None ["bump"] [base_contact] in
  let r := run_simulation (C := still_world) e in
  let collision_links :=
    [base_contact; base_contact; base_contact; base_contact] in
  fst r = Return collision_links
  /\ existsb (fun c => (linkIndexA c =? -1)%Z) collision_links = true
  /\ py_in (PyInt (-1)) (map PyTuple collision_links) = false
  /\ fst (get_state (C := still_world) (map PyTuple collision_links) (snd r))
     = Return [("bump", PBool false)].
Proof.
  intros e r collision_links.
  split; [reflexivity|]. split; [reflexivity|]. split; [reflexivity|].
  reflexivity.
Qed.

(** C5 as stated fails: a configuration that declares four state entries
    where three are assembled passes [load]; the assertion fails later, in
    [get_additional_states], and so in [step]. *)
Lemma mismatch_passes_load :
  let e := mismatched_env in
  cfg_additional_states_dim (config e) = Some 4%Z
  /\ fst (load (C := still_world) e) = Return tt
  /\ fst (get_additional_states (C := still_world)
            (snd (load (C := still_world) e)))
     = Raise AssertionError
  /\ fst (step (C := still_world) 1 []
            (snd (load (C := still_world) e)))
     = Raise AssertionError.
Proof.
  intro e. split; [reflexivity|]. split; [reflexivity|].
  split; reflexivity.
Qed.

(** C6 as stated fails: with the end effector at the handle and the door
    already 1.2 rad open against an opening angle of 45 degrees, one step
    call takes the stage from 0 to 2. *)
Lemma step_skips_a_stage :
  let e := door_env 45 (-1.2) 0 0 None ["sensor"] [] in
  stage (episode e) = 0%nat
  /\ stage (episode (snd (step (C := still_world) 1 [] e))) = 2%nat.
Proof.
  intro e. split; [reflexivity|].
  apply (InteractiveNavigateEnv_step_two_stages (C := still_world));
    try reflexivity.
  - simpl door_handle_position. simpl jr_end_effector_link_position.
    rewrite sample_distance. lra.
  - pose proof PI_4. simpl. lra.
Qed.

(** C7 as stated fails: pi is sent to - pi, which is not above - pi. *)
Lemma wrap_to_pi_sends_pi_to_minus_pi :
  wrap_to_pi [PI] [0%nat] = Some [- PI]
  /\ ~ (- PI < nth 0 [- PI] 0 <= PI).
Proof.
  split.
  - unfold wrap_to_pi. simpl. now rewrite wrap_angle_PI.
  - simpl. lra.
Qed.

(** C8 as stated fails: with a shaping weight of 0 the robot that came from
    2 away onto its target gets a shaping term of 0. *)
Lemma shaping_term_zero_weight :
  let e := pointgoal_env NavigateEnv 0 0 in
  let dist := l2_distance (target_pos (episode e)) origin in
  fst (get_position_of_interest e) = Return (Some origin)
  /\ fst (get_potential e) = Return dist
  /\ normalized_potential (episode e) = 2 / initial_potential (episode e)
  /\ dist < 2
  /\ ~ (0 < shaping_term e dist).
Proof.
  intros e dist. split; [reflexivity|]. split; [reflexivity|].
  split; [simpl; lra|]. split.
  - unfold dist. simpl target_pos. fold origin. rewrite sample_distance. lra.
  - unfold shaping_term. simpl. lra.
Qed.

(** C9 as stated fails: in the multi-stage environment the reward is the
    composed sum less its slack term, and the default slack is not zero. *)
Lemma reward_without_slack :
  let e := door_env 90 0 2 2 None ["sensor"] [] in
  let dist := l2_distance (target_pos (episode e)) origin in
  fst (get_position_of_interest e) = Return (Some origin)
  /\ fst (get_reward [] e)
     <> Return (spec_reward true e (stage_potential e) dist
                  (clipped_energy_term e) (clipped_stall_torque_term e)
                  (penalized_contacts e [])).
Proof.
  intros e dist.
  assert (Hpoi : fst (get_position_of_interest e) = Return (Some origin))
    by reflexivity.
  split; [exact Hpoi|].
  assert (Hle : (stage (episode e) <= 2)%nat) by (simpl; lia).
  rewrite (InteractiveNavigateEnv_get_reward_value e [] origin eq_refl Hle Hpoi).
  cbn [fst]. fold dist. intro H. injection H as H.
  change (negb (stage (episode e) =? prev_stage (episode e))%nat)
    with false in H.
  cbv iota in H. unfold spec_reward in H.
  assert (Hslack : slack_term e = -0.01) by reflexivity.
  lra.
Qed.

(** * Further properties of the environment *)

(** ** Angles *)

Lemma wrap_angle_fixed (x : R) : - PI <= x < PI -> wrap_angle x = x.
Proof.
  intros [Hlo Hhi]. unfold wrap_angle.
  pose proof PI_RGT_0 as Hpi.
  assert (Hfloor : Zfloor ((x + PI) / (PI * 2)) = 0%Z).
  { apply Zfloor_eq. simpl. split.
    - apply Rmult_le_reg_r with (PI * 2); [lra|].
      unfold Rdiv. rewrite Rmult_assoc, Rinv_l by lra. lra.
    - apply Rmult_lt_reg_r with (PI * 2); [lra|].
      unfold Rdiv. rewrite Rmult_assoc, Rinv_l by lra. lra. }
  rewrite Hfloor. simpl. lra.
Qed.

Lemma wrap_angle_periodic (x : R) (k : Z) :
  wrap_angle (x + PI * 2 * IZR k) = wrap_angle x.
Proof.
  unfold wrap_angle.
  pose proof PI_RGT_0 as Hpi.
  replace ((x + PI * 2 * IZR k + PI) / (PI * 2))
    with ((x + PI) / (PI * 2) + IZR k) by (field; lra).
  rewrite Zfloor_addz, plus_IZR. lra.
Qed.

Lemma wrap_angle_idempotent (x : R) : wrap_angle (wrap_angle x) = wrap_angle x.
Proof. apply wrap_angle_fixed, wrap_angle_range. Qed.

Lemma wrap_indexed_twice (indices : list nat) (l : list R) :
  forall s,
    let g := fun ix : nat * R =>
               if existsb (Nat.eqb (fst ix)) indices
               then wrap_angle (snd ix) else snd ix in
    map g (combine (seq s (List.length l))
                   (map g (combine (seq s (List.length l)) l)))
    = map g (combine (seq s (List.length l)) l).
Proof.
  induction l as [|x l IH]; intros s g; simpl; [reflexivity|].
  f_equal.
  - unfold g. simpl. destruct (existsb (Nat.eqb s) indices); [|reflexivity].
    apply wrap_angle_idempotent.
  - apply IH.
Qed.

Lemma wrap_indexed_fixed (indices : list nat) (l : list R) :
  forall s,
    (forall i, In (s + i)%nat indices -> (i < List.length l)%nat ->
               - PI <= nth i l 0 < PI) ->
    map (fun ix : nat * R =>
           if existsb (Nat.eqb (fst ix)) indices
           then wrap_angle (snd ix) else snd ix)
        (combine (seq s (List.length l)) l)
    = l.
Proof.
  induction l as [|x l IH]; intros s H; simpl; [reflexivity|].
  f_equal.
  - destruct (existsb (Nat.eqb s) indices) eqn:E; [|reflexivity].
    apply wrap_angle_fixed. apply existsb_eqb_In in E.
    apply (H 0%nat); [now rewrite Nat.add_0_r | simpl; lia].
  - apply IH. intros i Hi Hlen.
    apply (H (S i)); [now rewrite Nat.add_succ_r | simpl; lia].
Qed.

(** X1.  [wrap_to_pi] is idempotent; it leaves an array alone whose selected
    entries already lie between - pi (included) and pi (excluded); and the
    value it gives an angle does not change when a whole number of turns is
    added to the angle. *)
Theorem wrap_to_pi_idempotent
  (states : list R) (indices : list nat) (out : list R) :
  wrap_to_pi states indices = Some out ->
  wrap_to_pi out indices = Some out
  /\ ((forall i, In i indices -> - PI <= nth i states 0 < PI) ->
      out = states)
  /\ (forall x k, wrap_angle (x + PI * 2 * IZR k) = wrap_angle x).
Proof.
  intro H.
  pose proof (wrap_to_pi_length _ _ _ H) as Hlen.
  unfold wrap_to_pi in *. rewrite Hlen.
  destruct (forallb _ indices); [|discriminate].
  injection H as <-. split; [|split].
  - f_equal. apply wrap_indexed_twice.
  - intro Hrange. apply wrap_indexed_fixed. intros i Hi _. apply Hrange, Hi.
  - apply wrap_angle_periodic.
Qed.

(** ** Normalisation of observations *)

Lemma nth_map_combine (f : R -> R -> R) (a : list R) :
  forall b i, (i < List.length a)%nat -> List.length a = List.length b ->
    nth i (map (fun xy => f (fst xy) (snd xy)) (combine a b)) 0
    = f (nth i a 0) (nth i b 0).
Proof.
  induction a as [|x a IH]; intros [|y b] i Hi Hlen; simpl in *;
    try lia; try discriminate.
  destruct i as [|i]; [reflexivity|].
  apply IH; lia.
Qed.

Lemma broadcast2_same_length (f : R -> R -> R) (a b : list R) :
  List.length a = List.length b ->
  exists out,
    broadcast2 f a b = Some out
    /\ List.length out = List.length a
    /\ forall i, (i < List.length a)%nat ->
         nth i out 0 = f (nth i a 0) (nth i b 0).
Proof.
  intro Hlen. unfold broadcast2.
  replace (List.length a =? List.length b)%nat with true
    by (symmetry; apply Nat.eqb_eq; exact Hlen).
  eexists. split; [reflexivity|]. split.
  - rewrite length_map, length_combine, <- Hlen. apply Nat.min_id.
  - intros i Hi. now apply nth_map_combine.
Qed.

Lemma normalize_array_entries (v lo hi : list R) :
  List.length lo = List.length v ->
  List.length hi = List.length v ->
  exists out,
    normalize_array v lo hi = Some out
    /\ List.length out = List.length v
    /\ forall i, (i < List.length v)%nat ->
         nth i out 0 = normalize_entry (nth i v 0) (nth i lo 0) (nth i hi 0).
Proof.
  intros Hlo Hhi. unfold normalize_array.
  destruct (broadcast2_same_length (fun x y => (x + y) / 2) hi lo)
    as [avg [Eavg [Lavg Navg]]]; [congruence|].
  destruct (broadcast2_same_length (fun x y => (x - y) / 2) hi lo)
    as [mag [Emag [Lmag Nmag]]]; [congruence|].
  destruct (broadcast2_same_length Rmax v lo)
    as [low [Elow [Llow Nlow]]]; [congruence|].
  destruct (broadcast2_same_length Rmin low hi)
    as [clipped [Eclip [Lclip Nclip]]]; [congruence|].
  destruct (broadcast2_same_length Rminus clipped avg)
    as [centred [Ecen [Lcen Ncen]]]; [congruence|].
  destruct (broadcast2_same_length Rdiv centred mag)
    as [out [Eout [Lout Nout]]]; [congruence|].
  rewrite Eavg, Emag. simpl. rewrite Elow. simpl. rewrite Eclip. simpl.
  rewrite Ecen. simpl. exists out. split; [exact Eout|]. split; [congruence|].
  intros i Hi. unfold normalize_entry.
  rewrite Nout, Ncen, Nclip, Nlow, Navg, Nmag by congruence. reflexivity.
Qed.

Lemma normalize_entry_range (x lo hi : R) :
  lo < hi ->
  -1 <= normalize_entry x lo hi <= 1
  /\ (x <= lo -> normalize_entry x lo hi = -1)
  /\ (hi <= x -> normalize_entry x lo hi = 1)
  /\ (x = (hi + lo) / 2 -> normalize_entry x lo hi = 0).
Proof.
  intro H. unfold normalize_entry.
  assert (Hmag : 0 < (hi - lo) / 2) by lra.
  assert (Hclip : lo <= Rmin (Rmax x lo) hi <= hi).
  { unfold Rmin, Rmax.
    destruct (Rle_dec x lo); destruct (Rle_dec _ hi); lra. }
  split; [|split; [|split]].
  - split.
    + apply Rmult_le_reg_r with ((hi - lo) / 2); [exact Hmag|].
      unfold Rdiv at 2. rewrite Rmult_assoc, Rinv_l by lra. lra.
    + apply Rmult_le_reg_r with ((hi - lo) / 2); [exact Hmag|].
      unfold Rdiv at 1. rewrite Rmult_assoc, Rinv_l by lra. lra.
  - intro Hx. replace (Rmin (Rmax x lo) hi) with lo.
    + field. lra.
    + unfold Rmin, Rmax.
      destruct (Rle_dec x lo); destruct (Rle_dec _ hi); lra.
  - intro Hx. replace (Rmin (Rmax x lo) hi) with hi.
    + field. lra.
    + unfold Rmin, Rmax.
      destruct (Rle_dec x lo); destruct (Rle_dec _ hi); lra.
  - intro Hx. replace (Rmin (Rmax x lo) hi) with ((hi + lo) / 2).
    + field. lra.
    + unfold Rmin, Rmax.
      destruct (Rle_dec x lo); destruct (Rle_dec _ hi); lra.
Qed.

(** X2.  The normalisation of a channel whose bounds have the channel's
    length, each lower bound below its upper bound: every entry of the result
    lies between -1 and 1; an entry at or below its lower bound becomes -1,
    one at or above its upper bound becomes 1, and one at the midpoint
    becomes 0. *)
Theorem normalize_array_range (v lo hi : list R) :
  List.length lo = List.length v ->
  List.length hi = List.length v ->
  (forall i, (i < List.length v)%nat -> nth i lo 0 < nth i hi 0) ->
  exists out,
    normalize_array v lo hi = Some out
    /\ List.length out = List.length v
    /\ forall i, (i < List.length v)%nat ->
         -1 <= nth i out 0 <= 1
         /\ (nth i v 0 <= nth i lo 0 -> nth i out 0 = -1)
         /\ (nth i hi 0 <= nth i v 0 -> nth i out 0 = 1)
         /\ (nth i v 0 = (nth i hi 0 + nth i lo 0) / 2 -> nth i out 0 = 0).
Proof.
  intros Hlo Hhi Hlt.
  destruct (normalize_array_entries v lo hi Hlo Hhi) as [out [E [L N]]].
  exists out. split; [exact E|]. split; [exact L|].
  intros i Hi. rewrite (N i Hi).
  apply normalize_entry_range, Hlt, Hi.
Qed.

(** ** Contacts in the reward *)

Lemma collision_indicator_value (ids penalized : list Z) :
  collision_indicator ids penalized
  = if existsb (fun i => existsb (Z.eqb i) penalized) ids then 1 else 0.
Proof. reflexivity. Qed.

Lemma collision_indicator_touches (e : Env) (collision_links : list ContactPoint) :
  (touches_penalized e collision_links ->
   collision_indicator (map linkIndexA collision_links)
                       (self_collision_links (settings e)) = 1)
  /\ (~ touches_penalized e collision_links ->
      collision_indicator (map linkIndexA collision_links)
                          (self_collision_links (settings e)) = 0).
Proof.
  unfold collision_indicator, touches_penalized.
  destruct (existsb _ (map linkIndexA collision_links)) eqn:E.
  - split; [reflexivity|]. intro H. exfalso. apply H.
    apply existsb_exists in E. destruct E as [i [Hi Hp]].
    apply in_map_iff in Hi. destruct Hi as [elem [<- Helem]].
    apply existsb_exists in Hp. destruct Hp as [j [Hj Heq]].
    apply Z.eqb_eq in Heq. subst j. exists elem. split; assumption.
  - split; [|reflexivity]. intros [elem [Helem Hp]]. exfalso.
    assert (H : existsb (fun i => existsb (Z.eqb i)
                                    (self_collision_links (settings e)))
                        (map linkIndexA collision_links) = true).
    { apply existsb_exists. exists (linkIndexA elem). split.
      - now apply in_map.
      - apply existsb_exists. exists (linkIndexA elem).
        split; [assumption | apply Z.eqb_refl]. }
    congruence.
Qed.

Lemma handle_contacts_filtered (e : Env) (handle_contacts : list ContactPoint) :
  forallb (is_handle_contact e) handle_contacts = true ->
  filter (fun elem => negb ((bodyUniqueIdB elem =? door_body_id (ctor e))%Z
                            && (linkIndexB elem =? door_handle_link_id)%Z))
         handle_contacts
  = [].
Proof.
  induction handle_contacts as [|c l IH]; simpl; [reflexivity|].
  intro H. apply andb_prop in H. destruct H as [Hc Hl].
  unfold is_handle_contact in Hc. rewrite Hc. simpl. apply IH, Hl.
Qed.

Lemma bind_ext {A B : Type} (m : M A) (f g : A -> M B) (e : Env) :
  (forall a e', f a e' = g a e') -> bind m f e = bind m g e.
Proof.
  intro H. unfold bind. destruct (m e) as [[a | x |] e']; [apply H | | ];
    reflexivity.
Qed.

Lemma InteractiveNavigateEnv_get_reward_contacts
  (e : Env) (collision_links others : list ContactPoint) :
  filter (fun elem => negb ((bodyUniqueIdB elem =? door_body_id (ctor e))%Z
                            && (linkIndexB elem =? door_handle_link_id)%Z))
         collision_links
  = filter (fun elem => negb ((bodyUniqueIdB elem =? door_body_id (ctor e))%Z
                              && (linkIndexB elem =? door_handle_link_id)%Z))
           others ->
  InteractiveNavigateEnv_get_reward collision_links e
  = InteractiveNavigateEnv_get_reward others e.
Proof.
  intro H. unfold InteractiveNavigateEnv_get_reward.
  unfold bind at 1. unfold get at 1.
  symmetry. unfold bind at 1. unfold get at 1. symmetry.
  lazy zeta.
  apply bind_ext. intros reward e1. lazy zeta.
  apply bind_ext. intros poi e2.
  apply bind_ext. intros dist e3.
  rewrite H. reflexivity.
Qed.

(** X3.  In the multi-stage environment, contacts with the door handle do
    not count: [get_reward] gives the same reward, and leaves the same
    state, with and without them among the contacts of the step. *)
Theorem handle_contacts_are_ignored
  (e : Env) (collision_links handle_contacts : list ContactPoint) :
  kind e = InteractiveNavigateEnv ->
  forallb (is_handle_contact e) handle_contacts = true ->
  get_reward (handle_contacts ++ collision_links) e
  = get_reward collision_links e
  /\ get_reward (collision_links ++ handle_contacts) e
     = get_reward collision_links e.
Proof.
  intros K H. unfold get_reward. rewrite K.
  pose proof (handle_contacts_filtered e handle_contacts H) as Hnil.
  split; apply InteractiveNavigateEnv_get_reward_contacts;
    rewrite filter_app, Hnil; [reflexivity | apply app_nil_r].
Qed.

(** X4.  The collision term does not count contacts: whatever the number of
    contacts of a step, the reward is the reward of a step without contacts
    plus [collision_reward_weight] once if some contact that counts is on a
    penalized link, and plus nothing otherwise.  All contacts count in the
    base environment, those that are not with the door handle in the
    multi-stage one.  The state [get_reward] leaves does not depend on the
    contacts. *)
Theorem collision_penalty_once
  (e : Env) (collision_links : list ContactPoint) (poi : vec3) :
  fst (get_position_of_interest e) = Return (Some poi) ->
  (kind e = InteractiveNavigateEnv -> (stage (episode e) <= 2)%nat) ->
  let counted :=
    match kind e with
    | InteractiveNavigateEnv =>
        filter (fun elem => negb (is_handle_contact e elem)) collision_links
    | _ => collision_links
    end in
  exists free,
    fst (get_reward [] e) = Return free
    /\ (touches_penalized e counted ->
        fst (get_reward collision_links e)
        = Return (free + collision_reward_weight (settings e)))
    /\ (~ touches_penalized e counted ->
        fst (get_reward collision_links e) = Return free)
    /\ snd (get_reward collision_links e) = snd (get_reward [] e).
Proof.
  intros Hpoi Hstage counted.
  destruct (collision_indicator_touches e counted) as [Hyes Hno].
  destruct (kind e) eqn:K.
  1, 2: rewrite (NavigateEnv_get_reward_value e collision_links poi),
          (NavigateEnv_get_reward_value e [] poi)
          by (congruence || assumption);
        cbn [fst snd]; eexists; split; [reflexivity|];
        split; [|split; [|reflexivity]]; intro H;
        [ apply Hyes in H | apply Hno in H ];
        f_equal; unfold collision_term; subst counted; rewrite H;
        unfold collision_indicator; simpl; ring.
  specialize (Hstage eq_refl).
  rewrite (InteractiveNavigateEnv_get_reward_value e collision_links poi
             K Hstage Hpoi),
    (InteractiveNavigateEnv_get_reward_value e [] poi K Hstage Hpoi).
  cbn [fst snd]. eexists. split; [reflexivity|].
  split; [|split; [|reflexivity]]; intro H;
    [ apply Hyes in H | apply Hno in H ];
    f_equal; unfold collision_term, penalized_contacts; subst counted;
    unfold is_handle_contact in H; rewrite H;
    unfold collision_indicator; simpl; ring.
Qed.

(** ** The potential tracker *)

(** X5.  Shaping telescopes.  After [get_reward] (no stage transition),
    [normalized_potential] is the potential just measured over the unchanged
    baseline, so the shaping terms of two consecutive calls add up to the
    term of the second potential seen from the first state: the potential in
    between cancels. *)
Theorem shaping_telescopes
  (e : Env) (collision_links : list ContactPoint) (poi : vec3) :
  fst (get_position_of_interest e) = Return (Some poi) ->
  (kind e = InteractiveNavigateEnv ->
   stage (episode e) = prev_stage (episode e)
   /\ (stage (episode e) <= 2)%nat) ->
  let potential :=
    match kind e with
    | InteractiveNavigateEnv => stage_potential e
    | _ => l2_distance (target_pos (episode e)) poi
    end in
  let e' := snd (get_reward collision_links e) in
  normalized_potential (episode e')
  = potential / initial_potential (episode e)
  /\ initial_potential (episode e') = initial_potential (episode e)
  /\ forall next,
       shaping_term e potential + shaping_term e' next
       = (normalized_potential (episode e)
          - next / initial_potential (episode e))
         * potential_reward_weight (settings e).
Proof.
  intros Hpoi Hstage potential e'.
  assert (H : normalized_potential (episode e')
              = potential / initial_potential (episode e)
              /\ initial_potential (episode e') = initial_potential (episode e)
              /\ settings e' = settings e).
  { subst e' potential. destruct (kind e) eqn:K.
    1, 2: rewrite (NavigateEnv_get_reward_value e collision_links poi)
            by (congruence || assumption);
          repeat split.
    destruct (Hstage eq_refl) as [Heq Hle].
    rewrite (InteractiveNavigateEnv_get_reward_value e collision_links poi
               K Hle Hpoi).
    apply Nat.eqb_eq in Heq. rewrite Heq. repeat split. }
  destruct H as [Hnp [Hip Hset]].
  split; [exact Hnp|]. split; [exact Hip|].
  intro next. unfold shaping_term. rewrite Hnp, Hip, Hset. ring.
Qed.

(** X6.  In the multi-stage environment a robot that is within the
    tolerance of the target while above the safety height ends the episode
    as a success, yet the success reward and the failure penalty cancel in
    the reward of that step. *)
Theorem tipped_success_earns_nothing
  (e : Env) (collision_links : list ContactPoint) (poi : vec3) :
  kind e = InteractiveNavigateEnv ->
  (stage (episode e) <= 2)%nat ->
  fst (get_position_of_interest e) = Return (Some poi) ->
  l2_distance (target_pos (episode e)) poi < dist_tol (settings e) ->
  vz (robot_position (world e)) > 0.1 ->
  fst (get_termination e)
  = Return (true, [("success", IBool true);
                   ("episode_length", IInt (S (current_step (episode e))))])
  /\ fst (get_reward collision_links e)
     = Return ((if negb (stage (episode e) =? prev_stage (episode e))%nat
                then milestone_bonus e
                else shaping_term e (stage_potential e))
               + clipped_energy_term e + clipped_stall_torque_term e
               + collision_term e (penalized_contacts e collision_links)).
Proof.
  intros K Hstage Hpoi Hdist Hz. split.
  - rewrite (get_termination_value e poi Hpoi).
    apply Rltb_true in Hdist. rewrite Hdist. reflexivity.
  - rewrite (InteractiveNavigateEnv_get_reward_value e collision_links poi
               K Hstage Hpoi).
    cbn [fst]. f_equal. unfold success_bonus, failure_penalty, Rgtb.
    apply Rltb_true in Hdist. rewrite Hdist.
    assert (Hz' : Rltb 0.1 (vz (robot_position (world e))) = true)
      by (apply Rltb_true; lra).
    rewrite Hz'. ring.
Qed.

Lemma Rsum_nonneg (l : list R) : Forall (fun x => 0 <= x) l -> 0 <= Rsum l.
Proof.
  induction 1 as [|x l Hx _ IH]; simpl; lra.
Qed.

Lemma np_mean_nonneg (l : list R) :
  l <> [] -> Forall (fun x => 0 <= x) l -> 0 <= np_mean l.
Proof.
  intros Hne H. unfold np_mean.
  destruct l as [|x l]; [congruence|].
  apply Rmult_le_pos; [now apply Rsum_nonneg|].
  left. apply Rinv_0_lt_compat. apply lt_0_INR. simpl. lia.
Qed.

Lemma np_clip_nonneg (x : R) : 0 <= x -> np_clip x (-0.005) 0 = 0.
Proof.
  intro H. unfold np_clip, Rmin, Rmax.
  destruct (Rle_dec x (-0.005)); destruct (Rle_dec _ 0); lra.
Qed.

Lemma np_clip_band (x : R) : -0.005 <= np_clip x (-0.005) 0 <= 0.
Proof.
  unfold np_clip, Rmin, Rmax.
  destruct (Rle_dec x (-0.005)); destruct (Rle_dec _ 0); lra.
Qed.

(** X7.  In the multi-stage environment, for a robot with joints, the
    energy and stall-torque terms only ever lower the reward, by at most
    0.005 each; with weights that are not negative they vanish, and the
    reward is the shaping term (or the stage bonus), the collision term, the
    success reward and the failure penalty. *)
Theorem energy_terms_only_penalize
  (e : Env) (collision_links : list ContactPoint) (poi : vec3) :
  kind e = InteractiveNavigateEnv ->
  (stage (episode e) <= 2)%nat ->
  fst (get_position_of_interest e) = Return (Some poi) ->
  joint_torque (world e) <> [] ->
  List.length (joint_speeds (world e)) = List.length (joint_torque (world e)) ->
  let dist := l2_distance (target_pos (episode e)) poi in
  let first :=
    if negb (stage (episode e) =? prev_stage (episode e))%nat
    then milestone_bonus e else shaping_term e (stage_potential e) in
  let rest :=
    collision_term e (penalized_contacts e collision_links)
    + success_bonus e dist - failure_penalty e in
  (exists energy stall,
      -0.005 <= energy <= 0 /\ -0.005 <= stall <= 0
      /\ fst (get_reward collision_links e)
         = Return (first + energy + stall + rest))
  /\ (0 <= electricity_reward_weight (settings e) ->
      0 <= stall_torque_reward_weight (settings e) ->
      fst (get_reward collision_links e) = Return (first + rest)).
Proof.
  intros K Hstage Hpoi Hjoints Hshape dist first rest.
  rewrite (InteractiveNavigateEnv_get_reward_value e collision_links poi
             K Hstage Hpoi).
  cbn [fst]. fold dist first. split.
  - exists (clipped_energy_term e), (clipped_stall_torque_term e).
    split; [apply np_clip_band|]. split; [apply np_clip_band|].
    f_equal. unfold rest. ring.
  - intros He Hs.
    assert (Henergy : clipped_energy_term e = 0).
    { unfold clipped_energy_term. apply np_clip_nonneg.
      apply Rmult_le_pos; [|exact He]. apply np_mean_nonneg.
      - unfold np_mul.
        destruct (joint_torque (world e)) as [|t ts]; [congruence|].
        destruct (joint_speeds (world e)) as [|v vs]; [discriminate|].
        discriminate.
      - apply Forall_forall. intros x Hx. apply in_map_iff in Hx.
        destruct Hx as [y [<- _]]. apply Rabs_pos. }
    assert (Hstall : clipped_stall_torque_term e = 0).
    { unfold clipped_stall_torque_term. apply np_clip_nonneg.
      apply Rmult_le_pos; [|exact Hs]. apply np_mean_nonneg.
      - destruct (joint_torque (world e)); [congruence | discriminate].
      - apply Forall_forall. intros x Hx. apply in_map_iff in Hx.
        destruct Hx as [y [<- _]]. nra. }
    rewrite Henergy, Hstall. f_equal. unfold rest. ring.
Qed.

Section MoreProperties.

Context {C : Collaborators}.

#[local] Hint Resolve get_position_of_interest_reads py_l2_distance_reads
  get_potential_reads get_additional_states_reads get_auxiliary_sensor_reads
  get_state_reads get_position_of_interest_finishes py_l2_distance_finishes
  get_potential_finishes get_additional_states_finishes
  get_state_finishes : frames.

(** ** Placement *)

Lemma bind_returns {A B : Type} (m : M A) (f : A -> M B) (e e2 : Env) (b : B) :
  bind m f e = (Return b, e2) ->
  exists a e1, m e = (Return a, e1) /\ f a e1 = (Return b, e2).
Proof.
  unfold bind. destruct (m e) as [[a | x |] e1]; try discriminate.
  intro H. exists a, e1. split; [reflexivity | exact H].
Qed.

Lemma NavigateRandomEnv_place_target_far (fuel : nat) (floor : Z) :
  forall e e',
    NavigateRandomEnv_place_target fuel floor e = (Return tt, e') ->
    1 <= l2_distance (initial_pos (episode e')) (target_pos (episode e'))
    /\ initial_pos (episode e') = initial_pos (episode e).
Proof.
  induction fuel as [|n IH]; intros e e' H; simpl in H.
  - discriminate.
  - unfold bind, get, update_world, update_episode, modify, ret in H.
    simpl in H.
    destruct (Rltb _ 1) eqn:Hd.
    + apply IH in H. simpl in H. exact H.
    + injection H as <-. simpl. apply Rltb_false in Hd.
      split; [exact Hd | reflexivity].
Qed.

(** X8.  When the random placement of [NavigateRandomEnv] returns, the
    target it has drawn is at least one metre from the initial position it
    has drawn. *)
Theorem random_placement_keeps_distance (fuel : nat) (e : Env) :
  kind e = NavigateRandomEnv ->
  fst (reset_initial_and_target_pos fuel e) = Return tt ->
  let e' := snd (reset_initial_and_target_pos fuel e) in
  1 <= l2_distance (initial_pos (episode e')) (target_pos (episode e')).
Proof.
  intros K. unfold reset_initial_and_target_pos. rewrite K.
  destruct (NavigateRandomEnv_reset_initial_and_target_pos fuel e)
    as [o e'] eqn:H.
  simpl. intros ->.
  unfold NavigateRandomEnv_reset_initial_and_target_pos in H.
  apply bind_returns in H. destruct H as [floor [e1 [_ H]]].
  now apply NavigateRandomEnv_place_target_far in H.
Qed.

Lemma InteractiveNavigateEnv_place_start_origin (fuel : nat) :
  forall e e',
    InteractiveNavigateEnv_place_start fuel e = (Return tt, e') ->
    initial_pos (episode e') = V3 0 0 0.
Proof.
  induction fuel as [|n IH]; intros e e' H; simpl in H.
  - discriminate.
  - unfold bind, get, update_world, update_episode, modify, ret in H.
    simpl in H.
    destruct (placement_ticks _ _ _) as [links w]. simpl in H.
    destruct (py_in _ _).
    + now apply IH in H.
    + injection H as <-. reflexivity.
Qed.

Lemma InteractiveNavigateEnv_placement_positions (fuel : nat) (e e' : Env) :
  InteractiveNavigateEnv_reset_initial_and_target_pos fuel e = (Return tt, e') ->
  initial_pos (episode e') = V3 0 0 0
  /\ target_pos (episode e') = V3 (-100) (-100) 0.
Proof.
  unfold InteractiveNavigateEnv_reset_initial_and_target_pos.
  intro H. apply bind_returns in H. destruct H as [[] [e1 [Hstart H]]].
  apply InteractiveNavigateEnv_place_start_origin in Hstart.
  unfold bind, get, update_world, update_episode, modify, raise, ret in H.
  destruct (Req_dec_T (physics_timestep (ctor e1)) 0); [discriminate|].
  injection H as <-. simpl. split; [exact Hstart | reflexivity].
Qed.

Lemma l2_distance_nonneg (a b : vec3) : 0 <= l2_distance a b.
Proof. unfold l2_distance. apply sqrt_pos. Qed.

(** What [NavigateEnv.reset] leaves behind in the multi-stage class, when
    the placement comes to an end. *)
Lemma InteractiveNavigateEnv_base_reset_baseline (fuel : nat) (e : Env) :
  kind e = InteractiveNavigateEnv ->
  stage (episode e) = 0%nat ->
  let r := NavigateEnv_reset fuel e in
  fst r <> Unfinished -> physics_timestep (ctor e) <> 0 ->
  initial_potential (episode (snd r))
  = l2_distance (door_handle_position (world (snd r)))
                (end_effector_position (world (snd r)))
  /\ initial_pos (episode (snd r)) = V3 0 0 0
  /\ target_pos (episode (snd r)) = V3 (-100) (-100) 0
  /\ stage (episode (snd r)) = 0%nat
  /\ normalized_potential (episode (snd r)) = 1
  /\ kind (snd r) = InteractiveNavigateEnv.
Proof.
  intros K S r. subst r.
  destruct (NavigateEnv_reset fuel e) as [o e'] eqn:Hr.
  unfold NavigateEnv_reset in Hr.
  unfold bind at 1 in Hr. unfold update_world at 1, modify in Hr.
  set (e1 := set_world (robot_specific_reset (world e)) e) in Hr.
  unfold bind at 1 in Hr.
  pose proof (reset_initial_and_target_pos_keeps
                (fun e => (kind e, stage (episode e)))
                (fun _ _ => eq_refl) (fun _ _ => eq_refl) (fun _ _ => eq_refl)
                fuel e1) as Hcore.
  assert (Hplace : reset_initial_and_target_pos fuel e1
                   = InteractiveNavigateEnv_reset_initial_and_target_pos
                       fuel e1).
  { unfold reset_initial_and_target_pos.
    change (kind e1) with (kind e). now rewrite K. }
  pose proof (InteractiveNavigateEnv_placement_raises fuel e1) as Hraise.
  pose proof (InteractiveNavigateEnv_placement_positions fuel e1) as Hpos.
  rewrite <- Hplace in Hraise, Hpos. clear Hplace.
  destruct (reset_initial_and_target_pos fuel e1) as [[[] | x |] e2];
    simpl in Hcore, Hraise.
  - injection Hcore as Hk Hs.
    destruct (Hpos e2 eq_refl) as [Hinit Htarget].
    assert (Hle : (stage (episode e2) <= 2)%nat) by (rewrite Hs, S; lia).
    assert (Hpot : get_potential e2 = (Return (stage_potential e2), e2)).
    { unfold get_potential. rewrite Hk, K.
      now apply InteractiveNavigateEnv_get_potential_value. }
    unfold bind at 1 in Hr. rewrite Hpot in Hr.
    unfold bind at 1 in Hr. unfold update_episode at 1, modify in Hr.
    unfold bind at 1 in Hr. unfold update_episode at 1, modify in Hr.
    unfold bind at 1 in Hr. unfold update_episode at 1, modify in Hr.
    match type of Hr with
    | get_state [] ?e3 = _ =>
        pose proof (get_state_reads [] e3) as Hread; rewrite Hr in Hread
    end.
    simpl in Hread. subst e'. simpl. intros _ _.
    repeat split; try congruence.
    unfold stage_potential. rewrite Hs, S. reflexivity.
  - injection Hr as <- <-. simpl. intros _ Hx. exfalso.
    apply Hx. now apply (Hraise x).
  - injection Hr as <- <-. simpl. intros Hx. now exfalso.
Qed.

(** X9.  After a [reset] of the multi-stage environment that came to an end:
    the baseline of the potential is the distance now between the door
    handle and the end effector, so [get_potential] returns exactly the
    baseline and the shaping term of a step that changes nothing is zero;
    and whatever the configuration says, the initial position is the origin
    and the target is (-100, -100, 0). *)
Theorem reset_baselines_the_potential (fuel : nat) (e : Env) :
  kind e = InteractiveNavigateEnv ->
  fst (reset fuel e) <> Unfinished ->
  physics_timestep (ctor e) <> 0 ->
  let e' := snd (reset fuel e) in
  initial_potential (episode e')
  = l2_distance (door_handle_position (world e'))
                (end_effector_position (world e'))
  /\ 0 <= initial_potential (episode e')
  /\ fst (get_potential e') = Return (initial_potential (episode e'))
  /\ (initial_potential (episode e') <> 0 ->
      shaping_term e' (initial_potential (episode e')) = 0)
  /\ initial_pos (episode e') = V3 0 0 0
  /\ target_pos (episode e') = V3 (-100) (-100) 0.
Proof.
  intros K. unfold reset. rewrite K.
  destruct (reset_interactive_objects_value e) as [w [Hrio _]].
  set (e3 := set_episode
               (with_prev_stage 0
                  (with_stage 0 (with_cid None (episode e))))
               (set_world w e)).
  assert (Heq : InteractiveNavigateEnv_reset fuel e = NavigateEnv_reset fuel e3).
  { unfold InteractiveNavigateEnv_reset. unfold bind at 1. rewrite Hrio.
    reflexivity. }
  rewrite Heq. intros Hfin Hts.
  destruct (InteractiveNavigateEnv_base_reset_baseline fuel e3 K eq_refl
              Hfin Hts) as [Hip [Hinit [Htarget [Hs [Hnp Hk]]]]].
  set (e' := snd (NavigateEnv_reset fuel e3)) in *.
  cbv zeta. split; [exact Hip|]. split.
  { rewrite Hip. apply l2_distance_nonneg. }
  split.
  { unfold get_potential. rewrite Hk.
    rewrite InteractiveNavigateEnv_get_potential_value by (rewrite Hs; lia).
    cbn [fst]. f_equal. unfold stage_potential. rewrite Hs, Hip. reflexivity. }
  split; [|split; assumption].
  intro Hne. unfold shaping_term. rewrite Hnp. field_simplify; [lra | exact Hne].
Qed.

(** ** The constraint handle *)

(** A property of the environment that a computation re-establishes. *)
Lemma invariant_bind {A B : Type} (I : Env -> Prop) (m : M A) (f : A -> M B) :
  (forall e, I e -> I (snd (m e))) ->
  (forall a e, I e -> I (snd (f a e))) ->
  forall e, I e -> I (snd (bind m f e)).
Proof.
  intros Hm Hf e He. unfold bind. specialize (Hm e He).
  destruct (m e) as [[a | x |] e1]; simpl in *; auto.
Qed.

Lemma NavigateEnv_reset_keeps_handle (fuel : nat) :
  keeps handle_state (NavigateEnv_reset fuel).
Proof.
  assert (Hplace : keeps handle_state (reset_initial_and_target_pos fuel)).
  { apply reset_initial_and_target_pos_keeps; reflexivity. }
  unfold NavigateEnv_reset. frame.
Qed.

Lemma reset_handle (fuel : nat) (e : Env) :
  kind e = InteractiveNavigateEnv ->
  handle_state (snd (reset fuel e)) = (InteractiveNavigateEnv, 0%nat, None).
Proof.
  intro K. unfold reset. rewrite K.
  destruct (reset_interactive_objects_value e) as [w [Hrio _]].
  unfold InteractiveNavigateEnv_reset. unfold bind at 1. rewrite Hrio.
  unfold bind at 1. unfold update_episode at 1, modify.
  unfold bind at 1. unfold update_episode at 1, modify.
  rewrite NavigateEnv_reset_keeps_handle.
  unfold handle_state. simpl. now rewrite K.
Qed.

Lemma get_reward_keeps_handle (collision_links : list ContactPoint) :
  keeps handle_state (get_reward collision_links).
Proof.
  intro e. unfold get_reward. destruct (kind e).
  - revert e.
    change (keeps handle_state (NavigateEnv_get_reward collision_links)).
    unfold NavigateEnv_get_reward. frame.
  - revert e.
    change (keeps handle_state (NavigateEnv_get_reward collision_links)).
    unfold NavigateEnv_get_reward. frame.
  - revert e.
    change (keeps handle_state
              (InteractiveNavigateEnv_get_reward collision_links)).
    unfold InteractiveNavigateEnv_get_reward. frame.
Qed.

Lemma get_termination_keeps_handle : keeps handle_state get_termination.
Proof. unfold get_termination. frame. Qed.

Lemma run_simulation_keeps_handle : keeps handle_state run_simulation.
Proof. unfold run_simulation. frame. Qed.

Lemma handle_as_of_keeps {A : Type} (p : nat * option nat) (m : M A) :
  keeps handle_state m -> forall e, handle_as p e -> handle_as p (snd (m e)).
Proof.
  intros H e He. specialize (H e). unfold handle_state in H.
  injection H as Hk Hs Hc. unfold handle_as in *. now rewrite Hk, Hs, Hc.
Qed.

(** After [NavigateEnv.step] the stage and the handle are as before, or as a
    reset leaves them. *)
Lemma NavigateEnv_step_handle (fuel : nat) (action : list R) (p : nat * option nat) :
  forall e, handle_as p e ->
            handle_as p (snd (NavigateEnv_step fuel action e)).
Proof.
  unfold NavigateEnv_step.
  apply (invariant_bind (handle_as p)).
  { apply handle_as_of_keeps. frame. }
  intros _. apply (invariant_bind (handle_as p)).
  { apply handle_as_of_keeps, run_simulation_keeps_handle. }
  intro collision_links. apply (invariant_bind (handle_as p)).
  { apply handle_as_of_keeps. frame. }
  intro state. apply (invariant_bind (handle_as p)).
  { apply handle_as_of_keeps, get_reward_keeps_handle. }
  intro reward. apply (invariant_bind (handle_as p)).
  { apply handle_as_of_keeps, get_termination_keeps_handle. }
  intros [done info] e He. unfold bind at 1. unfold get at 1.
  destruct (done && automatic_reset (ctor e)); [|exact He].
  unfold bind.
  pose proof (reset_handle fuel e (proj1 He)) as Hreset.
  unfold handle_state in Hreset.
  destruct (reset fuel e) as [[s | x |] e1]; simpl in *;
    injection Hreset as Hk Hs Hc; unfold handle_as;
    rewrite Hk, Hs, Hc; auto.
Qed.

Lemma stage_transitions_handle (e : Env) :
  handle_consistent e ->
  fst (stage_transitions e) <> Raise AssertionError
  /\ handle_consistent (snd (stage_transitions e))
  /\ kind (snd (stage_transitions e)) = kind e.
Proof.
  unfold handle_consistent, stage_transitions.
  unfold bind, get, update_episode, modify, assert_, print, raise, ret,
    stage_get_to_door_handle, stage_open_door, stage_get_to_target_pos.
  intros [H1 H2]. simpl.
  destruct (stage (episode e)) as [|[|n]] eqn:S; simpl.
  - assert (Hc : cid (episode e) = None) by (apply H2; discriminate).
    rewrite Hc.
    destruct (Rltb _ 0.2); simpl;
      [ destruct (Rltb _ _); simpl | rewrite S; simpl ];
      repeat split; intros; congruence.
  - destruct (cid (episode e)) as [c|] eqn:Hc;
      [|exfalso; now apply H1].
    destruct (Rltb _ _); simpl; rewrite ?S, ?Hc; simpl;
      repeat split; intros; congruence.
  - assert (Hc : cid (episode e) = None) by (apply H2; discriminate).
    rewrite S, Hc. simpl. rewrite ?S, ?Hc. repeat split; intros; congruence.
Qed.

(** X10.  The constraint handle is held exactly while the stage is
    [open_door]: the constructor and [reset] establish this, every [step]
    of the multi-stage environment keeps it, with or without automatic
    reset, and in such a state the two assertions on the handle in [step]
    do not fail. *)
Theorem handle_held_while_opening
  (fuel : nat) (action : list R) (door : Z) (e : Env) :
  kind e = InteractiveNavigateEnv ->
  handle_consistent (InteractiveNavigateEnv_init door e)
  /\ handle_consistent (snd (reset fuel e))
  /\ (handle_consistent e ->
      handle_consistent (snd (step fuel action e))
      /\ fst (stage_transitions e) <> Raise AssertionError).
Proof.
  intro K. split; [|split].
  - unfold handle_consistent, InteractiveNavigateEnv_init,
      stage_open_door. simpl. split; [discriminate | reflexivity].
  - pose proof (reset_handle fuel e K) as H.
    unfold handle_state in H. injection H as _ Hs Hc.
    unfold handle_consistent, stage_open_door. rewrite Hs, Hc.
    split; [discriminate | reflexivity].
  - intro Hcons.
    destruct (stage_transitions_handle e Hcons) as [Hassert [Hcons1 Hk1]].
    split; [|exact Hassert].
    unfold step. rewrite K. unfold InteractiveNavigateEnv_step, bind.
    destruct (stage_transitions e) as [[[] | x |] e1]; simpl in *;
      try exact Hcons1.
    destruct (NavigateEnv_step_handle fuel action
                (stage (episode e1), cid (episode e1)) e1)
      as [_ [H | H]].
    { split; [congruence | left; reflexivity]. }
    + injection H as Hs Hc. unfold handle_consistent in *.
      now rewrite Hs, Hc.
    + injection H as Hs Hc. unfold handle_consistent, stage_open_door.
      rewrite Hs, Hc. split; [discriminate | reflexivity].
Qed.

(** ** The bookkeeping of a step *)

Lemma keeps_snd {A X : Type} (proj : Env -> X) (m : M A) (e e1 : Env)
  (o : outcome A) :
  keeps proj m -> m e = (o, e1) -> proj e1 = proj e.
Proof. intros H Hm. specialize (H e). now rewrite Hm in H. Qed.








(** ** What an observation holds *)

Lemma bind_ret_l {A B : Type} (a : A) (f : A -> M B) (e : Env) :
  bind (ret a) f e = f a e.
Proof. reflexivity. Qed.

Lemma bind_raise {A B : Type} (x : exn) (f : A -> M B) (e : Env) :
  bind (raise x) f e = (Raise x, e).
Proof. reflexivity. Qed.

Lemma bind_assoc {A B D : Type} (m : M A) (g : A -> M B) (f : B -> M D)
  (e : Env) :
  bind (bind m g) f e = bind m (fun a => bind (g a) f) e.
Proof. unfold bind. destruct (m e) as [[a | x |] e1]; reflexivity. Qed.

Lemma dict_get_set {V : Type} (k key : string) (v : V) (d : list (string * V)) :
  dict_get k (dict_set key v d)
  = if String.eqb k key then Some v else dict_get k d.
Proof.
  induction d as [|[k' v'] t IH]; simpl; [reflexivity|].
  destruct (String.eqb_spec key k') as [->|Hne]; simpl.
  - destruct (String.eqb_spec k k'); reflexivity.
  - destruct (String.eqb_spec k k') as [->|Hk].
    + destruct (String.eqb_spec k' key); [congruence | reflexivity].
    + exact IH.
Qed.

Lemma dict_get_put (k key : string) (out : list string) (v : payload)
  (d : observation) :
  dict_get k (put key out v d)
  = if String.eqb k key && str_in key out then Some v else dict_get k d.
Proof.
  unfold put. destruct (str_in key out); [rewrite dict_get_set|];
    destruct (String.eqb k key); reflexivity.
Qed.

Lemma bind_channel {B : Type} (key : string) (value : M payload)
  (state : observation) (f : observation -> M B) (e : Env) :
  bind (channel key value state) f e
  = if str_in key (output (settings e))
    then bind value (fun v => f (dict_set key v state)) e
    else f state e.
Proof.
  unfold channel, bind, get, ret.
  destruct (str_in key (output (settings e))); [|reflexivity].
  destruct (value e) as [[v | x |] e1]; reflexivity.
Qed.

Lemma bind_channel_ret {B : Type} (key : string) (v : payload)
  (state : observation) (f : observation -> M B) (e : Env) :
  bind (channel key (ret v) state) f e
  = f (put key (output (settings e)) v state) e.
Proof.
  rewrite bind_channel. unfold put.
  destruct (str_in key (output (settings e))); reflexivity.
Qed.

Ltac channel_cases key :=
  repeat match goal with
         | |- context [String.eqb key ?s] =>
             destruct (String.eqb_spec key s) as [->|]
         end.

Lemma NavigateEnv_get_state_returns
  (collision_links : list pyval) (e e' : Env) (state : observation) :
  NavigateEnv_get_state collision_links e = (Return state, e') ->
  e' = e
  /\ str_in "scan" (output (settings e)) = false
  /\ (str_in "rgb_filled" (output (settings e)) = true ->
      str_in "rgb" (output (settings e)) = true)
  /\ exists sensor_state auxiliary_sensor,
       get_additional_states e = (Return sensor_state, e)
       /\ get_auxiliary_sensor e = (Return auxiliary_sensor, e)
       /\ forall key,
            dict_get key state
            = if str_in key (output (settings e))
              then channel_value (world e) collision_links
                     sensor_state auxiliary_sensor key
              else None.
Proof.
  intro H. unfold NavigateEnv_get_state in H.
  apply bind_returns in H. destruct H as [sensor [e1 [H1 H]]].
  assert (e1 = e)
    by exact (keeps_snd (fun e => e) _ _ _ _ get_additional_states_reads H1).
  subst e1.
  apply bind_returns in H. destruct H as [aux [e2 [H2 H]]].
  assert (e2 = e)
    by exact (keeps_snd (fun e => e) _ _ _ _ get_auxiliary_sensor_reads H2).
  subst e2.
  apply bind_returns in H. destruct H as [e0 [e3 [H3 H]]].
  unfold get in H3. injection H3 as <- <-.
  rewrite !bind_channel_ret in H.
  rewrite bind_channel in H.
  set (out := output (settings e)) in *.
  assert (Htail : forall st,
    (state <- channel "bump"
                (ret (PBool (py_in (PyInt (-1)) collision_links))) st ;;
     state0 <- channel "pointgoal" (ret (PArr (firstn 2 sensor))) state ;;
     state1 <- channel "scan"
                 (assert_ (str_in "scan_link" (robot_parts (world e))) ;;
                  raise NameError) state0 ;;
     ret state1) e = (Return state, e') ->
    e' = e /\ str_in "scan" out = false
    /\ state = put "pointgoal" out (PArr (firstn 2 sensor))
                 (put "bump" out
                    (PBool (py_in (PyInt (-1)) collision_links)) st)).
  { intros st Ht. rewrite !bind_channel_ret, bind_channel in Ht.
    fold out in Ht. destruct (str_in "scan" out).
    - rewrite bind_assoc in Ht. unfold assert_ in Ht.
      destruct (str_in "scan_link" _);
        [rewrite bind_ret_l in Ht | rewrite bind_raise in Ht];
        discriminate.
    - unfold ret in Ht. injection Ht as <- <-. repeat split. }
  destruct (str_in "rgb_filled" out) eqn:Hfilled.
  - rewrite bind_assoc, !dict_get_put in H. fold out in H.
    simpl in H.
    destruct (str_in "rgb" out) eqn:Hrgb.
    + simpl in H. rewrite !bind_ret_l in H.
      apply Htail in H. destruct H as [-> [Hscan ->]].
      split; [reflexivity|]. split; [exact Hscan|].
      split; [reflexivity|].
      exists sensor, aux. split; [exact H1|]. split; [exact H2|].
      intro key. rewrite !dict_get_put, dict_get_set, !dict_get_put.
      unfold channel_value. channel_cases key; simpl;
        rewrite ?Hfilled, ?Hrgb; simpl;
        repeat match goal with
               | |- context [str_in ?k out] => destruct (str_in k out)
               end; reflexivity.
    + simpl in H. rewrite bind_raise in H. discriminate.
  - apply Htail in H. destruct H as [-> [Hscan ->]].
    split; [reflexivity|]. split; [exact Hscan|].
    split; [discriminate|].
    exists sensor, aux. split; [exact H1|]. split; [exact H2|].
    intro key. rewrite !dict_get_put.
    unfold channel_value. channel_cases key; simpl;
      rewrite ?Hfilled; simpl;
      repeat match goal with
             | |- context [str_in ?k out] => destruct (str_in k out)
             end; reflexivity.
Qed.

Lemma get_state_returns
  (collision_links : list pyval) (e e' : Env) (state : observation) :
  get_state collision_links e = (Return state, e') ->
  str_in "scan" (output (settings e)) = false.
Proof.
  unfold get_state. intro H.
  destruct (kind e);
    try (now apply NavigateEnv_get_state_returns in H).
  unfold InteractiveNavigateEnv_get_state in H.
  apply bind_returns in H. destruct H as [st [e1 [H _]]].
  now apply NavigateEnv_get_state_returns in H.
Qed.

Lemma run_simulation_keeps_observing : keeps observing run_simulation.
Proof. unfold run_simulation. frame. Qed.

Lemma stage_transitions_keeps_observing : keeps observing stage_transitions.
Proof. unfold stage_transitions. frame. Qed.

Lemma reset_interactive_objects_keeps_observing :
  keeps observing reset_interactive_objects.
Proof. unfold reset_interactive_objects. frame. Qed.

Lemma NavigateEnv_step_scan
  (fuel : nat) (action : list R) (e e' : Env) (r : step_result) :
  NavigateEnv_step fuel action e = (Return r, e') ->
  str_in "scan" (output (settings e)) = false.
Proof.
  intro H. unfold NavigateEnv_step in H.
  apply bind_returns in H. destruct H as [[] [e1 [H1 H]]].
  apply bind_returns in H. destruct H as [cl [e2 [H2 H]]].
  apply bind_returns in H. destruct H as [s [e3 [H3 _]]].
  assert (K1 : observing e1 = observing e).
  { unfold update_world, modify in H1. now injection H1 as <-. }
  pose proof (keeps_snd _ _ _ _ _ run_simulation_keeps_observing H2) as K2.
  apply get_state_returns in H3.
  assert (K : observing e2 = observing e) by congruence.
  unfold observing in K. injection K as _ Ks. now rewrite <- Ks.
Qed.

Lemma NavigateEnv_reset_scan (fuel : nat) (e e' : Env) (s : observation) :
  NavigateEnv_reset fuel e = (Return s, e') ->
  str_in "scan" (output (settings e)) = false.
Proof.
  intro H. unfold NavigateEnv_reset in H.
  assert (Hplace : keeps observing (reset_initial_and_target_pos fuel)).
  { apply reset_initial_and_target_pos_keeps; reflexivity. }
  apply bind_returns in H. destruct H as [[] [e1 [H1 H]]].
  apply bind_returns in H. destruct H as [[] [e2 [H2 H]]].
  apply bind_returns in H. destruct H as [p [e3 [H3 H]]].
  apply bind_returns in H. destruct H as [[] [e4 [H4 H]]].
  apply bind_returns in H. destruct H as [[] [e5 [H5 H]]].
  apply bind_returns in H. destruct H as [[] [e6 [H6 H]]].
  assert (K1 : observing e1 = observing e).
  { unfold update_world, modify in H1. now injection H1 as <-. }
  pose proof (keeps_snd _ _ _ _ _ Hplace H2) as K2.
  pose proof (keeps_snd observing _ _ _ _
                (keeps_of_reads _ _ get_potential_reads) H3) as K3.
  assert (K4 : observing e4 = observing e3).
  { unfold update_episode, modify in H4. now injection H4 as <-. }
  assert (K5 : observing e5 = observing e4).
  { unfold update_episode, modify in H5. now injection H5 as <-. }
  assert (K6 : observing e6 = observing e5).
  { unfold update_episode, modify in H6. now injection H6 as <-. }
  apply get_state_returns in H.
  assert (K : observing e6 = observing e) by congruence.
  unfold observing in K. injection K as _ Ks. now rewrite <- Ks.
Qed.

(** X12.  A configuration that asks for the [scan] channel gets no
    observation at all: in every class, with [scan] among the outputs,
    [get_state] never returns a state, and neither do [step] and [reset],
    which both call it. *)
Theorem scan_is_never_observed
  (fuel : nat) (action : list R) (collision_links : list pyval) (e : Env) :
  str_in "scan" (output (settings e)) = true ->
  (forall state, fst (get_state collision_links e) <> Return state)
  /\ (forall result, fst (step fuel action e) <> Return result)
  /\ (forall state, fst (reset fuel e) <> Return state).
Proof.
  intro Hscan. split; [|split].
  - intros state H.
    destruct (get_state collision_links e) as [o e'] eqn:Hg.
    simpl in H. subst o. apply get_state_returns in Hg. congruence.
  - intros result H.
    destruct (step fuel action e) as [o e'] eqn:Hs.
    simpl in H. subst o. unfold step in Hs.
    destruct (kind e);
      try (apply NavigateEnv_step_scan in Hs; congruence).
    unfold InteractiveNavigateEnv_step in Hs.
    apply bind_returns in Hs. destruct Hs as [[] [e1 [H1 Hs]]].
    pose proof (keeps_snd _ _ _ _ _ stage_transitions_keeps_observing H1) as K.
    apply NavigateEnv_step_scan in Hs.
    unfold observing in K. injection K as _ Ks. congruence.
  - intros state H.
    destruct (reset fuel e) as [o e'] eqn:Hr.
    simpl in H. subst o. unfold reset in Hr.
    destruct (kind e);
      try (apply NavigateEnv_reset_scan in Hr; congruence).
    unfold InteractiveNavigateEnv_reset in Hr.
    apply bind_returns in Hr. destruct Hr as [[] [e1 [H1 Hr]]].
    apply bind_returns in Hr. destruct Hr as [[] [e2 [H2 Hr]]].
    apply bind_returns in Hr. destruct Hr as [[] [e3 [H3 Hr]]].
    pose proof (keeps_snd _ _ _ _ _
                  reset_interactive_objects_keeps_observing H1) as K1.
    assert (K2 : observing e2 = observing e1).
    { unfold update_episode, modify in H2. now injection H2 as <-. }
    assert (K3 : observing e3 = observing e2).
    { unfold update_episode, modify in H3. now injection H3 as <-. }
    apply NavigateEnv_reset_scan in Hr.
    assert (K : observing e3 = observing e) by congruence.
    unfold observing in K. injection K as _ Ks. congruence.
Qed.

(** X13.  What an observation of the multi-stage environment holds when
    observations are not normalised: exactly the requested channels among
    sensor, auxiliary_sensor, pointgoal, rgb, depth, normal, seg, rgb_filled
    and bump; the sensor channel is the state vector, pointgoal its first two
    entries, depth the negated rendering, bump is [False] whatever contacts
    are handed in, and [rgb_filled] can only be had together with [rgb]. *)
Theorem observation_channels
  (collision_links : list pyval) (e : Env) (state : observation) :
  kind e = InteractiveNavigateEnv ->
  normalize_observation (settings e) = false ->
  fst (get_state collision_links e) = Return state ->
  exists sensor_state auxiliary_sensor,
    fst (get_additional_states e) = Return sensor_state
    /\ fst (get_auxiliary_sensor e) = Return auxiliary_sensor
    /\ (forall key,
          dict_get key state
          = if str_in key (output (settings e))
            then channel_value (world e) [] sensor_state auxiliary_sensor key
            else None)
    /\ (str_in "bump" (output (settings e)) = true ->
        dict_get "bump" state = Some (PBool false))
    /\ (str_in "rgb_filled" (output (settings e)) = true ->
        str_in "rgb" (output (settings e)) = true).
Proof.
  intros K Hnorm H.
  destruct (get_state collision_links e) as [o e'] eqn:Hg.
  simpl in H. subst o. unfold get_state in Hg. rewrite K in Hg.
  unfold InteractiveNavigateEnv_get_state in Hg.
  apply bind_returns in Hg. destruct Hg as [st [e1 [H1 Hg]]].
  apply NavigateEnv_get_state_returns in H1.
  destruct H1 as [-> [_ [Hfilled [sensor [aux [Hs [Ha Hkeys]]]]]]].
  unfold bind, get in Hg. rewrite Hnorm in Hg. unfold ret in Hg.
  injection Hg as <- <-.
  exists sensor, aux. rewrite Hs, Ha.
  split; [reflexivity|]. split; [reflexivity|]. split; [exact Hkeys|].
  split; [|exact Hfilled].
  intro Hb. rewrite Hkeys, Hb. reflexivity.
Qed.

(** ** The auxiliary sensor *)

(** X14.  The auxiliary reading of the multi-stage environment.  It is
    produced exactly when [auxiliary_sensor_dim] is 42 and the robot state
    has 46 entries.  It then has 42 entries: entries 0-5, 7-12, 19-33 and
    43-45 of the robot state, in this order, the arm joint angles (every
    third entry from 12 to 24) wrapped; then the cosine and sine of the yaw,
    the flag that is 1 in the stage open_door and -1 otherwise, the target
    position, and the door and target positions in the robot's frame. *)
Theorem auxiliary_sensor_layout (e : Env) :
  kind e = InteractiveNavigateEnv ->
  let rs := robot_calc_state (world e) in
  let w := world e in
  let '(r, p, yaw) := robot_rpy w in
  ((exists aux, fst (get_auxiliary_sensor e) = Return aux)
   <-> (auxiliary_sensor_dim (settings e) = 42%Z
        /\ List.length rs = 46%nat))
  /\ forall aux,
       fst (get_auxiliary_sensor e) = Return aux ->
       List.length aux = 42%nat
       /\ (forall i, (i < 6)%nat -> nth i aux 0 = nth i rs 0)
       /\ (forall i, (6 <= i < 12)%nat -> nth i aux 0 = nth (i + 1) rs 0)
       /\ (forall i, (12 <= i < 27)%nat ->
             nth i aux 0 = if (i mod 3 =? 0)%nat
                           then wrap_angle (nth (i + 7) rs 0)
                           else nth (i + 7) rs 0)
       /\ (forall i, (27 <= i < 30)%nat -> nth i aux 0 = nth (i + 16) rs 0)
       /\ slice 30 33 aux
          = [cos yaw; sin yaw;
             if (stage (episode e) =? stage_open_door)%nat then 1 else -1]
       /\ slice 33 36 aux = vec3_list (target_pos (episode e))
       /\ slice 36 39 aux
          = vec3_list (rotate_vector_3d
                         (vsub (V3 0 0 (-0.02)) (robot_position w)) r p yaw)
       /\ slice 39 42 aux
          = vec3_list (rotate_vector_3d
                         (vsub (target_pos (episode e)) (robot_position w))
                         r p yaw).
Proof.
  intros K rs w. subst rs w.
  set (w := world e) in *. set (rs := robot_calc_state w) in *.
  destruct (robot_rpy w) as [[r p] yaw] eqn:Hrpy.
  assert (Hvalue : forall aux,
    fst (get_auxiliary_sensor e) = Return aux ->
    auxiliary_sensor_dim (settings e) = 42%Z /\ List.length rs = 46%nat
    /\ Some aux
       = wrap_to_pi
           (assign_slice 39 42
              (vec3_list
                 (rotate_vector_3d
                    (vsub (target_pos (episode e)) (robot_position w))
                    r p yaw))
              (assign_slice 36 39
                 (vec3_list
                    (rotate_vector_3d
                       (vsub (V3 0 0 (-0.02)) (robot_position w)) r p yaw))
                 (assign_slice 33 36 (vec3_list (target_pos (episode e)))
                    (assign_slice 30 33
                       [cos yaw; sin yaw;
                        if (stage (episode e) =? stage_open_door)%nat
                        then 1 else -1]
                       (assign_slice 27 30 (slice 43 46 rs)
                          (assign_slice 12 27 (slice 19 34 rs)
                             (assign_slice 6 12 (slice 7 13 rs)
                                (assign_slice 0 6 (slice 0 6 rs)
                                   (repeat 0 42)))))))))
           [12; 15; 18; 21; 24]%nat).
  { intros aux H. unfold get_auxiliary_sensor in H. rewrite K in H.
    unfold InteractiveNavigateEnv_get_auxiliary_sensor in H.
    cbv beta iota delta [bind get assert_ ret raise] in H.
    fold w in H. rewrite Hrpy in H. fold rs in H.
    destruct (auxiliary_sensor_dim (settings e) <? 0)%Z;
      cbv beta iota delta [fst] in H; [discriminate H|].
    destruct (Z.eqb_spec (auxiliary_sensor_dim (settings e)) 42) as [Hd|];
      cbv beta iota delta [fst] in H; [|discriminate H].
    destruct (Nat.eqb_spec (List.length rs) 46) as [Hl|];
      cbv beta iota delta [fst] in H; [|discriminate H].
    split; [exact Hd|]. split; [exact Hl|].
    rewrite Hd in H. change (Z.to_nat 42%Z) with (42%nat) in H.
    unfold lift_option in H.
    destruct (wrap_to_pi _ _) as [a|]; [|discriminate H].
    simpl in H. congruence. }
  assert (Hrs : robot_calc_state w = rs) by reflexivity.
  clearbody rs.
  split.
  - split.
    + intros [aux H]. apply Hvalue in H. tauto.
    + intros [Hd Hl].
      unfold get_auxiliary_sensor. rewrite K.
      unfold InteractiveNavigateEnv_get_auxiliary_sensor.
      cbv beta iota delta [bind get assert_ ret raise].
      fold w. rewrite Hrpy, Hd, Hrs.
      change (42 <? 0)%Z with false. change (42 =? 42)%Z with true.
      rewrite Hl. change (46 =? 46)%nat with true.
      cbv beta iota.
      do 46 (destruct rs as [|? rs]; [discriminate Hl|]).
      destruct rs; [|discriminate Hl].
      simpl. eexists. reflexivity.
  - intros aux H. apply Hvalue in H. destruct H as [_ [Hl H]].
    do 46 (destruct rs as [|? rs]; [discriminate Hl|]).
    destruct rs; [|discriminate Hl].
    simpl in H. injection H as ->.
    split; [reflexivity|].
    split.
    { intros i Hi. do 6 (destruct i as [|i]; [reflexivity|]). lia. }
    split.
    { intros i Hi.
      do 12 (destruct i as [|i]; [first [lia | reflexivity]|]). lia. }
    split.
    { intros i Hi.
      do 27 (destruct i as [|i]; [first [lia | reflexivity]|]). lia. }
    split.
    { intros i Hi.
      do 30 (destruct i as [|i]; [first [lia | reflexivity]|]). lia. }
    repeat split.
Qed.

(** ** Loading *)

(** X15.  When [load] succeeds and how it fails, the base environment
    having loaded.  Without an [output] entry in the configuration it raises
    [KeyError], after it has already overwritten the reward attributes with
    the configured or default values, the list of outputs being left as it
    was.  With an [output] entry it succeeds exactly when the dimension of
    every requested vector channel is not negative and, if [rgb] or [depth]
    is requested, the configuration has a non-negative [resolution]. *)
Theorem load_outcome (e : Env) (w : World) :
  base_env_load (config e) (world e) = Return w ->
  let c := config e in
  (cfg_output c = None ->
   fst (load e) = Raise (KeyError "output")
   /\ success_reward (settings (snd (load e)))
      = config_get (cfg_success_reward c) 10
   /\ dist_tol (settings (snd (load e))) = config_get (cfg_dist_tol c) 0.2
   /\ output (settings (snd (load e))) = output (settings e))
  /\ (forall out, cfg_output c = Some out ->
        (fst (load e) = Return tt
         <-> ((str_in "sensor" out = true ->
               (0 <= config_get (cfg_additional_states_dim c) 0)%Z)
              /\ (str_in "auxiliary_sensor" out = true ->
                  (0 <= config_get (cfg_auxiliary_sensor_dim c) 0)%Z)
              /\ (str_in "rgb" out || str_in "depth" out = true ->
                  exists res, cfg_resolution c = Some res /\ (0 <= res)%Z)))).
Proof.
  intros Hload c. subst c. split.
  - intro Hout.
    unfold load, bind, get, modify, update_episode, config_item.
    simpl. rewrite Hload, Hout. simpl. repeat split.
  - intros out Hout.
    unfold load, bind, get, modify, update_episode, config_item, space, box,
      ret, raise.
    simpl. rewrite Hload, Hout. simpl.
    destruct (Z.ltb_spec
                (config_get (cfg_additional_states_dim (config e)) 0%Z) 0)
      as [Hdim | Hdim];
    destruct (Z.ltb_spec
                (config_get (cfg_auxiliary_sensor_dim (config e)) 0%Z) 0)
      as [Haux | Haux];
    (destruct (cfg_resolution (config e)) as [res|] eqn:Hres;
     [destruct (res <? 0)%Z eqn:Hneg|]);
    destruct (str_in "sensor" out); destruct (str_in "auxiliary_sensor" out);
    destruct (str_in "pointgoal" out); destruct (str_in "rgb" out);
    destruct (str_in "depth" out); simpl;
    unfold bind; simpl;
    repeat (progress (rewrite ?Hres, ?Hneg; simpl));
    try (apply Z.ltb_lt in Hneg); try (apply Z.ltb_ge in Hneg);
    (split;
     [ intro Hret; try discriminate Hret;
       repeat split; intros; try discriminate; try lia;
       try (eexists; split; [reflexivity | lia])
     | intros (H1 & H2 & H3); try reflexivity; exfalso;
       try (specialize (H1 eq_refl)); try (specialize (H2 eq_refl));
       try (destruct (H3 eq_refl) as [res' [Hres' Hpos]];
            try discriminate Hres'; injection Hres' as <-);
       lia ]).
Qed.

(** ** Reloading *)








(** ** Physics ticks of a step *)

Lemma py_int_nonneg (x : R) :
  0 <= x -> (0 <= py_int x)%Z /\ IZR (py_int x) <= x < IZR (py_int x) + 1.
Proof.
  intro Hx. unfold py_int. destruct (Rle_dec 0 x) as [_|]; [|contradiction].
  pose proof (Zfloor_bound x) as [Hlo Hhi]. split; [|split; assumption].
  apply Z.lt_succ_r. apply lt_IZR. rewrite succ_IZR. lra.
Qed.

(** X17.  The number of physics ticks per action that the constructor
    computes.  With a positive physics time step and a non-negative action
    time step, the ticks of one action cover at most the action time step
    and one more tick would exceed it; in particular an action time step
    shorter than the physics time step gives no tick at all.  A physics time
    step of zero is a [ZeroDivisionError]. *)
Theorem simulator_loop_covers_the_action
  (automatic_reset_arg : bool) (action_timestep_arg physics_timestep_arg : R)
  (old : Ctor) :
  (physics_timestep_arg = 0 ->
   NavigateEnv_init automatic_reset_arg action_timestep_arg
     physics_timestep_arg old = Raise ZeroDivisionError)
  /\ (0 < physics_timestep_arg -> 0 <= action_timestep_arg ->
      exists c,
        NavigateEnv_init automatic_reset_arg action_timestep_arg
          physics_timestep_arg old = Return c
        /\ INR (simulator_loop c) * physics_timestep_arg
           <= action_timestep_arg
           < (INR (simulator_loop c) + 1) * physics_timestep_arg
        /\ (action_timestep_arg < physics_timestep_arg ->
            simulator_loop c = 0%nat)).
Proof.
  unfold NavigateEnv_init. split.
  - intros ->. destruct (Req_dec_T 0 0); [reflexivity | contradiction].
  - intros Hp Ha.
    destruct (Req_dec_T physics_timestep_arg 0) as [Hz|_]; [lra|].
    eexists. split; [reflexivity|]. cbn [simulator_loop].
    set (q := action_timestep_arg / physics_timestep_arg).
    assert (Hq : 0 <= q).
    { unfold q. apply Rmult_le_pos; [exact Ha|].
      left. now apply Rinv_0_lt_compat. }
    destruct (py_int_nonneg q Hq) as [Hz [Hlo Hhi]].
    assert (Hn : INR (Z.to_nat (py_int q)) = IZR (py_int q)).
    { rewrite INR_IZR_INZ, Z2Nat.id by exact Hz. reflexivity. }
    assert (Hqa : q * physics_timestep_arg = action_timestep_arg).
    { unfold q. field. lra. }
    rewrite Hn. split; [split|].
    + rewrite <- Hqa. apply Rmult_le_compat_r; lra.
    + rewrite <- Hqa at 1. apply Rmult_lt_compat_r; lra.
    + intro Hlt.
      assert (Hq1 : q < 1).
      { apply Rmult_lt_reg_r with physics_timestep_arg; [exact Hp|].
        rewrite Hqa. lra. }
      assert (Hz0 : (py_int q < 1)%Z) by (apply lt_IZR; lra).
      replace (py_int q) with 0%Z by lia. reflexivity.
Qed.

Lemma flat_map_seq_shift {A : Type} (f : nat -> list A) (n : nat) :
  forall s, flat_map f (seq (S s) n) = flat_map (fun k => f (S k)) (seq s n).
Proof.
  induction n as [|n IH]; intro s; simpl; [reflexivity|].
  f_equal. apply IH.
Qed.

Lemma simulation_ticks_closed (n : nat) :
  forall (collision_links : list ContactPoint) (w : World),
    simulation_ticks n collision_links w
    = (collision_links
       ++ flat_map (fun k => contact_points (Nat.iter (S k) simulator_step w))
                   (seq 0 n),
       Nat.iter n simulator_step w).
Proof.
  induction n as [|n IH]; intros acc w.
  - simpl. now rewrite app_nil_r.
  - cbn [simulation_ticks]. rewrite IH, <- app_assoc.
    cbn [seq flat_map]. rewrite flat_map_seq_shift.
    f_equal.
    + f_equal. f_equal. apply flat_map_ext. intro k.
      now rewrite <- !Nat.iter_succ_r.
    + now rewrite <- Nat.iter_succ_r.
Qed.

(** X18.  [run_simulation] always returns: it advances the physics by
    exactly [simulator_loop] ticks and hands back the contacts of the robot
    after each of these ticks, in the order of the ticks, duplicates
    included; with no tick, no contact is reported and the world is left as
    it is. *)
Theorem run_simulation_collects (e : Env) :
  let n := simulator_loop (ctor e) in
  fst (run_simulation e)
  = Return (flat_map
              (fun k => contact_points (Nat.iter (S k) simulator_step (world e)))
              (seq 0 n))
  /\ world (snd (run_simulation e)) = Nat.iter n simulator_step (world e)
  /\ episode (snd (run_simulation e)) = episode e
  /\ (n = 0%nat ->
      fst (run_simulation e) = Return [] /\ snd (run_simulation e) = e).
Proof.
  intro n. unfold run_simulation, bind, get. fold n.
  rewrite simulation_ticks_closed. simpl.
  split; [reflexivity|]. split; [reflexivity|]. split; [reflexivity|].
  intros ->. simpl. split; [reflexivity|]. now destruct e.
Qed.

(** ** Devices of the parallel environments *)

Lemma linspace_int_nth (stop num i : nat) :
  (i < num)%nat ->
  nth_error (linspace_int stop num) i
  = Some (py_int (INR i * (INR stop / INR num))).
Proof.
  intro Hi. unfold linspace_int.
  apply (map_nth_error (fun k => py_int (INR k * (INR stop / INR num)))).
  rewrite (nth_error_nth' _ 0%nat) by (now rewrite length_seq).
  now rewrite seq_nth.
Qed.

Lemma linspace_int_range (stop num i : nat) :
  (0 < stop)%nat -> (i < num)%nat ->
  (0 <= py_int (INR i * (INR stop / INR num)) < Z.of_nat stop)%Z.
Proof.
  intros Hstop Hi.
  assert (Hnum : 0 < INR num) by (apply lt_0_INR; lia).
  assert (Hs : 0 < INR stop) by (apply lt_0_INR; lia).
  assert (Hi0 : 0 <= INR i) by apply pos_INR.
  assert (Hin : INR i < INR num) by (now apply lt_INR).
  set (x := INR i * (INR stop / INR num)).
  assert (Hx : 0 <= x).
  { unfold x. apply Rmult_le_pos; [exact Hi0|].
    apply Rmult_le_pos; [lra|]. left. now apply Rinv_0_lt_compat. }
  assert (Hlt : x < INR stop).
  { apply Rmult_lt_reg_r with (INR num); [exact Hnum|].
    replace (x * INR num) with (INR i * INR stop) by (unfold x; field; lra).
    rewrite (Rmult_comm (INR stop)). apply Rmult_lt_compat_r; assumption. }
  destruct (py_int_nonneg x Hx) as [Hz [Hlo _]].
  split; [exact Hz|].
  apply lt_IZR. rewrite <- INR_IZR_INZ. lra.
Qed.

Lemma device_of_linspace (gpu : list Z) (num i : nat) :
  gpu <> [] -> (i < num)%nat ->
  exists d,
    device_of gpu (linspace_int (List.length gpu) num) i = Return d
    /\ In d gpu
    /\ (i = 0%nat -> nth_error gpu 0 = Some d).
Proof.
  intros Hgpu Hi.
  assert (Hlen : (0 < List.length gpu)%nat).
  { destruct gpu; [contradiction | simpl; lia]. }
  unfold device_of. rewrite (linspace_int_nth _ _ _ Hi). simpl.
  pose proof (linspace_int_range _ _ _ Hlen Hi) as [Hlo Hhi].
  set (z := py_int (INR i * (INR (List.length gpu) / INR num))) in *.
  unfold py_item.
  replace (z <? 0)%Z with false by (symmetry; apply Z.ltb_ge; exact Hlo).
  destruct (nth_error gpu (Z.to_nat z)) as [d|] eqn:Hd.
  - exists d. split; [reflexivity|]. split.
    + eapply nth_error_In, Hd.
    + intros ->. revert Hd. unfold z.
      replace (INR 0 * (INR (List.length gpu) / INR num)) with 0
        by (simpl; field; apply not_0_INR; lia).
      unfold py_int. destruct (Rle_dec 0 0) as [_|Hn]; [|lra].
      change 0 with (IZR 0). rewrite ZfloorZ. simpl. auto.
  - apply nth_error_None in Hd. lia.
Qed.

Lemma headless_devices_linspace (gpu : list Z) (num : nat) :
  gpu <> [] ->
  forall env_ids,
    (forall i, In i env_ids -> (i < num)%nat) ->
    exists ds,
      headless_devices gpu (linspace_int (List.length gpu) num) env_ids
      = Return ds
      /\ List.length ds = List.length env_ids
      /\ Forall (fun md => fst md = "headless" /\ In (snd md) gpu) ds.
Proof.
  intros Hgpu env_ids. induction env_ids as [|i rest IH]; intro Hids.
  - exists []. repeat split. constructor.
  - destruct (device_of_linspace gpu num i Hgpu) as [d [Hd [Hin _]]].
    { apply Hids. now left. }
    destruct IH as [ds [Hds [Hlen Hall]]].
    { intros k Hk. apply Hids. now right. }
    exists (("headless", d) :: ds). simpl. rewrite Hd. simpl.
    rewrite Hds. simpl. split; [reflexivity|]. split; [now rewrite Hlen|].
    constructor; [split; [reflexivity | exact Hin] | exact Hall].
Qed.

(** X19.  The devices the training script hands out, for a non-empty list
    of GPU ids.  With at least one parallel environment, the evaluation
    environment is headless on the first GPU of the list, there are as many
    training environments as asked for, the first in the requested mode and
    all others headless, and each runs on a GPU of the list.  With zero
    parallel environments the script fails with an [IndexError]. *)
Theorem devices_come_from_the_list
  (gpu : list Z) (env_mode : string) (num_parallel_environments : nat) :
  gpu <> [] ->
  (num_parallel_environments = 0%nat ->
   assign_devices gpu env_mode num_parallel_environments = Raise IndexError)
  /\ ((1 <= num_parallel_environments)%nat ->
      exists d0 d1 ds,
        assign_devices gpu env_mode num_parallel_environments
        = Return (("headless", d0), (env_mode, d1) :: ds)
        /\ nth_error gpu 0 = Some d0
        /\ In d1 gpu
        /\ List.length ((env_mode, d1) :: ds) = num_parallel_environments
        /\ Forall (fun md => fst md = "headless" /\ In (snd md) gpu) ds).
Proof.
  intro Hgpu. split.
  - intros ->. unfold assign_devices.
    destruct (device_of_linspace gpu 1 0 Hgpu) as [d0 [Hd0 _]]; [lia|].
    change (0 + 1)%nat with 1%nat. rewrite Hd0. reflexivity.
  - intro Hn. unfold assign_devices.
    set (num := (num_parallel_environments + 1)%nat).
    destruct (device_of_linspace gpu num 0 Hgpu) as [d0 [Hd0 [_ Hfirst]]];
      [unfold num; lia|].
    destruct (device_of_linspace gpu num 1 Hgpu) as [d1 [Hd1 [Hin1 _]]];
      [unfold num; lia|].
    destruct (headless_devices_linspace gpu num Hgpu (seq 2 (num - 2)))
      as [ds [Hds [Hlen Hall]]].
    { intros i Hi. apply in_seq in Hi. unfold num in *. lia. }
    exists d0, d1, ds. rewrite Hd0. simpl. rewrite Hd1. simpl.
    rewrite Hds. simpl.
    split; [reflexivity|]. split; [now apply Hfirst|].
    split; [exact Hin1|]. split; [|exact Hall].
    rewrite Hlen, length_seq. unfold num. lia.
Qed.

(** ** Subgoals *)

Lemma denormalize_entry (x lo hi : R) :
  lo < hi -> lo <= x <= hi ->
  normalize_entry x lo hi * ((hi - lo) / 2) + (hi + lo) / 2 = x.
Proof.
  intros Hlt Hx. unfold normalize_entry.
  replace (Rmin (Rmax x lo) hi) with x.
  - field. lra.
  - unfold Rmin, Rmax.
    destruct (Rle_dec x lo); destruct (Rle_dec _ hi); lra.
Qed.

(** X20.  [set_subgoal] undoes the normalisation of the state vector.  For
    a state vector within the bounds of the [sensor] channel, handing its
    normalised form to [set_subgoal] places the base marker at the vector's
    first two entries, at height 0.4 and with the yaw of entry 5, and the
    end-effector marker at that position plus entries 2-4 rotated by minus
    the yaw, less 0.4 in each coordinate. *)
Theorem set_subgoal_inverts_normalisation
  (e : Env) (s lo hi normalised : list R) :
  dict_get "sensor" (observation_normalizer (settings e)) = Some (lo, hi) ->
  (6 <= List.length s)%nat ->
  List.length lo = List.length s ->
  List.length hi = List.length s ->
  (forall i, (i < List.length s)%nat ->
     nth i lo 0 < nth i hi 0 /\ nth i lo 0 <= nth i s 0 <= nth i hi 0) ->
  normalize_array s lo hi = Some normalised ->
  let yaw := nth 5 s 0 in
  let arm :=
    rotate_vector_3d (V3 (nth 2 s 0) (nth 3 s 0) (nth 4 s 0)) 0 0 (- yaw) in
  set_subgoal normalised e
  = (Return (V3 (nth 0 s 0) (nth 1 s 0) 0.4, yaw,
             V3 (nth 0 s 0 + vx arm - 0.4) (nth 1 s 0 + vy arm - 0.4)
                (0.4 + vz arm - 0.4)),
     e).
Proof.
  intros Hbounds Hsix Hlo Hhi Hin Hnorm yaw arm.
  destruct (normalize_array_entries s lo hi Hlo Hhi) as [out [E [L N]]].
  rewrite Hnorm in E. injection E as <-.
  destruct (broadcast2_same_length (fun x y => (x + y) / 2) hi lo)
    as [avg [Eavg [Lavg Navg]]]; [congruence|].
  destruct (broadcast2_same_length (fun x y => (x - y) / 2) hi lo)
    as [mag [Emag [Lmag Nmag]]]; [congruence|].
  destruct (broadcast2_same_length Rmult normalised mag)
    as [scaled [Escaled [Lscaled Nscaled]]]; [congruence|].
  destruct (broadcast2_same_length Rplus scaled avg)
    as [d [Ed [Ld Nd]]]; [congruence|].
  assert (Hd : forall i, (i < List.length s)%nat -> nth i d 0 = nth i s 0).
  { intros i Hi. rewrite Nd, Nscaled, N, Navg, Nmag by congruence.
    destruct (Hin i Hi) as [Hlt Hx]. now apply denormalize_entry. }
  unfold set_subgoal, bind, get. rewrite Hbounds. simpl.
  rewrite Eavg, Emag. simpl. rewrite Escaled. simpl. rewrite Ed. simpl.
  assert (Hlen : List.length d = List.length s) by congruence.
  destruct d as [|d0 [|d1 [|d2 [|d3 [|d4 [|d5 rest]]]]]];
    simpl in Hlen; try lia.
  pose proof (Hd 0%nat ltac:(lia)) as H0.
  pose proof (Hd 1%nat ltac:(lia)) as H1.
  pose proof (Hd 2%nat ltac:(lia)) as H2.
  pose proof (Hd 3%nat ltac:(lia)) as H3.
  pose proof (Hd 4%nat ltac:(lia)) as H4.
  pose proof (Hd 5%nat ltac:(lia)) as H5.
  simpl in H0, H1, H2, H3, H4, H5. subst d0 d1 d2 d3 d4 d5.
  simpl. reflexivity.
Qed.

(** ** Normalised observations *)

Lemma map_fst_dict_set {V : Type} (k : string) (v : V) (d : list (string * V)) :
  dict_get k d <> None -> map fst (dict_set k v d) = map fst d.
Proof.
  induction d as [|[k' v'] t IH]; simpl; [congruence|].
  destruct (String.eqb_spec k k') as [->|Hne]; simpl; [reflexivity|].
  intro H. f_equal. now apply IH.
Qed.

Lemma dict_get_keys {V : Type} (k : string) (d : list (string * V)) :
  In k (map fst d) <-> dict_get k d <> None.
Proof.
  induction d as [|[k' v'] t IH]; simpl; [tauto|].
  destruct (String.eqb_spec k k') as [->|Hne].
  - split; [discriminate | auto].
  - rewrite <- IH. split; [intros [Heq|Hin]; [congruence | exact Hin] | auto].
Qed.

Lemma normalize_channels_range
  (normalizer : list (string * (list R * list R))) (keys : list string) :
  forall (state : observation) (e : Env),
    (forall key, In key keys ->
       exists v, dict_get key state = Some v /\ bounded_by normalizer key v) ->
    exists out,
      normalize_channels normalizer keys state e = (Return out, e)
      /\ map fst out = map fst state
      /\ (forall key, In key keys ->
            exists v a,
              dict_get key state = Some v
              /\ dict_get key out = Some (PArr a)
              /\ List.length a = List.length (payload_array v)
              /\ forall i, (i < List.length a)%nat -> -1 <= nth i a 0 <= 1)
      /\ (forall key, ~ In key keys -> dict_get key out = dict_get key state).
Proof.
  induction keys as [|key rest IH]; intros state e Hk.
  - exists state. simpl. split; [reflexivity|]. split; [reflexivity|].
    split; [intros key [] | reflexivity].
  - destruct (Hk key (or_introl eq_refl))
      as [v [Hv [lo [hi [Hb [Hlo [Hhi Hlt]]]]]]].
    destruct (normalize_array_entries (payload_array v) lo hi Hlo Hhi)
      as [scaled [E [L N]]].
    assert (Hr : forall i, (i < List.length (payload_array v))%nat ->
                           -1 <= nth i scaled 0 <= 1).
    { intros i Hi. rewrite (N i Hi). apply normalize_entry_range, Hlt, Hi. }
    set (st' := dict_set key (PArr scaled) state).
    assert (Hk' : forall k, In k rest ->
              exists v, dict_get k st' = Some v /\ bounded_by normalizer k v).
    { intros k Hin. unfold st'. rewrite dict_get_set.
      destruct (String.eqb_spec k key) as [->|Hne].
      - exists (PArr scaled). split; [reflexivity|].
        exists lo, hi. simpl. rewrite L.
        split; [exact Hb|]. split; [exact Hlo|]. split; [exact Hhi|].
        exact Hlt.
      - apply Hk. now right. }
    destruct (IH st' e Hk') as [out [Hout [Hkeys [Hin Hnot]]]].
    exists out. split.
    { simpl. unfold bind. rewrite Hb. simpl. rewrite Hv. simpl.
      rewrite E. simpl. exact Hout. }
    split.
    { rewrite Hkeys. unfold st'. apply map_fst_dict_set. congruence. }
    split.
    + intros k [<- | Hk_in].
      * destruct (in_dec string_dec key rest) as [Hrest | Hrest].
        -- destruct (Hin key Hrest) as [v' [a [Hv' [Ha [Hla Hra]]]]].
           unfold st' in Hv'. rewrite dict_get_set, String.eqb_refl in Hv'.
           injection Hv' as <-. simpl in Hla.
           exists v, a. split; [exact Hv|]. split; [exact Ha|].
           split; [congruence | exact Hra].
        -- exists v, scaled. rewrite (Hnot key Hrest). unfold st'.
           rewrite dict_get_set, String.eqb_refl.
           split; [exact Hv|]. split; [reflexivity|]. split; [exact L|].
           intros i Hi. apply Hr. congruence.
      * destruct (Hin k Hk_in) as [v' [a [Hv' [Ha [Hla Hra]]]]].
        unfold st' in Hv'. rewrite dict_get_set in Hv'.
        destruct (String.eqb_spec k key) as [-> | Hne].
        -- injection Hv' as <-. simpl in Hla.
           exists v, a. split; [exact Hv|]. split; [exact Ha|].
           split; [congruence | exact Hra].
        -- exists v', a. auto.
    + intros k Hnotin.
      rewrite Hnot by (intro; apply Hnotin; now right).
      unfold st'. rewrite dict_get_set.
      destruct (String.eqb_spec k key) as [-> | Hne]; [|reflexivity].
      exfalso. apply Hnotin. now left.
Qed.

(** X21.  Normalised observations lie between -1 and 1.  In the multi-stage
    environment with normalisation switched on, if the normaliser has bounds
    of the right length for every channel of the observation, each lower
    bound below its upper bound, then [get_state] returns an observation
    with the same channels in the same order, and every entry of every
    channel is between -1 and 1. *)
Theorem normalized_observation_range
  (collision_links : list pyval) (e : Env) (raw : observation) :
  kind e = InteractiveNavigateEnv ->
  normalize_observation (settings e) = true ->
  fst (NavigateEnv_get_state [] e) = Return raw ->
  (forall key v, dict_get key raw = Some v ->
     bounded_by (observation_normalizer (settings e)) key v) ->
  exists state,
    fst (get_state collision_links e) = Return state
    /\ map fst state = map fst raw
    /\ forall key v, dict_get key state = Some v ->
         exists a, v = PArr a
                   /\ forall i, (i < List.length a)%nat ->
                        -1 <= nth i a 0 <= 1.
Proof.
  intros K Hnorm Hraw Hbounds.
  destruct (NavigateEnv_get_state [] e) as [o e1] eqn:Hg.
  simpl in Hraw. subst o.
  assert (e1 = e)
    by exact (keeps_snd (fun e => e) _ _ _ _ (NavigateEnv_get_state_reads []) Hg).
  subst e1.
  destruct (normalize_channels_range (observation_normalizer (settings e))
              (map fst raw) raw e) as [out [Hout [Hkeys [Hin _]]]].
  { intros key Hkey. apply dict_get_keys in Hkey.
    destruct (dict_get key raw) as [v|] eqn:Hv; [|congruence].
    exists v. split; [reflexivity | now apply Hbounds]. }
  exists out. split; [|split; [exact Hkeys|]].
  - unfold get_state. rewrite K. unfold InteractiveNavigateEnv_get_state.
    unfold bind at 1. rewrite Hg. unfold bind, get. rewrite Hnorm, Hout.
    reflexivity.
  - intros key v Hv.
    assert (Hkey : In key (map fst raw)).
    { rewrite <- Hkeys. apply dict_get_keys. congruence. }
    destruct (Hin key Hkey) as [v0 [a [_ [Ha [_ Hra]]]]].
    exists a. split; [congruence | exact Hra].
Qed.

(** ** The step limit *)

Lemma get_termination_timeout (e e' : Env) (done : bool) (metadata : info) :
  get_termination e = (Return (done, metadata), e') ->
  reached (S (current_step (episode e))) (max_step (settings e)) = true ->
  done = true.
Proof.
  intros H Hreached.
  destruct (fst (get_position_of_interest e)) as [[poi|] | x |] eqn:Hpoi.
  - rewrite (get_termination_value e poi Hpoi), Hreached in H.
    destruct (Rltb _ _); [now injection H as <- _ _|].
    destruct (Rgtb _ _); now injection H as <- _ _.
  - exfalso. revert H. unfold get_termination.
    unfold bind at 1. unfold update_episode at 1, modify.
    unfold bind at 1. unfold get at 1. unfold bind at 1.
    rewrite get_position_of_interest_value,
      get_position_of_interest_episode, Hpoi.
    discriminate.
  - exfalso. revert H. unfold get_termination.
    unfold bind at 1. unfold update_episode at 1, modify.
    unfold bind at 1. unfold get at 1. unfold bind at 1.
    rewrite get_position_of_interest_value,
      get_position_of_interest_episode, Hpoi.
    discriminate.
  - exfalso. revert H. unfold get_termination.
    unfold bind at 1. unfold update_episode at 1, modify.
    unfold bind at 1. unfold get at 1. unfold bind at 1.
    rewrite get_position_of_interest_value,
      get_position_of_interest_episode, Hpoi.
    discriminate.
Qed.

Lemma get_reward_keeps_deadline (collision_links : list ContactPoint) :
  keeps deadline (get_reward collision_links).
Proof.
  intro e. unfold get_reward. destruct (kind e).
  - revert e.
    change (keeps deadline (NavigateEnv_get_reward collision_links)).
    unfold NavigateEnv_get_reward. frame.
  - revert e.
    change (keeps deadline (NavigateEnv_get_reward collision_links)).
    unfold NavigateEnv_get_reward. frame.
  - revert e.
    change (keeps deadline
              (InteractiveNavigateEnv_get_reward collision_links)).
    unfold InteractiveNavigateEnv_get_reward. frame.
Qed.

Lemma run_simulation_keeps_deadline : keeps deadline run_simulation.
Proof. unfold run_simulation. frame. Qed.

Lemma stage_transitions_keeps_deadline : keeps deadline stage_transitions.
Proof. unfold stage_transitions. frame. Qed.

Lemma NavigateEnv_step_timeout
  (fuel : nat) (action : list R) (e e' : Env)
  (state : observation) (reward : R) (done : bool) (metadata : info) :
  NavigateEnv_step fuel action e = (Return (state, reward, done, metadata), e') ->
  reached (S (current_step (episode e))) (max_step (settings e)) = true ->
  done = true.
Proof.
  intros H Hreached. unfold NavigateEnv_step in H.
  apply bind_returns in H. destruct H as [[] [e1 [H1 H]]].
  apply bind_returns in H. destruct H as [cl [e2 [H2 H]]].
  apply bind_returns in H. destruct H as [s [e3 [H3 H]]].
  apply bind_returns in H. destruct H as [r [e4 [H4 H]]].
  apply bind_returns in H. destruct H as [[d i] [e5 [H5 H]]].
  assert (K1 : deadline e1 = deadline e).
  { unfold update_world, modify in H1. now injection H1 as <-. }
  pose proof (keeps_snd _ _ _ _ _ run_simulation_keeps_deadline H2) as K2.
  pose proof (keeps_snd deadline _ _ _ _
                (keeps_of_reads _ _ (get_state_reads _)) H3) as K3.
  pose proof (keeps_snd _ _ _ _ _ (get_reward_keeps_deadline cl) H4) as K4.
  assert (K : deadline e4 = deadline e) by congruence.
  unfold deadline in K. injection K as Km Kn.
  assert (Hd : d = true).
  { apply (get_termination_timeout e4 e5 d i H5). now rewrite Km, Kn. }
  subst d. unfold bind at 1 in H. unfold get at 1 in H.
  destruct (true && automatic_reset (ctor e5)).
  - apply bind_returns in H. destruct H as [s' [e6 [_ H]]].
    now injection H as _ _ <- _ _.
  - now injection H as _ _ <- _ _.
Qed.

(** X22.  The step limit ends the episode.  If the configured [max_step]
    is a number and the step counter, counting the step being taken, has
    reached it, then a [step] that returns reports the episode as done, in
    every class and with or without automatic reset. *)
Theorem step_limit_ends_the_episode
  (fuel : nat) (action : list R) (e : Env) (limit : R)
  (state : observation) (reward : R) (done : bool) (metadata : info) :
  max_step (settings e) = Fin limit ->
  limit <= INR (S (current_step (episode e))) ->
  fst (step fuel action e) = Return (state, reward, done, metadata) ->
  done = true.
Proof.
  intros Hmax Hlimit H.
  assert (Hreached :
    reached (S (current_step (episode e))) (max_step (settings e)) = true).
  { rewrite Hmax. unfold reached, Rgeb. now apply Rleb_true. }
  destruct (step fuel action e) as [o e'] eqn:Hs. simpl in H. subst o.
  unfold step in Hs. destruct (kind e).
  1, 2: now apply NavigateEnv_step_timeout in Hs.
  unfold InteractiveNavigateEnv_step in Hs.
  apply bind_returns in Hs. destruct Hs as [[] [e1 [H1 Hs]]].
  pose proof (keeps_snd _ _ _ _ _ stage_transitions_keeps_deadline H1) as K.
  unfold deadline in K. injection K as Km Kn.
  apply NavigateEnv_step_timeout in Hs; [exact Hs|].
  now rewrite Km, Kn.
Qed.

End MoreProperties.

(** * The further properties at sample environments *)

Lemma wrap_to_pi_idempotent_witness :
  wrap_to_pi [0] [0%nat] = Some [wrap_angle 0]
  /\ wrap_to_pi [wrap_angle 0] [0%nat] = Some [wrap_angle 0].
Proof.
  assert (H : wrap_to_pi [0] [0%nat] = Some [wrap_angle 0]) by reflexivity.
  split; [exact H|].
  exact (proj1 (wrap_to_pi_idempotent [0] [0%nat] [wrap_angle 0] H)).
Defined.

Lemma normalize_array_range_witness :
  List.length [-1] = List.length [0]
  /\ List.length [1] = List.length [0]
  /\ (forall i, (i < List.length [0])%nat -> nth i [-1] 0 < nth i [1] 0)
  /\ exists out, normalize_array [0] [-1] [1] = Some out
                 /\ List.length out = 1%nat.
Proof.
  assert (H : forall i, (i < List.length [0])%nat ->
                        nth i [-1] 0 < nth i [1] 0).
  { intros i Hi. simpl in Hi. destruct i as [|i]; [simpl; lra | lia]. }
  split; [reflexivity|]. split; [reflexivity|]. split; [exact H|].
  destruct (normalize_array_range [0] [-1] [1] eq_refl eq_refl H)
    as [out [Hout [Hlen _]]].
  exists out. split; assumption.
Defined.

(** A contact with the door handle next to a contact of the base link. *)
Lemma handle_contacts_are_ignored_witness :
  let e := door_env 90 0 0 0 None ["sensor"] [] in
  kind e = InteractiveNavigateEnv
  /\ forallb (is_handle_contact e) [handle_contact] = true
  /\ get_reward ([handle_contact] ++ [base_contact]) e
     = get_reward [base_contact] e.
Proof.
  intro e. split; [reflexivity|]. split; [reflexivity|].
  exact (proj1 (handle_contacts_are_ignored e [base_contact] [handle_contact]
                  eq_refl eq_refl)).
Defined.

Lemma collision_penalty_once_witness :
  let e := pointgoal_env NavigateEnv 10 0 in
  fst (get_position_of_interest e) = Return (Some origin)
  /\ (kind e = InteractiveNavigateEnv -> (stage (episode e) <= 2)%nat)
  /\ exists free,
       fst (get_reward [] e) = Return free
       /\ snd (get_reward [base_contact] e) = snd (get_reward [] e).
Proof.
  intro e.
  assert (Hpoi : fst (get_position_of_interest e) = Return (Some origin))
    by reflexivity.
  assert (Hstage : kind e = InteractiveNavigateEnv ->
                   (stage (episode e) <= 2)%nat) by discriminate.
  split; [exact Hpoi|]. split; [exact Hstage|].
  destruct (collision_penalty_once e [base_contact] origin Hpoi Hstage)
    as [free [Hfree [_ [_ Hsnd]]]].
  exists free. split; assumption.
Defined.

Lemma shaping_telescopes_witness :
  let e := pointgoal_env NavigateEnv 10 0 in
  fst (get_position_of_interest e) = Return (Some origin)
  /\ (kind e = InteractiveNavigateEnv ->
      stage (episode e) = prev_stage (episode e)
      /\ (stage (episode e) <= 2)%nat)
  /\ initial_potential (episode (snd (get_reward [] e)))
     = initial_potential (episode e).
Proof.
  intro e.
  assert (Hpoi : fst (get_position_of_interest e) = Return (Some origin))
    by reflexivity.
  assert (Hstage : kind e = InteractiveNavigateEnv ->
                   stage (episode e) = prev_stage (episode e)
                   /\ (stage (episode e) <= 2)%nat) by discriminate.
  split; [exact Hpoi|]. split; [exact Hstage|].
  exact (proj1 (proj2 (shaping_telescopes e [] origin Hpoi Hstage))).
Defined.

(** A robot of the multi-stage class on its target and 0.5 above the
    ground. *)
Lemma tipped_success_earns_nothing_witness :
  let e := pointgoal_env InteractiveNavigateEnv 10 0.5 in
  kind e = InteractiveNavigateEnv
  /\ (stage (episode e) <= 2)%nat
  /\ fst (get_position_of_interest e) = Return (Some (V3 0 0 0.5))
  /\ l2_distance (target_pos (episode e)) (V3 0 0 0.5) < dist_tol (settings e)
  /\ vz (robot_position (world e)) > 0.1
  /\ fst (get_termination e)
     = Return (true, [("success", IBool true); ("episode_length", IInt 1)]).
Proof.
  intro e.
  assert (K : kind e = InteractiveNavigateEnv) by reflexivity.
  assert (Hle : (stage (episode e) <= 2)%nat) by (simpl; lia).
  assert (Hpoi : fst (get_position_of_interest e)
                 = Return (Some (V3 0 0 0.5))) by reflexivity.
  assert (Hdist : l2_distance (target_pos (episode e)) (V3 0 0 0.5)
                  < dist_tol (settings e)).
  { simpl target_pos. rewrite sample_distance. simpl. lra. }
  assert (Hz : vz (robot_position (world e)) > 0.1) by (simpl; lra).
  split; [exact K|]. split; [exact Hle|]. split; [exact Hpoi|].
  split; [exact Hdist|]. split; [exact Hz|].
  exact (proj1 (tipped_success_earns_nothing e [] (V3 0 0 0.5)
                  K Hle Hpoi Hdist Hz)).
Defined.

Lemma energy_terms_only_penalize_witness :
  let e := door_env 90 0 0 0 None ["sensor"] [] in
  kind e = InteractiveNavigateEnv
  /\ (stage (episode e) <= 2)%nat
  /\ fst (get_position_of_interest e) = Return (Some origin)
  /\ joint_torque (world e) <> []
  /\ List.length (joint_speeds (world e))
     = List.length (joint_torque (world e))
  /\ exists reward, fst (get_reward [] e) = Return reward.
Proof.
  intro e.
  assert (K : kind e = InteractiveNavigateEnv) by reflexivity.
  assert (Hle : (stage (episode e) <= 2)%nat) by (simpl; lia).
  assert (Hpoi : fst (get_position_of_interest e) = Return (Some origin))
    by reflexivity.
  assert (Htorque : joint_torque (world e) <> []) by discriminate.
  assert (Hlen : List.length (joint_speeds (world e))
                 = List.length (joint_torque (world e))) by reflexivity.
  split; [exact K|]. split; [exact Hle|]. split; [exact Hpoi|].
  split; [exact Htorque|]. split; [exact Hlen|].
  destruct (proj1 (energy_terms_only_penalize e [] origin
                     K Hle Hpoi Htorque Hlen))
    as [energy [stall [_ [_ Hreward]]]].
  eexists. exact Hreward.
Defined.

Lemma sample_target_distance : l2_distance (V3 0 0 0) (V3 2 0 0) = 2.
Proof.
  unfold l2_distance. simpl.
  replace ((0 - 2) * (0 - 2) + (0 - 0) * (0 - 0) + (0 - 0) * (0 - 0))
    with (2 * 2) by ring.
  apply sqrt_square. lra.
Defined.

(** The still world draws the start at the origin and the target two metres
    away, so the first round of each loop is the last. *)
Lemma sample_random_placement :
  fst (reset_initial_and_target_pos (C := still_world) 1
         (pointgoal_env NavigateRandomEnv 10 0)) = Return tt.
Proof.
  unfold reset_initial_and_target_pos. simpl kind. cbv iota.
  unfold NavigateRandomEnv_reset_initial_and_target_pos.
  unfold NavigateRandomEnv_place_start, NavigateRandomEnv_place_target.
  unfold bind, get, update_world, update_episode, modify, ret. simpl.
  rewrite sample_target_distance.
  replace (Rltb 2 1) with false by (symmetry; apply Rltb_false; lra).
  reflexivity.
Defined.

Lemma random_placement_keeps_distance_witness :
  let e := pointgoal_env NavigateRandomEnv 10 0 in
  let e' := snd (reset_initial_and_target_pos (C := still_world) 1 e) in
  kind e = NavigateRandomEnv
  /\ fst (reset_initial_and_target_pos (C := still_world) 1 e) = Return tt
  /\ 1 <= l2_distance (initial_pos (episode e')) (target_pos (episode e')).
Proof.
  intros e e'. split; [reflexivity|]. split; [exact sample_random_placement|].
  exact (random_placement_keeps_distance (C := still_world) 1 e eq_refl
           sample_random_placement).
Defined.

(** A reset in the middle of an episode, the handle in hand. *)
Lemma reset_baselines_the_potential_witness :
  let e := door_env 90 (-1) 1 1 (Some 0%nat) ["sensor"] [] in
  let e' := snd (reset (C := still_world) 1 e) in
  kind e = InteractiveNavigateEnv
  /\ fst (reset (C := still_world) 1 e) <> Unfinished
  /\ physics_timestep (ctor e) <> 0
  /\ 0 <= initial_potential (episode e')
  /\ target_pos (episode e') = V3 (-100) (-100) 0.
Proof.
  intros e e'.
  assert (Hts : physics_timestep (ctor e) <> 0) by (simpl; lra).
  split; [reflexivity|]. split; [exact sample_reset_finishes|].
  split; [exact Hts|].
  destruct (reset_baselines_the_potential (C := still_world) 1 e eq_refl
              sample_reset_finishes Hts) as [_ [Hpos [_ [_ [_ Htarget]]]]].
  split; [exact Hpos | exact Htarget].
Defined.

Lemma handle_held_while_opening_witness :
  let e := door_env 90 0 1 1 (Some 0%nat) ["sensor"] [] in
  kind e = InteractiveNavigateEnv
  /\ handle_consistent (InteractiveNavigateEnv_init 1 e)
  /\ handle_consistent (snd (reset (C := still_world) 1 e)).
Proof.
  intro e. split; [reflexivity|].
  destruct (handle_held_while_opening (C := still_world) 1 [] 1 e eq_refl)
    as [Hinit [Hreset _]].
  split; [exact Hinit | exact Hreset].
Defined.

Ltac decide_comparisons :=
  repeat match goal with
         | |- context [Rltb ?a ?b] => destruct (Rltb a b); simpl
         | |- context [Rleb ?a ?b] => destruct (Rleb a b); simpl
         end.

(** A step of the still world in the last stage, whatever the comparisons
    of distances give. *)
Lemma sample_step_returns :
  exists reward done metadata,
    fst (step (C := still_world) 1 [] (limited_env (Fin 1)))
    = Return ([("bump", PBool false)], reward, done, metadata).
Proof.
  unfold step. simpl kind. cbv iota.
  unfold InteractiveNavigateEnv_step, stage_transitions, NavigateEnv_step.
  unfold bind, get, update_world, update_episode, modify, ret. simpl.
  unfold get_termination, get_position_of_interest, py_l2_distance,
    config_item, reached, Rgtb, Rgeb.
  unfold bind, get, update_episode, modify, print, ret. simpl.
  decide_comparisons; do 3 eexists; reflexivity.
Defined.


Lemma scan_is_never_observed_witness :
  let e := door_env 90 0 0 0 None ["scan"] [] in
  str_in "scan" (output (settings e)) = true
  /\ (forall state, fst (get_state (C := still_world) [] e) <> Return state).
Proof.
  intro e. split; [reflexivity|].
  exact (proj1 (scan_is_never_observed (C := still_world) 1 [] [] e eq_refl)).
Defined.

(** The base link touches something, and the bump channel is observed. *)
Lemma observation_channels_witness :
  let e := door_env 90 0 0 0 None ["bump"] [base_contact] in
  let state := [("bump", PBool false)] in
  kind e = InteractiveNavigateEnv
  /\ normalize_observation (settings e) = false
  /\ fst (get_state (C := still_world) [PyTuple base_contact] e)
     = Return state
  /\ (str_in "bump" (output (settings e)) = true ->
      dict_get "bump" state = Some (PBool false)).
Proof.
  intros e state.
  assert (H : fst (get_state (C := still_world) [PyTuple base_contact] e)
              = Return state) by reflexivity.
  split; [reflexivity|]. split; [reflexivity|]. split; [exact H|].
  destruct (observation_channels (C := still_world) [PyTuple base_contact]
              e state eq_refl eq_refl H)
    as [sensor [aux [_ [_ [_ [Hbump _]]]]]].
  exact Hbump.
Defined.

Lemma auxiliary_sensor_layout_witness :
  let e := door_env 90 0 1 0 (Some 0%nat) ["auxiliary_sensor"] [] in
  kind e = InteractiveNavigateEnv
  /\ ((exists aux,
         fst (get_auxiliary_sensor (C := still_world) e) = Return aux)
      <-> (auxiliary_sensor_dim (settings e) = 42%Z
           /\ List.length (robot_calc_state (world e)) = 46%nat)).
Proof.
  intro e. split; [reflexivity|].
  exact (proj1 (auxiliary_sensor_layout (C := still_world) e eq_refl)).
Defined.

Lemma load_outcome_witness :
  let e := pointgoal_env NavigateEnv 10 0 in
  base_env_load (Collaborators := still_world) (config e) (world e)
  = Return (world e)
  /\ cfg_output (config e) = Some ["sensor"]
  /\ fst (load (C := still_world) e) = Return tt.
Proof.
  intro e. split; [reflexivity|]. split; [reflexivity|].
  apply (proj2 (load_outcome (C := still_world) e (world e) eq_refl)
           ["sensor"] eq_refl).
  split; [intros _; simpl; lia|]. split; [intros _; simpl; lia|].
  discriminate.
Defined.


(** Two GPUs and three parallel environments. *)
Lemma devices_come_from_the_list_witness :
  [0%Z; 1%Z] <> []
  /\ exists d0 d1 ds,
       assign_devices [0%Z; 1%Z] "gui" 3
       = Return (("headless", d0), ("gui", d1) :: ds)
       /\ nth_error [0%Z; 1%Z] 0 = Some d0
       /\ List.length (("gui", d1) :: ds) = 3%nat.
Proof.
  assert (Hgpu : [0%Z; 1%Z] <> []) by discriminate.
  assert (Hn : (1 <= 3)%nat) by lia.
  split; [exact Hgpu|].
  destruct (proj2 (devices_come_from_the_list [0%Z; 1%Z] "gui" 3 Hgpu) Hn)
    as [d0 [d1 [ds [H [Hfirst [_ [Hlen _]]]]]]].
  exists d0, d1, ds. split; [exact H|]. split; [exact Hfirst | exact Hlen].
Defined.

Lemma sample_bounds :
  forall i, (i < List.length (repeat 0 7))%nat ->
    nth i (repeat (-1) 7) 0 < nth i (repeat 1 7) 0
    /\ nth i (repeat (-1) 7) 0 <= nth i (repeat 0 7) 0 <= nth i (repeat 1 7) 0.
Proof.
  intros i Hi. simpl in Hi.
  do 7 (destruct i as [|i]; [simpl; lra|]). lia.
Defined.

(** The state vector of a robot at the origin, normalised and handed
    back. *)
Lemma set_subgoal_inverts_normalisation_witness :
  let e := normalized_env in
  let s := repeat 0 7 in
  dict_get "sensor" (observation_normalizer (settings e))
  = Some (repeat (-1) 7, repeat 1 7)
  /\ (6 <= List.length s)%nat
  /\ exists normalised,
       normalize_array s (repeat (-1) 7) (repeat 1 7) = Some normalised
       /\ fst (set_subgoal (C := still_world) normalised e)
          = Return (V3 0 0 0.4, 0, V3 (0 + 0 - 0.4) (0 + 0 - 0.4)
                                      (0.4 + 0 - 0.4)).
Proof.
  intros e s.
  assert (Hsix : (6 <= List.length s)%nat) by (simpl; lia).
  split; [reflexivity|]. split; [exact Hsix|].
  destruct (normalize_array_entries s (repeat (-1) 7) (repeat 1 7)
              eq_refl eq_refl) as [normalised [Hnorm _]].
  exists normalised. split; [exact Hnorm|].
  exact (f_equal fst
           (set_subgoal_inverts_normalisation (C := still_world) e s
              (repeat (-1) 7) (repeat 1 7) normalised eq_refl Hsix
              eq_refl eq_refl sample_bounds Hnorm)).
Defined.

Lemma step_limit_ends_the_episode_witness :
  let e := limited_env (Fin 1) in
  max_step (settings e) = Fin 1
  /\ 1 <= INR (S (current_step (episode e)))
  /\ exists state reward metadata,
       fst (step (C := still_world) 1 [] e)
       = Return (state, reward, true, metadata).
Proof.
  intro e.
  assert (Hlimit : 1 <= INR (S (current_step (episode e)))) by (simpl; lra).
  split; [reflexivity|]. split; [exact Hlimit|].
  destruct sample_step_returns as [reward [done [metadata H]]].
  exists [("bump", PBool false)], reward, metadata.
  pose proof (step_limit_ends_the_episode (C := still_world) 1 [] e 1
                [("bump", PBool false)] reward done metadata
                eq_refl Hlimit H) as Hdone.
  subst done. exact H.
Defined.

(** The state vector of a robot at the origin, with bounds -1 and 1 for each
    of its seven entries. *)
Lemma normalized_observation_range_witness :
  let e := normalized_env in
  let raw :=
    [("sensor",
      PArr [0; 0; 0 - 0; 0 - 0; 0 - 0; wrap_angle 0; wrap_angle 0])] in
  kind e = InteractiveNavigateEnv
  /\ normalize_observation (settings e) = true
  /\ fst (NavigateEnv_get_state (C := still_world) [] e) = Return raw
  /\ exists state,
       fst (get_state (C := still_world) [] e) = Return state
       /\ map fst state = ["sensor"].
Proof.
  intros e raw.
  assert (Hraw : fst (NavigateEnv_get_state (C := still_world) [] e)
                 = Return raw) by reflexivity.
  assert (Hbounds : forall key v, dict_get key raw = Some v ->
            bounded_by (observation_normalizer (settings e)) key v).
  { intros key v. simpl.
    destruct (String.eqb_spec key "sensor") as [-> | _]; [|discriminate].
    intro Hv. injection Hv as <-.
    exists (repeat (-1) 7), (repeat 1 7).
    split; [reflexivity|]. split; [reflexivity|]. split; [reflexivity|].
    intros i Hi. simpl in Hi.
    do 7 (destruct i as [|i]; [simpl; lra|]). lia. }
  split; [reflexivity|]. split; [reflexivity|]. split; [exact Hraw|].
  destruct (normalized_observation_range (C := still_world) [] e raw
              eq_refl eq_refl Hraw Hbounds) as [state [Hstate [Hkeys _]]].
  exists state. split; [exact Hstate | exact Hkeys].
Defined.
